(** * openCOSMO-RS: segment-type registry, canonical ordering, interaction matrix

    A shallow embedding of [types.hpp] ([segmentTypeCollection],
    [apply_vector_permutation_in_place]) and of [interaction_matrix.hpp]
    ([calculateInteractionMatrix]).

    Integers.  [int], [unsigned short] and [size_t] values are indices and
    small counters; they are embedded as [Z], without the wrap-around of the
    machine types, which indices of vectors held in memory do not reach.

    Floating point.  The C++ [float] and [double] values are embedded as
    exact rationals [Q]: the casts between the two precisions are the
    identity, and rounding, infinities and NaN do not exist in the model.
    The operators [==], [!=], [<] and [>] on them are [Qeq_bool] and [Qltb].
    A division by zero is 0 in [Q], where the code has an infinity; the
    only division of the code is by the temperature, and the statements
    that depend on the value of that quotient are made for a temperature
    other than 0.

    Memory.  A [std::vector] or a C array is a [list]; every indexed access is
    bounds checked and an access outside the container, which is undefined
    behaviour in C++, halts the run with the fault [OutOfBounds].

    Library code.  [std::sort] is embedded by its contract, see [std_sort]. *)

From stdpp Require Import base list sorting strings.
From Stdlib Require Import ZArith QArith Qminmax Lia Lqa.
Local Open Scope Z_scope.

(** ** Outcomes of a run *)

Inductive fault : Type :=
| RuntimeError (msg : string)   (* throw std::runtime_error(msg) *)
| OutOfBounds                   (* index outside a vector, array or matrix *)
| FuelExhausted.                (* a [while] loop did not stop within its fuel *)

(** A run either returns with the final state or halts with a fault; the
    state reached at that moment is kept, because every object is
    passed by reference and nothing is rolled back. *)
Inductive result (S : Type) : Type :=
| Ok (s : S)
| Halt (f : fault) (s : S).
Arguments Ok {S} s.
Arguments Halt {S} f s.

Definition is_Ok {S} (r : result S) : bool :=
  match r with Ok _ => true | Halt _ _ => false end.

(** ** Vectors with checked access *)

Definition vsize {A} (v : list A) : Z := Z.of_nat (length v).

(* v[i] *)
Definition vget {A} (v : list A) (i : Z) : option A :=
  if decide (0 <= i) then v !! Z.to_nat i else None.

(* v[i] = x *)
Definition vset {A} (v : list A) (i : Z) (x : A) : option (list A) :=
  if decide (0 <= i < vsize v) then Some (<[Z.to_nat i := x]> v) else None.

(* v.push_back(x) *)
Definition push_back {A} (v : list A) (x : A) : list A := v ++ [x].

(** ** Counted loops

    [for_range lo hi body s] is [for (int i = lo; i < hi; i++) body(i)], for a
    body that changes neither [i] nor [hi]. *)

Fixpoint for_loop {S} (count : nat) (i : Z) (body : Z -> S -> result S) (s : S)
  : result S :=
  match count with
  | O => Ok s
  | S k =>
      match body i s with
      | Ok s' => for_loop k (i + 1) body s'
      | Halt f s' => Halt f s'
      end
  end.

Definition for_range {S} (lo hi : Z) (body : Z -> S -> result S) (s : S)
  : result S :=
  for_loop (Z.to_nat (hi - lo)) lo body s.

(** ** Rational comparisons *)

Definition Qltb (x y : Q) : bool := negb (Qle_bool y x).

(** ** types.hpp: segmentTypeCollection *)

Record segmentTypeCollection : Type := mkCollection {
  SegmentTypeAreasRowTemplate : list Q;
  lowerBoundIndexForGroup : list Z;    (* int[7] *)
  upperBoundIndexForGroup : list Z;    (* int[7] *)
  numberOfSegmentsForGroup : list Z;   (* int[7] *)
  SegmentTypeAreas : list (list Q);
  SegmentTypeGroup : list Z;
  SegmentTypeSigma : list Q;
  SegmentTypeSigmaCorr : list Q;
  SegmentTypeHBtype : list Z;
  SegmentTypeAtomicNumber : list Z
}.

(* The state before a constructor body runs: the three int[7] arrays are
   initialised to {0}, every vector is empty. *)
Definition member_init : segmentTypeCollection :=
  {| SegmentTypeAreasRowTemplate := [];
     lowerBoundIndexForGroup := replicate 7 0;
     upperBoundIndexForGroup := replicate 7 0;
     numberOfSegmentsForGroup := replicate 7 0;
     SegmentTypeAreas := [];
     SegmentTypeGroup := [];
     SegmentTypeSigma := [];
     SegmentTypeSigmaCorr := [];
     SegmentTypeHBtype := [];
     SegmentTypeAtomicNumber := [] |}.

Definition with_template (t : list Q) (c : segmentTypeCollection)
  : segmentTypeCollection :=
  {| SegmentTypeAreasRowTemplate := t;
     lowerBoundIndexForGroup := lowerBoundIndexForGroup c;
     upperBoundIndexForGroup := upperBoundIndexForGroup c;
     numberOfSegmentsForGroup := numberOfSegmentsForGroup c;
     SegmentTypeAreas := SegmentTypeAreas c;
     SegmentTypeGroup := SegmentTypeGroup c;
     SegmentTypeSigma := SegmentTypeSigma c;
     SegmentTypeSigmaCorr := SegmentTypeSigmaCorr c;
     SegmentTypeHBtype := SegmentTypeHBtype c;
     SegmentTypeAtomicNumber := SegmentTypeAtomicNumber c |}.

(* segmentTypeCollection(int numberOfMolecules): the loop pushes 0.0 onto the
   row template numberOfMolecules times. *)
Definition segmentTypeCollection_n (numberOfMolecules : Z) : segmentTypeCollection :=
  match for_range 0 numberOfMolecules
          (fun _ c => Ok (with_template
                            (push_back (SegmentTypeAreasRowTemplate c) 0%Q) c))
          member_init with
  | Ok c => c
  | Halt _ c => c
  end.

(* segmentTypeCollection(): the body constructs a temporary
   segmentTypeCollection(1) and drops it; the object under construction keeps
   its member initialisers. *)
Definition segmentTypeCollection_default : segmentTypeCollection :=
  let _temporary := segmentTypeCollection_n 1 in
  member_init.

(* size() *)
Definition size (c : segmentTypeCollection) : Z := vsize (SegmentTypeHBtype c).

(** *** add *)

(* [a && b] on checked reads: [b] is evaluated only when [a] is true. *)
Definition and_then (a b : option bool) : option bool :=
  match a with
  | Some true => b
  | Some false => Some false
  | None => None
  end.

(* The condition of the search loop of [add] at index i; [None] when a read
   falls outside its vector. *)
Definition add_match (c : segmentTypeCollection) (i : Z)
    (group : Z) (Sigma SigmaCorr : Q) (HBtype atomicNumber : Z) : option bool :=
  and_then (g ← vget (SegmentTypeGroup c) i; Some (g =? group))
 (and_then (h ← vget (SegmentTypeHBtype c) i; Some (h =? HBtype))
 (and_then (s ← vget (SegmentTypeSigma c) i; Some (Qeq_bool s Sigma))
 (and_then (sc ← vget (SegmentTypeSigmaCorr c) i; Some (Qeq_bool sc SigmaCorr))
           (an ← vget (SegmentTypeAtomicNumber c) i; Some (an =? atomicNumber))))).

(* int index = -1; for (i = 0; i < SegmentTypeHBtype.size(); i++)
     if (...) { index = i; break; } *)
Fixpoint add_search (c : segmentTypeCollection)
    (group : Z) (Sigma SigmaCorr : Q) (HBtype atomicNumber : Z)
    (count : nat) (i : Z) : option Z :=
  match count with
  | O => Some (-1)
  | S k =>
      match add_match c i group Sigma SigmaCorr HBtype atomicNumber with
      | None => None
      | Some true => Some i
      | Some false => add_search c group Sigma SigmaCorr HBtype atomicNumber k (i + 1)
      end
  end.

(* The five push_back calls and the push_back of the row template. *)
Definition add_append (c : segmentTypeCollection)
    (group : Z) (Sigma SigmaCorr : Q) (HBtype atomicNumber : Z)
  : segmentTypeCollection :=
  {| SegmentTypeAreasRowTemplate := SegmentTypeAreasRowTemplate c;
     lowerBoundIndexForGroup := lowerBoundIndexForGroup c;
     upperBoundIndexForGroup := upperBoundIndexForGroup c;
     numberOfSegmentsForGroup := numberOfSegmentsForGroup c;
     SegmentTypeAreas :=
       push_back (SegmentTypeAreas c) (SegmentTypeAreasRowTemplate c);
     SegmentTypeGroup := push_back (SegmentTypeGroup c) group;
     SegmentTypeSigma := push_back (SegmentTypeSigma c) Sigma;
     SegmentTypeSigmaCorr := push_back (SegmentTypeSigmaCorr c) SigmaCorr;
     SegmentTypeHBtype := push_back (SegmentTypeHBtype c) HBtype;
     SegmentTypeAtomicNumber := push_back (SegmentTypeAtomicNumber c) atomicNumber |}.

Definition with_areas (a : list (list Q)) (c : segmentTypeCollection)
  : segmentTypeCollection :=
  {| SegmentTypeAreasRowTemplate := SegmentTypeAreasRowTemplate c;
     lowerBoundIndexForGroup := lowerBoundIndexForGroup c;
     upperBoundIndexForGroup := upperBoundIndexForGroup c;
     numberOfSegmentsForGroup := numberOfSegmentsForGroup c;
     SegmentTypeAreas := a;
     SegmentTypeGroup := SegmentTypeGroup c;
     SegmentTypeSigma := SegmentTypeSigma c;
     SegmentTypeSigmaCorr := SegmentTypeSigmaCorr c;
     SegmentTypeHBtype := SegmentTypeHBtype c;
     SegmentTypeAtomicNumber := SegmentTypeAtomicNumber c |}.

(* SegmentTypeAreas[index][ind_molecule] += Area *)
Definition add_area (index ind_molecule : Z) (Area : Q) (c : segmentTypeCollection)
  : result segmentTypeCollection :=
  match vget (SegmentTypeAreas c) index with
  | None => Halt OutOfBounds c
  | Some row =>
      match vget row ind_molecule with
      | None => Halt OutOfBounds c
      | Some a =>
          match vset row ind_molecule (a + Area)%Q with
          | None => Halt OutOfBounds c
          | Some row' =>
              match vset (SegmentTypeAreas c) index row' with
              | None => Halt OutOfBounds c
              | Some areas' => Ok (with_areas areas' c)
              end
          end
      end
  end.

Definition add (ind_molecule group : Z) (Sigma SigmaCorr : Q)
    (HBtype atomicNumber : Z) (Area : Q) (c : segmentTypeCollection)
  : result segmentTypeCollection :=
  if Qeq_bool Area 0 then Ok c
  else
    match add_search c group Sigma SigmaCorr HBtype atomicNumber
            (Z.to_nat (size c)) 0 with
    | None => Halt OutOfBounds c
    | Some index =>
        if index =? -1 then
          let c1 := add_append c group Sigma SigmaCorr HBtype atomicNumber in
          add_area (vsize (SegmentTypeHBtype c1) - 1) ind_molecule Area c1
        else add_area index ind_molecule Area c
    end.

(** *** apply_vector_permutation_in_place *)

(* The loop [while (i != j) { swap(vec[prev_j], vec[j]); done[j] = true;
   prev_j = j; j = p[j]; }].  A cycle of p has at most vec.size() members, so
   the callers give vec.size() as fuel. *)
Fixpoint follow_cycle {T} (fuel : nat) (p : list Z) (i : Z)
    (vec : list T) (done : list bool) (prev_j j : Z)
  : result (list T * list bool) :=
  if i =? j then Ok (vec, done)
  else
    match fuel with
    | O => Halt FuelExhausted (vec, done)
    | S k =>
        match vget vec prev_j, vget vec j with
        | Some a, Some b =>
            let vec' := <[Z.to_nat j := a]> (<[Z.to_nat prev_j := b]> vec) in
            match vset done j true with
            | None => Halt OutOfBounds (vec', done)
            | Some done' =>
                match vget p j with
                | None => Halt OutOfBounds (vec', done')
                | Some j' => follow_cycle k p i vec' done' j j'
                end
            end
        | _, _ => Halt OutOfBounds (vec, done)
        end
    end.

(* The body of the outer [for] loop. *)
Definition permute_step {T} (p : list Z) (i : Z) (st : list T * list bool)
  : result (list T * list bool) :=
  let '(vec, done) := st in
  match vget done i with
  | None => Halt OutOfBounds st
  | Some true => Ok st
  | Some false =>
      match vset done i true with
      | None => Halt OutOfBounds st
      | Some done1 =>
          match vget p i with
          | None => Halt OutOfBounds (vec, done1)
          | Some j => follow_cycle (length vec) p i vec done1 i j
          end
      end
  end.

Definition apply_vector_permutation_in_place {T} (vec : list T) (p : list Z)
  : result (list T) :=
  match for_range 0 (vsize vec) (permute_step p)
          (vec, replicate (length vec) false) with
  | Ok st => Ok st.1
  | Halt f st => Halt f st.1
  end.

(** *** get_permutation_vector *)

(* One line [if (X[i] != X[j]) { return X[i] < X[j]; }] of the comparator,
   followed by the rest of the lambda. *)
Definition tierZ (X : list Z) (i j : Z) (rest : option bool) : option bool :=
  a ← vget X i; b ← vget X j;
  if negb (a =? b) then Some (a <? b) else rest.

Definition tierQ (X : list Q) (i j : Z) (rest : option bool) : option bool :=
  a ← vget X i; b ← vget X j;
  if negb (Qeq_bool a b) then Some (Qltb a b) else rest.

(* The lambda given to std::sort. *)
Definition less (c : segmentTypeCollection) (i j : Z) : option bool :=
  gi ← vget (SegmentTypeGroup c) i; gj ← vget (SegmentTypeGroup c) j;
  if negb (gi =? gj) then Some (gi <? gj)
  else
    let rest :=
      tierQ (SegmentTypeSigma c) i j
     (tierQ (SegmentTypeSigmaCorr c) i j
     (tierZ (SegmentTypeHBtype c) i j
     (tierZ (SegmentTypeAtomicNumber c) i j
     (Some (i <? j))))) in
    if (gi =? 3) || (gi =? 5)
    then tierZ (SegmentTypeAtomicNumber c) i j rest
    else rest.

(** std::sort belongs to the C++ library, not to the repository.  Its
    contract: for a comparator that is a strict weak ordering the range is
    rearranged into a sorted permutation of itself.  The lambda above ends in
    [i < j], so on distinct indices it is a strict total order and the sorted
    permutation is unique; [std_sort] computes it by insertion.  A comparison
    that reads outside a vector gives [None]. *)
Fixpoint sort_insert (lt : Z -> Z -> option bool) (x : Z) (l : list Z)
  : option (list Z) :=
  match l with
  | [] => Some [x]
  | y :: l' =>
      b ← lt x y;
      if b : bool then Some (x :: y :: l')
      else l'' ← sort_insert lt x l'; Some (y :: l'')
  end.

Fixpoint std_sort (lt : Z -> Z -> option bool) (l : list Z) : option (list Z) :=
  match l with
  | [] => Some []
  | x :: l' => s ← std_sort lt l'; sort_insert lt x s
  end.

(* std::vector<int> p(SegmentTypeGroup.size()); std::iota(..., 0); std::sort *)
Definition get_permutation_vector (c : segmentTypeCollection) : option (list Z) :=
  std_sort (less c) (seqZ 0 (vsize (SegmentTypeGroup c))).

(** *** sort *)

Definition with_vectors (g : list Z) (s sc : list Q) (h an : list Z)
    (a : list (list Q)) (c : segmentTypeCollection) : segmentTypeCollection :=
  {| SegmentTypeAreasRowTemplate := SegmentTypeAreasRowTemplate c;
     lowerBoundIndexForGroup := lowerBoundIndexForGroup c;
     upperBoundIndexForGroup := upperBoundIndexForGroup c;
     numberOfSegmentsForGroup := numberOfSegmentsForGroup c;
     SegmentTypeAreas := a;
     SegmentTypeGroup := g;
     SegmentTypeSigma := s;
     SegmentTypeSigmaCorr := sc;
     SegmentTypeHBtype := h;
     SegmentTypeAtomicNumber := an |}.

Definition with_bounds (lo up cnt : list Z) (c : segmentTypeCollection)
  : segmentTypeCollection :=
  {| SegmentTypeAreasRowTemplate := SegmentTypeAreasRowTemplate c;
     lowerBoundIndexForGroup := lo;
     upperBoundIndexForGroup := up;
     numberOfSegmentsForGroup := cnt;
     SegmentTypeAreas := SegmentTypeAreas c;
     SegmentTypeGroup := SegmentTypeGroup c;
     SegmentTypeSigma := SegmentTypeSigma c;
     SegmentTypeSigmaCorr := SegmentTypeSigmaCorr c;
     SegmentTypeHBtype := SegmentTypeHBtype c;
     SegmentTypeAtomicNumber := SegmentTypeAtomicNumber c |}.

(* Run a vector operation and store its vector back into the object, also
   when it halts. *)
Definition in_place {T S} (r : result T) (put : T -> S) (k : S -> result S)
  : result S :=
  match r with
  | Ok v => k (put v)
  | Halt f v => Halt f (put v)
  end.

(* The six calls of apply_vector_permutation_in_place, in source order. *)
Definition sort_permute (p : list Z) (c : segmentTypeCollection)
  : result segmentTypeCollection :=
  in_place (apply_vector_permutation_in_place (SegmentTypeGroup c) p)
    (fun v => with_vectors v (SegmentTypeSigma c) (SegmentTypeSigmaCorr c)
                (SegmentTypeHBtype c) (SegmentTypeAtomicNumber c)
                (SegmentTypeAreas c) c) (fun c =>
  in_place (apply_vector_permutation_in_place (SegmentTypeSigma c) p)
    (fun v => with_vectors (SegmentTypeGroup c) v (SegmentTypeSigmaCorr c)
                (SegmentTypeHBtype c) (SegmentTypeAtomicNumber c)
                (SegmentTypeAreas c) c) (fun c =>
  in_place (apply_vector_permutation_in_place (SegmentTypeSigmaCorr c) p)
    (fun v => with_vectors (SegmentTypeGroup c) (SegmentTypeSigma c) v
                (SegmentTypeHBtype c) (SegmentTypeAtomicNumber c)
                (SegmentTypeAreas c) c) (fun c =>
  in_place (apply_vector_permutation_in_place (SegmentTypeHBtype c) p)
    (fun v => with_vectors (SegmentTypeGroup c) (SegmentTypeSigma c)
                (SegmentTypeSigmaCorr c) v (SegmentTypeAtomicNumber c)
                (SegmentTypeAreas c) c) (fun c =>
  in_place (apply_vector_permutation_in_place (SegmentTypeAtomicNumber c) p)
    (fun v => with_vectors (SegmentTypeGroup c) (SegmentTypeSigma c)
                (SegmentTypeSigmaCorr c) (SegmentTypeHBtype c) v
                (SegmentTypeAreas c) c) (fun c =>
  in_place (apply_vector_permutation_in_place (SegmentTypeAreas c) p)
    (fun v => with_vectors (SegmentTypeGroup c) (SegmentTypeSigma c)
                (SegmentTypeSigmaCorr c) (SegmentTypeHBtype c)
                (SegmentTypeAtomicNumber c) v c) Ok))))).

(* State of the group-transition scan: the two bound arrays and
   temporaryindex. *)
Record scan_state : Type := mkScan {
  scan_lower : list Z;
  scan_upper : list Z;
  temporaryindex : Z
}.

(* Body of [for (i = 0; i < size(); i++)]. *)
Definition scan_step (group : list Z) (i : Z) (st : scan_state)
  : result scan_state :=
  match vget group i with
  | None => Halt OutOfBounds st
  | Some g =>
      if negb (temporaryindex st =? g) then
        let upper1 :=
          if negb (temporaryindex st =? -1)
          then vset (scan_upper st) (temporaryindex st) i
          else Some (scan_upper st) in
        match upper1 with
        | None => Halt OutOfBounds st
        | Some up =>
            match vset (scan_lower st) g i with
            | None => Halt OutOfBounds (mkScan (scan_lower st) up g)
            | Some lo => Ok (mkScan lo up g)
            end
        end
      else Ok st
  end.

(* numberOfSegmentsForGroup[i] = std::max(upper[i] - lower[i], 0) *)
Definition count_step (lo up : list Z) (i : Z) (cnt : list Z) : result (list Z) :=
  match vget up i, vget lo i with
  | Some u, Some l =>
      match vset cnt i (Z.max (u - l) 0) with
      | Some cnt' => Ok cnt'
      | None => Halt OutOfBounds cnt
      end
  | _, _ => Halt OutOfBounds cnt
  end.

Definition sort_bounds (c : segmentTypeCollection) : result segmentTypeCollection :=
  match for_range 0 (size c) (scan_step (SegmentTypeGroup c))
          (mkScan (lowerBoundIndexForGroup c) (upperBoundIndexForGroup c) (-1)) with
  | Halt f st =>
      Halt f (with_bounds (scan_lower st) (scan_upper st)
                (numberOfSegmentsForGroup c) c)
  | Ok st =>
      (* here i == size(): upperBoundIndexForGroup[temporaryindex] = i *)
      match vset (scan_upper st) (temporaryindex st) (size c) with
      | None =>
          Halt OutOfBounds (with_bounds (scan_lower st) (scan_upper st)
                              (numberOfSegmentsForGroup c) c)
      | Some up =>
          match for_range 0 7 (count_step (scan_lower st) up)
                  (numberOfSegmentsForGroup c) with
          | Ok cnt => Ok (with_bounds (scan_lower st) up cnt c)
          | Halt f cnt => Halt f (with_bounds (scan_lower st) up cnt c)
          end
      end
  end.

Definition sort (c : segmentTypeCollection) : result segmentTypeCollection :=
  match get_permutation_vector c with
  | None => Halt OutOfBounds c
  | Some p =>
      match sort_permute p c with
      | Halt f c1 => Halt f c1
      | Ok c1 => sort_bounds c1
      end
  end.

(** ** interaction_matrix.hpp *)

(* The fields of [struct parameters] that calculateInteractionMatrix reads.
   (It also copies param.ChargeRaster into a local that is never used.) *)
Record parameters : Type := mkParameters {
  sw_misfit : Z;
  sw_useSegmentReferenceStateForInteractionMatrix : Z;
  sw_calculateContactStatisticsAndAdditionalProperties : Z;
  numberOfPartialInteractionMatrices : Z;
  Aeff : Q;
  alpha : Q;
  CHB : Q;
  CHBT : Q;
  SigmaHB : Q;
  fCorr : Q
}.

(** An Eigen dense matrix: its dimensions and its coefficients.  [A(r, c)]
    outside the dimensions (an Eigen assertion failure, undefined behaviour
    without assertions) is the fault [OutOfBounds]. *)
Record Matrix : Type := mkMatrix {
  rows : Z;
  cols : Z;
  coeff : Z -> Z -> Q
}.

Definition in_matrix (A : Matrix) (r c : Z) : Prop :=
  0 <= r < rows A /\ 0 <= c < cols A.

(* A(r, c) as a value *)
Definition mget (A : Matrix) (r c : Z) : option Q :=
  if decide (in_matrix A r c) then Some (coeff A r c) else None.

(* A(r, c) = x *)
Definition mset (A : Matrix) (r c : Z) (x : Q) : option Matrix :=
  if decide (in_matrix A r c)
  then Some {| rows := rows A; cols := cols A;
               coeff := fun r' c' =>
                 if (r' =? r) && (c' =? c) then x else coeff A r' c' |}
  else None.

Definition Qgtb (x y : Q) : bool := Qltb y x.

(* double const misfit_prefactor = param.Aeff * param.alpha * 5950000.0 * 0.5; *)
Definition misfit_prefactor (param : parameters) : Q :=
  (Aeff param * alpha param * 5950000 * 0.5)%Q.

(* double CHB_T = 0;
   double buffdb1 = 1.0 - param.CHBT + param.CHBT * (298.15 / (temperature));
   if (buffdb1 > 0) CHB_T = param.CHB * 36700000.0 * buffdb1;
   At temperature 0 the quotient is an infinity in the code and 0 here: the
   definition stands for the code at every other temperature. *)
Definition CHB_T (param : parameters) (temperature : Q) : Q :=
  let buffdb1 := (1 - CHBT param + CHBT param * (298.15 / temperature))%Q in
  if Qgtb buffdb1 0 then (CHB param * 36700000 * buffdb1)%Q else 0%Q.

(* double const hb_prefactor = param.Aeff * CHB_T; *)
Definition hb_prefactor (param : parameters) (temperature : Q) : Q :=
  (Aeff param * CHB_T param temperature)%Q.

(* sigmaTrans = sigmaCorr - 0.816 * sigma *)
Definition sigmaTrans (sigmaCorr sigma : Q) : Q := (sigmaCorr - 0.816 * sigma)%Q.

(* The value of [val] after the misfit [if]/[else] of the inner loop. *)
Definition misfit_value (segments : segmentTypeCollection) (param : parameters)
    (sigmai sigmaTransi sigmaj : Q) (j : Z) : option Q :=
  let sigmaMFij := (sigmai + sigmaj)%Q in
  if 0 <? sw_misfit param then
    sigmaCorrj ← vget (SegmentTypeSigmaCorr segments) j;
    let sigmaTransj := sigmaTrans sigmaCorrj sigmaj in
    Some (misfit_prefactor param * sigmaMFij
          * (sigmaMFij + fCorr param * (sigmaTransi + sigmaTransj)))%Q
  else
    Some (misfit_prefactor param * sigmaMFij * sigmaMFij)%Q.

(* What the hydrogen-bond [if]/[else if] does to [val]. *)
Inductive hb_outcome : Type :=
| HBAdd (amount : Q)            (* val += amount *)
| HBNone                        (* val is left as it is *)
| HBThrow (msg : string).       (* throw std::runtime_error(msg) *)

(* SegmentTypeHBtype[i] == a && SegmentTypeHBtype[j] == b *)
Definition hb_classes (segments : segmentTypeCollection) (i j a b : Z)
  : option bool :=
  and_then (hi ← vget (SegmentTypeHBtype segments) i; Some (hi =? a))
           (hj ← vget (SegmentTypeHBtype segments) j; Some (hj =? b)).

Definition hb_branch (segments : segmentTypeCollection) (i j good_i good_j : Z)
    (amount : Q) (msg : string) : option hb_outcome :=
  match hb_classes segments i j good_i good_j with
  | None => None
  | Some true => Some (HBAdd amount)
  | Some false =>
      match hb_classes segments i j good_j good_i with
      | None => None
      | Some true => Some (HBThrow msg)
      | Some false => Some HBNone
      end
  end.

Definition hb_message_1 : string :=
  "This should not happen. Wrong assumption calculating interaction matrix. 1".
Definition hb_message_2 : string :=
  "This should not happen. Wrong assumption calculating interaction matrix. 2".

Definition hydrogen_bond (segments : segmentTypeCollection) (param : parameters)
    (temperature : Q) (sigmai sigmaj : Q) (i j : Z) : option hb_outcome :=
  let sigmaHB := SigmaHB param in
  let minus_sigmaHB := (-1 * sigmaHB)%Q in
  if Qltb sigmai minus_sigmaHB && Qgtb sigmaj sigmaHB then
    hb_branch segments i j 1 2
      (hb_prefactor param temperature * (sigmaj - sigmaHB) * (sigmai + sigmaHB))%Q
      hb_message_1
  else if Qltb sigmaj minus_sigmaHB && Qgtb sigmai sigmaHB then
    hb_branch segments i j 2 1
      (hb_prefactor param temperature * (sigmai - sigmaHB) * (sigmaj + sigmaHB))%Q
      hb_message_2
  else Some HBNone.

(* The value assigned to A_int(j, i), or the fault of the iteration. *)
Definition pair_value (segments : segmentTypeCollection) (param : parameters)
    (temperature : Q) (sigmai sigmaTransi : Q) (i j : Z) : fault + Q :=
  match vget (SegmentTypeSigma segments) j with
  | None => inl OutOfBounds
  | Some sigmaj =>
      match misfit_value segments param sigmai sigmaTransi sigmaj j with
      | None => inl OutOfBounds
      | Some val =>
          match hydrogen_bond segments param temperature sigmai sigmaj i j with
          | None => inl OutOfBounds
          | Some (HBThrow msg) => inl (RuntimeError msg)
          | Some HBNone => inr val
          | Some (HBAdd amount) => inr (val + amount)%Q
          end
      end
  end.

(* Body of [for (int j = i; j < UpperBoundIndexForNeutralComponents; j++)]. *)
Definition neutral_inner (segments : segmentTypeCollection) (param : parameters)
    (temperature : Q) (i : Z) (sigmai sigmaTransi : Q) (j : Z) (A_int : Matrix)
  : result Matrix :=
  match pair_value segments param temperature sigmai sigmaTransi i j with
  | inl f => Halt f A_int
  | inr val =>
      match mset A_int j i val with
      | None => Halt OutOfBounds A_int
      | Some A' => Ok A'
      end
  end.

(* sigmai and sigmaTransi as set at the top of the outer loop body;
   sigmaTransi keeps its initial 0.0 when sw_misfit <= 0. *)
Definition outer_locals (segments : segmentTypeCollection) (param : parameters)
    (i : Z) : option (Q * Q) :=
  sigmai ← vget (SegmentTypeSigma segments) i;
  if 0 <? sw_misfit param then
    sigmaCorri ← vget (SegmentTypeSigmaCorr segments) i;
    Some (sigmai, sigmaTrans sigmaCorri sigmai)
  else Some (sigmai, 0%Q).

Definition UpperBoundIndexForNeutralComponents (segments : segmentTypeCollection)
  : option Z :=
  u0 ← vget (upperBoundIndexForGroup segments) 0;
  u1 ← vget (upperBoundIndexForGroup segments) 1;
  u2 ← vget (upperBoundIndexForGroup segments) 2;
  Some (Z.max (Z.max u0 u1) u2).

(* Body of [for (int i = lowerBoundIndexForGroup[0]; i < Upper...; i++)]. *)
Definition neutral_outer (segments : segmentTypeCollection) (param : parameters)
    (temperature : Q) (upper : Z) (i : Z) (A_int : Matrix) : result Matrix :=
  match outer_locals segments param i with
  | None => Halt OutOfBounds A_int
  | Some (sigmai, sigmaTransi) =>
      for_range i upper
        (neutral_inner segments param temperature i sigmai sigmaTransi) A_int
  end.

(* The term-evaluation pass: lines 44-96. *)
Definition neutral_pass (segments : segmentTypeCollection) (param : parameters)
    (temperature : Q) (A_int : Matrix) : result Matrix :=
  match UpperBoundIndexForNeutralComponents segments,
        vget (lowerBoundIndexForGroup segments) 0 with
  | Some upper, Some lower =>
      for_range lower upper (neutral_outer segments param temperature upper) A_int
  | _, _ => Halt OutOfBounds A_int
  end.

(* A(j, i) = A(j, i) - 0.5 * (A(i, i) + A(j, j)) *)
Definition shift_entry (i j : Z) (A : Matrix) : result Matrix :=
  match mget A j i, mget A i i, mget A j j with
  | Some x, Some di, Some dj =>
      match mset A j i (x - 0.5 * (di + dj))%Q with
      | Some A' => Ok A'
      | None => Halt OutOfBounds A
      end
  | _, _, _ => Halt OutOfBounds A
  end.

(* for (i = 0; i < n; i++) for (j = i + 1; j < n; j++) shift *)
Definition shift_pass (numberOfSegments : Z) (A : Matrix) : result Matrix :=
  for_range 0 numberOfSegments
    (fun i => for_range (i + 1) numberOfSegments (shift_entry i)) A.

(* A(i, i) = 0 *)
Definition zero_entry (i : Z) (A : Matrix) : result Matrix :=
  match mset A i i 0%Q with
  | Some A' => Ok A'
  | None => Halt OutOfBounds A
  end.

Definition zero_pass (numberOfSegments : Z) (A : Matrix) : result Matrix :=
  for_range 0 numberOfSegments zero_entry A.

(* partialInteractionMatrices[h]: the pass works on element h of the vector *)
Definition on_partial (pass : Matrix -> result Matrix) (h : Z)
    (partials : list Matrix) : result (list Matrix) :=
  match vget partials h with
  | None => Halt OutOfBounds partials
  | Some P =>
      match pass P with
      | Ok P' => Ok (<[Z.to_nat h := P']> partials)
      | Halt f P' => Halt f (<[Z.to_nat h := P']> partials)
      end
  end.

Definition and_next {S} (r : result S) (k : S -> result S) : result S :=
  match r with
  | Ok s => k s
  | Halt f s => Halt f s
  end.

(* The block guarded by sw_calculateContactStatisticsAndAdditionalProperties > 0 *)
Definition renormalise_partials (param : parameters) (numberOfSegments : Z)
    (partials : list Matrix) : result (list Matrix) :=
  and_next
    (for_range 0 (numberOfPartialInteractionMatrices param)
       (on_partial (shift_pass numberOfSegments)) partials)
    (for_range 0 (numberOfPartialInteractionMatrices param)
       (on_partial (zero_pass numberOfSegments))).

Definition on_A_int (r : result Matrix) (partials : list Matrix)
  : result (Matrix * list Matrix) :=
  match r with
  | Ok A => Ok (A, partials)
  | Halt f A => Halt f (A, partials)
  end.

Definition on_partials (A_int : Matrix) (r : result (list Matrix))
  : result (Matrix * list Matrix) :=
  match r with
  | Ok ps => Ok (A_int, ps)
  | Halt f ps => Halt f (A_int, ps)
  end.

(* The block guarded by sw_useSegmentReferenceStateForInteractionMatrix == 1 *)
Definition renormalise (param : parameters) (numberOfSegments : Z)
    (st : Matrix * list Matrix) : result (Matrix * list Matrix) :=
  and_next
    (on_A_int (and_next (shift_pass numberOfSegments st.1)
                        (zero_pass numberOfSegments)) st.2)
    (fun st1 =>
       if 0 <? sw_calculateContactStatisticsAndAdditionalProperties param
       then on_partials st1.1 (renormalise_partials param numberOfSegments st1.2)
       else Ok st1).

(* The state is the pair of the two objects passed by reference:
   A_int and partialInteractionMatrices. *)
Definition calculateInteractionMatrix (segments : segmentTypeCollection)
    (param : parameters) (temperature : Q) (st : Matrix * list Matrix)
  : result (Matrix * list Matrix) :=
  let numberOfSegments := size segments in
  and_next
    (on_A_int (neutral_pass segments param temperature st.1) st.2)
    (fun st1 =>
       if sw_useSegmentReferenceStateForInteractionMatrix param =? 1
       then renormalise param numberOfSegments st1
       else Ok st1).

(** ** Invariants and observations used by the statements *)

(* The five key vectors and the area rows have one entry per segment type. *)
Record parallel (c : segmentTypeCollection) : Prop := mkParallel {
  parallel_group : vsize (SegmentTypeGroup c) = size c;
  parallel_sigma : vsize (SegmentTypeSigma c) = size c;
  parallel_sigmaCorr : vsize (SegmentTypeSigmaCorr c) = size c;
  parallel_atomicNumber : vsize (SegmentTypeAtomicNumber c) = size c;
  parallel_areas : vsize (SegmentTypeAreas c) = size c
}.

(* Segment type i carries the key (group, Sigma, SigmaCorr, HBtype,
   atomicNumber), compared as the search loop of [add] compares it. *)
Definition has_key (c : segmentTypeCollection) (i : Z)
    (group : Z) (Sigma SigmaCorr : Q) (HBtype atomicNumber : Z) : Prop :=
  add_match c i group Sigma SigmaCorr HBtype atomicNumber = Some true.

Definition unique_keys (c : segmentTypeCollection) : Prop :=
  forall group Sigma SigmaCorr HBtype atomicNumber i j,
    has_key c i group Sigma SigmaCorr HBtype atomicNumber ->
    has_key c j group Sigma SigmaCorr HBtype atomicNumber -> i = j.

(* What segmentTypeCollection(n) establishes and [add] keeps, n being the
   number of molecules the collection was constructed for. *)
Record well_formed (n : Z) (c : segmentTypeCollection) : Prop := mkWellFormed {
  wf_parallel : parallel c;
  wf_template : SegmentTypeAreasRowTemplate c = replicate (Z.to_nat n) 0%Q;
  wf_rows : Forall (fun row => vsize row = Z.max 0 n) (SegmentTypeAreas c);
  wf_unique : unique_keys c
}.

(* The collections reachable from segmentTypeCollection(n) by calls of add. *)
Inductive built (n : Z) : segmentTypeCollection -> Prop :=
| built_new : built n (segmentTypeCollection_n n)
| built_add c c' ind_molecule group Sigma SigmaCorr HBtype atomicNumber Area :
    built n c ->
    add ind_molecule group Sigma SigmaCorr HBtype atomicNumber Area c = Ok c' ->
    built n c'.

(* Segment type i has the attributes (group, Sigma, SigmaCorr, HBtype,
   atomicNumber), read off the five vectors. *)
Definition key_at (c : segmentTypeCollection) (i : Z)
    (group : Z) (Sigma SigmaCorr : Q) (HBtype atomicNumber : Z) : Prop :=
  exists gi hi si sci ani,
    vget (SegmentTypeGroup c) i = Some gi /\
    vget (SegmentTypeHBtype c) i = Some hi /\
    vget (SegmentTypeSigma c) i = Some si /\
    vget (SegmentTypeSigmaCorr c) i = Some sci /\
    vget (SegmentTypeAtomicNumber c) i = Some ani /\
    gi = group /\ hi = HBtype /\ (si == Sigma)%Q /\ (sci == SigmaCorr)%Q /\
    ani = atomicNumber.

(* The registry of n molecules, in terms of what the vectors hold: one entry
   per segment type in each vector, the row template and every area row of
   n entries, and no two segment types with the same attributes. *)
Record registry (n : Z) (c : segmentTypeCollection) : Prop := mkRegistry {
  registry_parallel : parallel c;
  registry_template : SegmentTypeAreasRowTemplate c = replicate (Z.to_nat n) 0%Q;
  registry_rows : Forall (fun row => vsize row = Z.max 0 n) (SegmentTypeAreas c);
  registry_distinct :
    forall group Sigma SigmaCorr HBtype atomicNumber i j,
      key_at c i group Sigma SigmaCorr HBtype atomicNumber ->
      key_at c j group Sigma SigmaCorr HBtype atomicNumber -> i = j
}.

(* SegmentTypeAreas[index][ind_molecule], read as 0 where no such entry exists *)
Definition stored_area (c : segmentTypeCollection) (index ind_molecule : Z) : Q :=
  default 0%Q (row ← vget (SegmentTypeAreas c) index; vget row ind_molecule).

(* The pairs (i, j) the term-evaluation loops visit. *)
Definition in_block (segments : segmentTypeCollection) (i j : Z) : Prop :=
  exists lower upper,
    vget (lowerBoundIndexForGroup segments) 0 = Some lower /\
    UpperBoundIndexForNeutralComponents segments = Some upper /\
    lower <= i <= j /\ j < upper.

(* The value the loops assign to A_int(j, i), with the locals of the outer
   iteration i. *)
Definition entry_value (segments : segmentTypeCollection) (param : parameters)
    (temperature : Q) (i j : Z) : fault + Q :=
  match outer_locals segments param i with
  | None => inl OutOfBounds
  | Some (sigmai, sigmaTransi) =>
      pair_value segments param temperature sigmai sigmaTransi i j
  end.

(* Segment a has sigma below -SigmaHB and segment b has sigma above SigmaHB. *)
Definition hb_signs (segments : segmentTypeCollection) (param : parameters)
    (a b : Z) : Prop :=
  exists sa sb,
    vget (SegmentTypeSigma segments) a = Some sa /\
    vget (SegmentTypeSigma segments) b = Some sb /\
    (sa < - SigmaHB param)%Q /\ (SigmaHB param < sb)%Q.

(* Segment a carries hbType ta and segment b carries hbType tb. *)
Definition hb_types (segments : segmentTypeCollection) (a b ta tb : Z) : Prop :=
  vget (SegmentTypeHBtype segments) a = Some ta /\
  vget (SegmentTypeHBtype segments) b = Some tb.

(* The pair has a negative segment of class 1 and a positive one of class 2. *)
Definition hb_opposed (segments : segmentTypeCollection) (param : parameters)
    (i j : Z) : Prop :=
  (hb_signs segments param i j /\ hb_types segments i j 1 2) \/
  (hb_signs segments param j i /\ hb_types segments j i 1 2).

(* The pair has a negative segment of class 2 and a positive one of class 1. *)
Definition hb_wrong_orientation (segments : segmentTypeCollection)
    (param : parameters) (i j : Z) : Prop :=
  (hb_signs segments param i j /\ hb_types segments i j 2 1) \/
  (hb_signs segments param j i /\ hb_types segments j i 2 1).

(* The state a run is in when it returns or halts. *)
Definition state_of {S} (r : result S) : S :=
  match r with
  | Ok s => s
  | Halt _ s => s
  end.

(* Pair (c, r) of the block [lower, upper) is visited before the loops
   reach (i, j). *)
Definition visited (lower upper i j c r : Z) : Prop :=
  lower <= c /\ c <= r < upper /\ (c < i \/ (c = i /\ r < j)).

(* B is A_int when the term-evaluation loops, started on A, reach (i, j). *)
Definition reached (segments : segmentTypeCollection) (param : parameters)
    (temperature : Q) (A : Matrix) (lower upper i j : Z) (B : Matrix) : Prop :=
  rows B = rows A /\ cols B = cols A /\
  (forall c r, visited lower upper i j c r ->
     entry_value segments param temperature c r = inr (coeff B r c)) /\
  (forall c r, ~ visited lower upper i j c r -> coeff B r c = coeff A r c).

(** ** A small sorted collection and parameter sets, to run the definitions on *)

(* Two polyatomic-neutral segment types, as sort() leaves them. *)
Definition neutral_pair (sigma0 sigma1 : Q) (hb0 hb1 : Z) : segmentTypeCollection :=
  {| SegmentTypeAreasRowTemplate := [0%Q];
     lowerBoundIndexForGroup := [0; 0; 0; 0; 0; 0; 0];
     upperBoundIndexForGroup := [0; 2; 0; 0; 0; 0; 0];
     numberOfSegmentsForGroup := [0; 2; 0; 0; 0; 0; 0];
     SegmentTypeAreas := [[1%Q]; [1%Q]];
     SegmentTypeGroup := [1; 1];
     SegmentTypeSigma := [sigma0; sigma1];
     SegmentTypeSigmaCorr := [(-0.015)%Q; 0.018%Q];
     SegmentTypeHBtype := [hb0; hb1];
     SegmentTypeAtomicNumber := [1; 8] |}.

(* A donor-class segment at sigma = -0.02 and an acceptor-class one at 0.02. *)
Definition donor_acceptor_segments : segmentTypeCollection :=
  neutral_pair (-0.02) 0.02 1 2.

(* The same two segment types with the classes exchanged. *)
Definition swapped_class_segments : segmentTypeCollection :=
  neutral_pair (-0.02) 0.02 2 1.

Definition sample_parameters (misfit reference statistics : Z) (sigmaHB : Q)
  : parameters :=
  {| sw_misfit := misfit;
     sw_useSegmentReferenceStateForInteractionMatrix := reference;
     sw_calculateContactStatisticsAndAdditionalProperties := statistics;
     numberOfPartialInteractionMatrices := 1;
     Aeff := 6.25;
     alpha := 1;
     CHB := 2;
     CHBT := 1.5;
     SigmaHB := sigmaHB;
     fCorr := 2.4 |}.

Definition zero_matrix (n : Z) : Matrix :=
  {| rows := n; cols := n; coeff := fun _ _ => 0%Q |}.

(* diagonal 2, 4, ...; 10 elsewhere *)
Definition sample_partial (n : Z) : Matrix :=
  {| rows := n; cols := n;
     coeff := fun r c => if r =? c then inject_Z (2 * (r + 1)) else 10%Q |}.

(* Pair (c, r), c < r < n, is visited before the shift loops reach (i, j). *)
Definition shifted (n i j c r : Z) : Prop :=
  0 <= c /\ c < r < n /\ (c < i \/ (c = i /\ r < j)).

(* B is the matrix when the shift loops, started on A, reach (i, j). *)
Definition shift_reached (n : Z) (A : Matrix) (i j : Z) (B : Matrix) : Prop :=
  rows B = rows A /\ cols B = cols A /\
  (forall c r, shifted n i j c r ->
     coeff B r c = (coeff A r c - 0.5 * (coeff A c c + coeff A r r))%Q) /\
  (forall c r, ~ shifted n i j c r -> coeff B r c = coeff A r c).

(* B is A after the two passes of the reference-state renormalisation over
   n segments. *)
Definition renormalised (n : Z) (A B : Matrix) : Prop :=
  rows B = rows A /\ cols B = cols A /\
  (forall i j, 0 <= i < j -> j < n ->
     coeff B j i = (coeff A j i - 0.5 * (coeff A i i + coeff A j j))%Q) /\
  (forall i, 0 <= i < n -> coeff B i i = 0%Q).

(* Entries of the done vector still false: the iterations the cycle loop
   has left. *)
Fixpoint count_false (d : list bool) : nat :=
  match d with
  | [] => O
  | b :: d' => (if b then O else 1%nat) + count_false d'
  end.

(* p holds each index below n once: it is a permutation of 0 .. n-1. *)
Definition is_permutation (n : Z) (p : list Z) : Prop :=
  vsize p = n /\
  (forall k x, vget p k = Some x -> 0 <= x < n) /\
  (forall k1 k2 x, vget p k1 = Some x -> vget p k2 = Some x -> k1 = k2).

(* vec' is vec gathered through p: vec'[k] = vec[p[k]]. *)
Definition gathered {T} (p : list Z) (vec vec' : list T) : Prop :=
  vsize vec' = vsize vec /\
  forall k x, vget p k = Some x -> vget vec' k = vget vec x.

(* The state of apply_vector_permutation_in_place between two iterations of
   the outer loop, at index i: every index below i is done, a done position
   k holds vec[p[k]], any other position holds what it held at the call,
   and the done positions are whole cycles of p. *)
Definition settled {T} (n : Z) (p : list Z) (vec : list T) (i : Z)
    (st : list T * list bool) : Prop :=
  vsize st.1 = n /\ vsize st.2 = n /\
  (forall k, 0 <= k < i -> vget st.2 k = Some true) /\
  (forall k x, vget st.2 k = Some true -> vget p k = Some x ->
     vget st.1 k = vget vec x) /\
  (forall k, vget st.2 k = Some false -> vget st.1 k = vget vec k) /\
  (forall k x, vget p k = Some x -> vget st.2 k = vget st.2 x).

(* The state at the test of the while loop for the cycle of i, d0 being the
   done vector when the cycle was entered: the element that was at i sits
   at prev_j, every other done position k holds vec[p[k]] and has p[k] done,
   and a done position other than i has its predecessor done. *)
Definition on_cycle {T} (n : Z) (p : list Z) (vec : list T) (i : Z)
    (d0 : list bool) (v : list T) (d : list bool) (prev j : Z) : Prop :=
  vsize v = n /\ vsize d = n /\
  vget p prev = Some j /\
  vget d i = Some true /\ vget d prev = Some true /\
  vget v prev = vget vec i /\
  (forall k x, k <> prev -> vget d k = Some true -> vget p k = Some x ->
     vget v k = vget vec x /\ vget d x = Some true) /\
  (forall k, vget d k = Some false -> vget v k = vget vec k) /\
  (forall k x, vget p k = Some x -> vget d x = Some true ->
     x = i \/ (vget d k = Some true /\ k <> prev)) /\
  (forall k, vget d0 k = Some true -> vget d k = Some true).

(** ** The comparator on indices inside the vectors *)

(* X[i] where i is inside X *)
Definition read {A} (d : A) (X : list A) (i : Z) : A := default d (vget X i).

(* One line [if (key(i) != key(j)) return key(i) < key(j);] followed by
   [rest]. *)
Definition tier (eqb ltb rest : Z -> Z -> bool) (i j : Z) : bool :=
  if negb (eqb i j) then ltb i j else rest i j.

Definition eqZ (X : list Z) (i j : Z) : bool := read 0 X i =? read 0 X j.
Definition ltZ (X : list Z) (i j : Z) : bool := read 0 X i <? read 0 X j.
Definition eqQ (X : list Q) (i j : Z) : bool := Qeq_bool (read 0%Q X i) (read 0%Q X j).
Definition ltQ (X : list Q) (i j : Z) : bool := Qltb (read 0%Q X i) (read 0%Q X j).

(* The lines of the lambda after the monoatomic-ion test, ending in [last]. *)
Definition common_tiers (c : segmentTypeCollection) (last : Z -> Z -> bool)
  : Z -> Z -> bool :=
  tier (eqQ (SegmentTypeSigma c)) (ltQ (SegmentTypeSigma c))
 (tier (eqQ (SegmentTypeSigmaCorr c)) (ltQ (SegmentTypeSigmaCorr c))
 (tier (eqZ (SegmentTypeHBtype c)) (ltZ (SegmentTypeHBtype c))
 (tier (eqZ (SegmentTypeAtomicNumber c)) (ltZ (SegmentTypeAtomicNumber c))
       last))).

Definition monoatomic_ion (c : segmentTypeCollection) (i : Z) : bool :=
  (read 0 (SegmentTypeGroup c) i =? 3) || (read 0 (SegmentTypeGroup c) i =? 5).

(* The lambda with its last line [return i < j;] replaced by [last]. *)
Definition keys_less (c : segmentTypeCollection) (last : Z -> Z -> bool)
  : Z -> Z -> bool :=
  tier (eqZ (SegmentTypeGroup c)) (ltZ (SegmentTypeGroup c))
    (fun i j =>
       if monoatomic_ion c i
       then tier (eqZ (SegmentTypeAtomicNumber c)) (ltZ (SegmentTypeAtomicNumber c))
              (common_tiers c last) i j
       else common_tiers c last i j).

(* The lambda, for indices inside the five vectors. *)
Definition lessb (c : segmentTypeCollection) : Z -> Z -> bool :=
  keys_less c Z.ltb.

(* Segment types i and j agree on every key the lambda compares. *)
Definition same_keys (c : segmentTypeCollection) (i j : Z) : Prop :=
  eqZ (SegmentTypeGroup c) i j = true /\
  eqQ (SegmentTypeSigma c) i j = true /\
  eqQ (SegmentTypeSigmaCorr c) i j = true /\
  eqZ (SegmentTypeHBtype c) i j = true /\
  eqZ (SegmentTypeAtomicNumber c) i j = true.

(* A comparator that is a strict total order. *)
Record strict_order (r : Z -> Z -> bool) : Prop := mkStrictOrder {
  so_irrefl : forall i, r i i = false;
  so_total : forall i j, i <> j -> r i j = negb (r j i);
  so_trans : forall i j k, r i j = true -> r j k = true -> r i k = true
}.

(* A key with its equality and its order. *)
Record tier_key (eqb ltb : Z -> Z -> bool) : Prop := mkTierKey {
  tk_refl : forall i, eqb i i = true;
  tk_sym : forall i j, eqb i j = eqb j i;
  tk_trans : forall i j k, eqb i j = true -> eqb j k = true -> eqb i k = true;
  tk_total : forall i j, eqb i j = false -> ltb i j = negb (ltb j i);
  tk_lt_trans : forall i j k, ltb i j = true -> ltb j k = true -> ltb i k = true;
  tk_lt_irrefl : forall i j, ltb i j = true -> eqb i j = false;
  tk_lt_l : forall i j k, eqb i j = true -> ltb i k = ltb j k;
  tk_lt_r : forall i j k, eqb j k = true -> ltb i j = ltb i k
}.

(* c1 is c with every per-segment-type vector gathered through p; the row
   template and the three bound arrays are those of c. *)
Record permuted (p : list Z) (c c1 : segmentTypeCollection) : Prop := mkPermuted {
  permuted_group : gathered p (SegmentTypeGroup c) (SegmentTypeGroup c1);
  permuted_sigma : gathered p (SegmentTypeSigma c) (SegmentTypeSigma c1);
  permuted_sigmaCorr : gathered p (SegmentTypeSigmaCorr c) (SegmentTypeSigmaCorr c1);
  permuted_HBtype : gathered p (SegmentTypeHBtype c) (SegmentTypeHBtype c1);
  permuted_atomicNumber :
    gathered p (SegmentTypeAtomicNumber c) (SegmentTypeAtomicNumber c1);
  permuted_areas : gathered p (SegmentTypeAreas c) (SegmentTypeAreas c1);
  permuted_template :
    SegmentTypeAreasRowTemplate c1 = SegmentTypeAreasRowTemplate c;
  permuted_lower : lowerBoundIndexForGroup c1 = lowerBoundIndexForGroup c;
  permuted_upper : upperBoundIndexForGroup c1 = upperBoundIndexForGroup c;
  permuted_count : numberOfSegmentsForGroup c1 = numberOfSegmentsForGroup c
}.

(* What sort() needs of the collection to stay in bounds: parallel vectors,
   bound arrays of 7 entries, every group value in [0, 6]. *)
Record sortable (c : segmentTypeCollection) : Prop := mkSortable {
  sortable_parallel : parallel c;
  sortable_groups : forall g, g ∈ SegmentTypeGroup c -> 0 <= g <= 6;
  sortable_lower : vsize (lowerBoundIndexForGroup c) = 7;
  sortable_upper : vsize (upperBoundIndexForGroup c) = 7;
  sortable_count : vsize (numberOfSegmentsForGroup c) = 7
}.

(* The state of the group-transition scan before iteration i, started from
   the bound arrays lo0 and up0: temporaryindex is the group of the previous
   segment type, and only entries of groups that occur have been written. *)
Definition scanning (group lo0 up0 : list Z) (i : Z) (st : scan_state) : Prop :=
  vsize (scan_lower st) = 7 /\ vsize (scan_upper st) = 7 /\
  (if decide (i = 0) then temporaryindex st = -1
   else vget group (i - 1) = Some (temporaryindex st)) /\
  (forall g, g ∉ group ->
     vget (scan_lower st) g = vget lo0 g /\ vget (scan_upper st) g = vget up0 g).

(* An entry of the arrays X and Y, reached from X0 and Y0 by the same
   writes, is either equal in both or untouched in both. *)
Definition same_writes (X0 Y0 X Y : list Z) : Prop :=
  vsize X = vsize Y /\
  forall g, vget X g = vget Y g \/ (vget X g = vget X0 g /\ vget Y g = vget Y0 g).

(* Two scans of one group vector, started from different bound arrays. *)
Definition scans_related (lo_a up_a lo_b up_b : list Z) (sa sb : scan_state)
  : Prop :=
  temporaryindex sa = temporaryindex sb /\
  same_writes lo_a lo_b (scan_lower sa) (scan_lower sb) /\
  same_writes up_a up_b (scan_upper sa) (scan_upper sb).

(* The count array while the loop over the 7 groups is at i. *)
Definition counting (lo up cnt : list Z) (i : Z) (cur : list Z) : Prop :=
  vsize cur = vsize cnt /\
  (forall k, 0 <= k < i ->
     exists u l, vget up k = Some u /\ vget lo k = Some l /\
                 vget cur k = Some (Z.max (u - l) 0)) /\
  (forall k, ~ (0 <= k < i) -> vget cur k = vget cnt k).

(* add on a collection that accepts it (used to build sample collections) *)
Definition add_to (c : segmentTypeCollection) (ind_molecule group : Z)
    (Sigma SigmaCorr : Q) (HBtype atomicNumber : Z) (Area : Q)
  : segmentTypeCollection :=
  state_of (add ind_molecule group Sigma SigmaCorr HBtype atomicNumber Area c).

(* One monoatomic-neutral and one water segment type; no polyatomic-neutral
   one. *)
Definition two_group_collection : segmentTypeCollection :=
  add_to (add_to (segmentTypeCollection_n 1) 0 2 0.011 0.012 2 8 3.5)
         0 0 (-0.004) (-0.003) 0 18 1.25.

(* Three polyatomic-neutral segment types, the first and the third with the
   same keys (such a pair cannot come out of add, which merges it). *)
Definition repeated_key_collection : segmentTypeCollection :=
  {| SegmentTypeAreasRowTemplate := [0%Q];
     lowerBoundIndexForGroup := replicate 7 0;
     upperBoundIndexForGroup := replicate 7 0;
     numberOfSegmentsForGroup := replicate 7 0;
     SegmentTypeAreas := [[1%Q]; [2%Q]; [3%Q]];
     SegmentTypeGroup := [1; 1; 1];
     SegmentTypeSigma := [0.01%Q; (-0.01)%Q; 0.01%Q];
     SegmentTypeSigmaCorr := [0%Q; 0%Q; 0%Q];
     SegmentTypeHBtype := [0; 0; 0];
     SegmentTypeAtomicNumber := [6; 6; 6] |}.

(** ** Further observations on the interaction matrix *)

(* B has the dimensions of A and differs from A inside the cells W only. *)
Definition changed_within (W : Z -> Z -> Prop) (A B : Matrix) : Prop :=
  rows B = rows A /\ cols B = cols A /\
  forall r c, ~ W r c -> coeff B r c = coeff A r c.

(* The cells the reference-state renormalisation of n segments may write. *)
Definition lower_triangle (n : Z) (r c : Z) : Prop := 0 <= c <= r /\ r < n.

(* The cells calculateInteractionMatrix may write in A_int. *)
Definition writable (segments : segmentTypeCollection) (param : parameters)
    (r c : Z) : Prop :=
  in_block segments c r \/
  (sw_useSegmentReferenceStateForInteractionMatrix param = 1 /\
   lower_triangle (size segments) r c).

(* The vector ps' of partial matrices has the length of ps, its entries
   outside [0, m) are those of ps and each entry differs from that of ps
   inside the cells W only. *)
Definition partials_changed_within (W : Z -> Z -> Prop) (m : Z)
    (ps ps' : list Matrix) : Prop :=
  vsize ps' = vsize ps /\
  (forall h, ~ (0 <= h < m) -> vget ps' h = vget ps h) /\
  (forall h P P', vget ps h = Some P -> vget ps' h = Some P' ->
     changed_within W P P').

(* What a caller has to provide for calculateInteractionMatrix to keep every
   index inside its container: a collection with parallel vectors whose
   neutral block lies inside it, an A_int of at least numberOfSegments rows
   and columns and, where the partial matrices are renormalised, at least
   numberOfPartialInteractionMatrices of them, each of that size. *)
Record call_in_bounds (segments : segmentTypeCollection) (param : parameters)
    (A : Matrix) (ps : list Matrix) : Prop := mkCallInBounds {
  cib_parallel : parallel segments;
  cib_block : exists lower upper,
    vget (lowerBoundIndexForGroup segments) 0 = Some lower /\
    UpperBoundIndexForNeutralComponents segments = Some upper /\
    0 <= lower /\ upper <= size segments;
  cib_rows : size segments <= rows A;
  cib_cols : size segments <= cols A;
  cib_partials :
    sw_useSegmentReferenceStateForInteractionMatrix param = 1 ->
    0 < sw_calculateContactStatisticsAndAdditionalProperties param ->
    numberOfPartialInteractionMatrices param <= vsize ps /\
    forall h P, 0 <= h < numberOfPartialInteractionMatrices param ->
      vget ps h = Some P ->
      size segments <= rows P /\ size segments <= cols P
}.

(* What the hydrogen-bond code adds to val. *)
Definition hb_amount (out : hb_outcome) : Q :=
  match out with
  | HBAdd amount => amount
  | _ => 0%Q
  end.

(* Segment type a comes before segment type b by the key lines of the
   comparator: group first, atomic number next for the monoatomic ions
   (groups 3 and 5), then sigma, sigmaCorr, hbType and atomic number. *)
Definition key_ordered (c : segmentTypeCollection) (a b : Z) : Prop :=
  let g := read 0 (SegmentTypeGroup c) in
  let an := read 0 (SegmentTypeAtomicNumber c) in
  let s := read 0%Q (SegmentTypeSigma c) in
  let sc := read 0%Q (SegmentTypeSigmaCorr c) in
  let hb := read 0 (SegmentTypeHBtype c) in
  g a <= g b /\
  (g a = g b ->
   (monoatomic_ion c a = true -> an a <= an b) /\
   ((monoatomic_ion c a = true -> an a = an b) ->
    (s a <= s b)%Q /\
    ((s a == s b)%Q ->
     (sc a <= sc b)%Q /\
     ((sc a == sc b)%Q ->
      hb a <= hb b /\ (hb a = hb b -> an a <= an b))))).

Definition nondecreasing (X : list Z) : Prop :=
  forall a b xa xb, a < b -> vget X a = Some xa -> vget X b = Some xb -> xa <= xb.

(* Group g is found at the positions l .. u-1 of the group vector and
   nowhere else. *)
Definition occupies (group : list Z) (g l u : Z) : Prop :=
  0 <= l < u /\ u <= vsize group /\
  forall k, vget group k = Some g <-> l <= k < u.

(* The state of the group-transition scan over a nondecreasing group vector,
   before iteration i: a group left behind has its final bounds, the group
   of the previous segment type has its lower bound. *)
Definition scan_exact (group : list Z) (i : Z) (st : scan_state) : Prop :=
  (forall g, g <> temporaryindex st ->
     (exists k, k < i /\ vget group k = Some g) ->
     exists l u,
       vget (scan_lower st) g = Some l /\ vget (scan_upper st) g = Some u /\
       0 <= l < u /\ u <= i /\
       forall k, k < i -> (vget group k = Some g <-> l <= k < u)) /\
  (0 < i ->
     exists l,
       vget (scan_lower st) (temporaryindex st) = Some l /\ 0 <= l < i /\
       forall k, k < i -> (vget group k = Some (temporaryindex st) <-> l <= k)).

(** ** types.hpp: clear, and sequences of add calls *)

(* clear(): the six per-segment-type vectors are emptied; the row template
   and the three bound arrays are not touched. *)
Definition clear (c : segmentTypeCollection) : segmentTypeCollection :=
  with_vectors [] [] [] [] [] [] c.

(* The arguments of one call of add. *)
Record add_call : Type := mkAddCall {
  call_molecule : Z;
  call_group : Z;
  call_Sigma : Q;
  call_SigmaCorr : Q;
  call_HBtype : Z;
  call_atomicNumber : Z;
  call_Area : Q
}.

(* The calls made one after the other, as a caller filling the collection
   makes them. *)
Fixpoint add_all (calls : list add_call) (c : segmentTypeCollection)
  : result segmentTypeCollection :=
  match calls with
  | [] => Ok c
  | x :: rest =>
      match add (call_molecule x) (call_group x) (call_Sigma x) (call_SigmaCorr x)
                (call_HBtype x) (call_atomicNumber x) (call_Area x) c with
      | Ok c' => add_all rest c'
      | Halt f c' => Halt f c'
      end
  end.

(* The areas stored for molecule m in the segment types i, i+1, ...,
   i+count-1. *)
Fixpoint area_from (c : segmentTypeCollection) (m : Z) (count : nat) (i : Z) : Q :=
  match count with
  | O => 0%Q
  | S k => (stored_area c i m + area_from c m k (i + 1))%Q
  end.

(* The total area stored for molecule m. *)
Definition molecule_area (c : segmentTypeCollection) (m : Z) : Q :=
  area_from c m (Z.to_nat (size c)) 0.

(* The total area the calls pass for molecule m. *)
Fixpoint area_given (calls : list add_call) (m : Z) : Q :=
  match calls with
  | [] => 0%Q
  | x :: rest =>
      ((if call_molecule x =? m then call_Area x else 0) + area_given rest m)%Q
  end.

(** ** types.hpp: calculation *)

(* The members of [struct calculation] that addOrFindTauIndexForConditions
   and addOrFindArrayIndexForConcentration read and write. *)
Record calculation : Type := mkCalculation {
  concentrations : list (list Q);
  temperatures : list Q;
  TauConcentrationIndices : list (list Z);
  TauTemperatures : list Q
}.

(* int index = -1; for (int i = 0; i < n; i++) if (test(i)) { index = i; break; }
   [None] when a test reads outside a vector. *)
Fixpoint search_loop (test : Z -> option bool) (count : nat) (i : Z) : option Z :=
  match count with
  | O => Some (-1)
  | S k =>
      match test i with
      | None => None
      | Some true => Some i
      | Some false => search_loop test k (i + 1)
      end
  end.

(* TauTemperatures[i] == temperature *)
Definition tau_match (calc : calculation) (temperature : Q) (i : Z) : option bool :=
  t ← vget (TauTemperatures calc) i; Some (Qeq_bool t temperature).

(* The function returns the index; the pair is (index, object). *)
Definition addOrFindTauIndexForConditions (temperature : Q) (calc : calculation)
  : result (Z * calculation) :=
  match search_loop (tau_match calc temperature)
          (Z.to_nat (vsize (TauTemperatures calc))) 0 with
  | None => Halt OutOfBounds (-1, calc)
  | Some index =>
      if index =? -1 then
        let calc' :=
          {| concentrations := concentrations calc;
             temperatures := temperatures calc;
             TauConcentrationIndices := push_back (TauConcentrationIndices calc) [];
             TauTemperatures := push_back (TauTemperatures calc) temperature |} in
        Ok (vsize (TauTemperatures calc') - 1, calc')
      else Ok (index, calc)
  end.

(* if (concentrations[i][j] == concentration[j]) { nEqual++; } *)
Definition count_equal_step (row concentration : list Q) (j : Z) (nEqual : Z)
  : result Z :=
  match vget row j, vget concentration j with
  | Some a, Some b => Ok (if Qeq_bool a b then nEqual + 1 else nEqual)
  | _, _ => Halt OutOfBounds nEqual
  end.

(* The body of the loop over i, up to the test
   [nEqual == concentration.size() + nConditions]. *)
Definition concentration_match (calc : calculation) (concentration : list Q)
    (temperature : Q) (i : Z) : option bool :=
  let nConditions := 1 in
  match vget (concentrations calc) i with
  | None => None
  | Some row =>
      match for_range 0 (vsize concentration)
              (count_equal_step row concentration) 0 with
      | Halt _ _ => None
      | Ok nEqual =>
          match vget (temperatures calc) i with
          | None => None
          | Some t =>
              let nEqual := if Qeq_bool t temperature then nEqual + 1 else nEqual in
              Some (nEqual =? vsize concentration + nConditions)
          end
      end
  end.

Definition addOrFindArrayIndexForConcentration (concentration : list Q)
    (temperature : Q) (calc : calculation) : result (Z * calculation) :=
  match search_loop (concentration_match calc concentration temperature)
          (Z.to_nat (vsize (concentrations calc))) 0 with
  | None => Halt OutOfBounds (-1, calc)
  | Some index =>
      if index =? -1 then
        let calc' :=
          {| concentrations := push_back (concentrations calc) concentration;
             temperatures := push_back (temperatures calc) temperature;
             TauConcentrationIndices := TauConcentrationIndices calc;
             TauTemperatures := TauTemperatures calc |} in
        Ok (vsize (concentrations calc') - 1, calc')
      else Ok (index, calc)
  end.

(* No temperature is held twice, and the two Tau vectors have one entry per
   temperature. *)
Definition tau_distinct (calc : calculation) : Prop :=
  vsize (TauConcentrationIndices calc) = vsize (TauTemperatures calc) /\
  forall i j a b, vget (TauTemperatures calc) i = Some a ->
    vget (TauTemperatures calc) j = Some b -> (a == b)%Q -> i = j.

(* The stored row and temperature agree with the query on the entries the
   query has. *)
Definition same_conditions (row : list Q) (t : Q) (concentration : list Q)
    (temperature : Q) : Prop :=
  (forall j b, vget concentration j = Some b ->
     exists a, vget row j = Some a /\ (a == b)%Q) /\
  (t == temperature)%Q.

(* Every stored row has an entry for each entry of a query of length n, and
   a temperature. *)
Definition rows_cover (n : Z) (calc : calculation) : Prop :=
  vsize (temperatures calc) = vsize (concentrations calc) /\
  Forall (fun row => n <= vsize row) (concentrations calc).

Definition sample_calculation : calculation :=
  {| concentrations := [[0.25%Q; 0.75%Q]; [0.5%Q; 0.5%Q]];
     temperatures := [298.15%Q; 298.15%Q];
     TauConcentrationIndices := [[0]; [1]];
     TauTemperatures := [298.15%Q; 310%Q] |}.

(** ** types.hpp: threadException, called from one thread *)

(* Ptr holds the captured exception, if any; the mutex has no effect on
   calls made one after the other. *)
Record threadException : Type := mkThreadException {
  Ptr : option fault
}.

(* threadException() : Ptr(nullptr) *)
Definition threadException_new : threadException := {| Ptr := None |}.

(* capture_exception(), in the handler of exception e:
   Ptr = std::current_exception() *)
Definition capture_exception (e : fault) (te : threadException) : threadException :=
  {| Ptr := Some e |}.

(* run(f, params...): f runs on the state s of the program when no exception
   is held; what it throws is captured, what it did to s stays. *)
Definition run {S} (f : S -> result S) (st : threadException * S)
  : threadException * S :=
  let '(te, s) := st in
  match Ptr te with
  | Some _ => (te, s)
  | None =>
      match f s with
      | Ok s' => (te, s')
      | Halt e s' => (capture_exception e te, s')
      end
  end.

(* rethrow() *)
Definition rethrow {S} (st : threadException * S) : result S :=
  let '(te, s) := st in
  match Ptr te with
  | Some e => Halt e s
  | None => Ok s
  end.

(* f1(); f2(); ... without the class: the first exception ends the run. *)
Fixpoint in_sequence {S} (fs : list (S -> result S)) (s : S) : result S :=
  match fs with
  | [] => Ok s
  | f :: rest =>
      match f s with
      | Ok s' => in_sequence rest s'
      | Halt e s' => Halt e s'
      end
  end.

(* One polyatomic-neutral segment type and one of a monoatomic cation,
   sorted. *)
Definition neutral_and_ion_collection : segmentTypeCollection :=
  state_of (sort (add_to (add_to (segmentTypeCollection_n 1) 0 3 0.015 0.014 0 11 4)
                         0 1 (-0.006) (-0.005) 0 6 2.5)).
(** ** Facts about checked vectors *)

Section vectors.
Context {A : Type}.
Implicit Types (v : list A) (i : Z) (x : A).

Lemma vsize_nonneg v : 0 <= vsize v.
Proof. unfold vsize. lia. Qed.

Lemma vget_Some v i x : vget v i = Some x <-> 0 <= i /\ v !! Z.to_nat i = Some x.
Proof.
  unfold vget. destruct (decide (0 <= i)) as [Hi|Hi]; split.
  - intros H. by split.
  - by intros [_ H].
  - discriminate.
  - by intros [? _].
Qed.

Lemma vget_range v i x : vget v i = Some x -> 0 <= i < vsize v.
Proof.
  intros [? H]%vget_Some. apply lookup_lt_Some in H. unfold vsize. lia.
Qed.

Lemma vget_is_Some v i : 0 <= i < vsize v <-> is_Some (vget v i).
Proof.
  unfold vsize. split.
  - intros [? ?]. unfold vget. destruct (decide (0 <= i)); [|lia].
    apply lookup_lt_is_Some. lia.
  - intros [x Hx]. apply vget_range in Hx. exact Hx.
Qed.

Lemma vget_None v i : vget v i = None <-> ~ (0 <= i < vsize v).
Proof.
  rewrite vget_is_Some, <- eq_None_not_Some. reflexivity.
Qed.

Lemma vset_Some v i x v' :
  vset v i x = Some v' <-> 0 <= i < vsize v /\ v' = <[Z.to_nat i := x]> v.
Proof.
  unfold vset. destruct (decide (0 <= i < vsize v)) as [Hi|Hi]; split.
  - intros [= <-]. by split.
  - by intros [_ ->].
  - discriminate.
  - by intros [? _].
Qed.

Lemma vset_None v i x : vset v i x = None <-> ~ (0 <= i < vsize v).
Proof.
  unfold vset. destruct (decide (0 <= i < vsize v)) as [Hi|Hi]; split;
    try done.
Qed.

Lemma vsize_insert v (k : nat) x : vsize (<[k := x]> v) = vsize v.
Proof. unfold vsize. rewrite length_insert. reflexivity. Qed.

Lemma vget_insert_eq v i x : 0 <= i < vsize v -> vget (<[Z.to_nat i := x]> v) i = Some x.
Proof.
  intros H. apply vget_Some. split; [lia|].
  apply list_lookup_insert_eq. unfold vsize in H. lia.
Qed.

Lemma vget_insert_ne v i j x :
  0 <= i -> i <> j -> vget (<[Z.to_nat i := x]> v) j = vget v j.
Proof.
  intros Hi Hne. unfold vget. destruct (decide (0 <= j)); [|done].
  apply list_lookup_insert_ne. lia.
Qed.

Lemma vsize_push_back v x : vsize (push_back v x) = vsize v + 1.
Proof. unfold vsize, push_back. rewrite length_app. simpl. lia. Qed.

Lemma vget_push_back_old v x i : i < vsize v -> vget (push_back v x) i = vget v i.
Proof.
  intros H. unfold vget, push_back. destruct (decide (0 <= i)); [|done].
  apply lookup_app_l. unfold vsize in H. lia.
Qed.

Lemma vget_push_back_new v x : vget (push_back v x) (vsize v) = Some x.
Proof.
  apply vget_Some. split; [apply vsize_nonneg|].
  unfold push_back, vsize. rewrite Nat2Z.id.
  rewrite lookup_app_r by lia. by rewrite Nat.sub_diag.
Qed.

Lemma vget_push_back_at v x i : i = vsize v -> vget (push_back v x) i = Some x.
Proof. intros ->. apply vget_push_back_new. Qed.
End vectors.

(** ** Facts about counted loops *)

Section loops.
Context {S : Type}.
Implicit Types (body : Z -> S -> result S) (s : S).

Lemma for_range_empty lo hi body s : hi <= lo -> for_range lo hi body s = Ok s.
Proof.
  intros H. unfold for_range. replace (Z.to_nat (hi - lo)) with O by lia.
  reflexivity.
Qed.

(* An invariant kept by every iteration that returns holds at the exit, and
   a halted loop halted in an iteration started from the invariant. *)
Lemma for_range_inv (P : Z -> S -> Prop) lo hi body s :
  lo <= hi -> P lo s ->
  (forall i s0 s1, lo <= i < hi -> P i s0 -> body i s0 = Ok s1 -> P (i + 1) s1) ->
  match for_range lo hi body s with
  | Ok s' => P hi s'
  | Halt f s' => exists i s0, lo <= i < hi /\ P i s0 /\ body i s0 = Halt f s'
  end.
Proof.
  unfold for_range. intros Hle.
  remember (Z.to_nat (hi - lo)) as n eqn:Hn.
  revert lo s Hle Hn. induction n as [|n IH]; intros lo s Hle Hn H0 Hstep.
  - simpl. replace hi with lo by lia. exact H0.
  - simpl. destruct (body lo s) as [s1|f s1] eqn:Hb.
    + assert (Hlt : lo < hi) by lia.
      specialize (IH (lo + 1) s1 ltac:(lia) ltac:(lia)
                    (Hstep lo s s1 ltac:(lia) H0 Hb)).
      lapply IH.
      * destruct (for_loop n (lo + 1) body s1) as [s2|f s2]; [done|].
        intros (i & s0 & Hi & HP & Hbi). exists i, s0. split; [lia|done].
      * intros i s0 s2 Hi. apply Hstep. lia.
    + exists lo, s. split; [lia|done].
Qed.

(* A loop whose iterations all return from the invariant returns. *)
Lemma for_range_total (P : Z -> S -> Prop) lo hi body s :
  lo <= hi -> P lo s ->
  (forall i s0, lo <= i < hi -> P i s0 ->
     exists s1, body i s0 = Ok s1 /\ P (i + 1) s1) ->
  exists s', for_range lo hi body s = Ok s' /\ P hi s'.
Proof.
  intros Hle H0 Hstep.
  pose proof (for_range_inv P lo hi body s Hle H0) as Hinv.
  lapply Hinv.
  - destruct (for_range lo hi body s) as [s'|f s'].
    + intros HP. by exists s'.
    + intros (i & s0 & Hi & HP & Hb).
      destruct (Hstep i s0 Hi HP) as (s1 & Hb' & _). congruence.
  - intros i s0 s1 Hi HP Hb.
    destruct (Hstep i s0 Hi HP) as (s2 & Hb' & HP'). congruence.
Qed.
End loops.
(** ** The registry: add *)

Lemma and_then_true a b : and_then a b = Some true <-> a = Some true /\ b = Some true.
Proof. destruct a as [[|]|]; simpl; split; try done; by intros [? ?]. Qed.

Lemma bind_Some_true {A} (o : option A) (f : A -> bool) :
  (x ← o; Some (f x)) = Some true <-> exists x, o = Some x /\ f x = true.
Proof.
  destruct o as [x|]; simpl; split.
  - intros [= H]. by exists x.
  - intros (y & [= <-] & H). by rewrite H.
  - discriminate.
  - by intros (y & ? & _).
Qed.

Lemma has_key_iff c i g s sc h an :
  has_key c i g s sc h an <->
  exists gi hi si sci ani,
    vget (SegmentTypeGroup c) i = Some gi /\
    vget (SegmentTypeHBtype c) i = Some hi /\
    vget (SegmentTypeSigma c) i = Some si /\
    vget (SegmentTypeSigmaCorr c) i = Some sci /\
    vget (SegmentTypeAtomicNumber c) i = Some ani /\
    gi = g /\ hi = h /\ (si == s)%Q /\ (sci == sc)%Q /\ ani = an.
Proof.
  unfold has_key, add_match.
  rewrite !and_then_true, !bind_Some_true.
  split.
  - intros ((gi & Hg & Eg) & (hi & Hh & Eh) & (si & Hs & Es) & (sci & Hsc & Esc)
            & (ani & Han & Ean)).
    exists gi, hi, si, sci, ani.
    apply Z.eqb_eq in Eg, Eh, Ean. apply Qeq_bool_iff in Es, Esc. done.
  - intros (gi & hi & si & sci & ani & Hg & Hh & Hs & Hsc & Han & Eg & Eh & Es & Esc & Ean).
    repeat split; eexists; (split; [eassumption|]);
      first [by apply Z.eqb_eq | by apply Qeq_bool_iff].
Qed.

Lemma has_key_range c i g s sc h an : has_key c i g s sc h an -> 0 <= i < size c.
Proof.
  intros (gi & hi & _ & _ & _ & _ & Hh & _)%has_key_iff.
  apply vget_range in Hh. exact Hh.
Qed.

Lemma add_match_defined c i g s sc h an :
  parallel c -> 0 <= i < size c ->
  exists b, add_match c i g s sc h an = Some b.
Proof.
  intros [Pg Ps Psc Pan Pa] Hi. unfold add_match.
  destruct (proj1 (vget_is_Some (SegmentTypeGroup c) i) ltac:(lia)) as [gi ->].
  destruct (proj1 (vget_is_Some (SegmentTypeHBtype c) i) ltac:(unfold size in Hi; lia)) as [hi ->].
  destruct (proj1 (vget_is_Some (SegmentTypeSigma c) i) ltac:(lia)) as [si ->].
  destruct (proj1 (vget_is_Some (SegmentTypeSigmaCorr c) i) ltac:(lia)) as [sci ->].
  destruct (proj1 (vget_is_Some (SegmentTypeAtomicNumber c) i) ltac:(lia)) as [ani ->].
  simpl.
  destruct (gi =? g); simpl; [|by eexists].
  destruct (hi =? h); simpl; [|by eexists].
  destruct (Qeq_bool si s); simpl; [|by eexists].
  destruct (Qeq_bool sci sc); simpl; by eexists.
Qed.

(* The search loop returns the first index that carries the key, or -1. *)
Lemma add_search_spec c g s sc h an count i :
  parallel c -> 0 <= i -> i + Z.of_nat count = size c ->
  exists r, add_search c g s sc h an count i = Some r /\
    ((r = -1 /\ forall j, i <= j -> ~ has_key c j g s sc h an) \/
     (i <= r < size c /\ has_key c r g s sc h an /\
      forall j, i <= j < r -> ~ has_key c j g s sc h an)).
Proof.
  intros Hpar. revert i. induction count as [|k IH]; intros i Hi Hsum.
  - exists (-1). split; [done|]. left. split; [done|].
    intros j Hj Hk%has_key_range. lia.
  - simpl.
    destruct (add_match_defined c i g s sc h an Hpar ltac:(lia)) as [b Hb].
    rewrite Hb. destruct b.
    + exists i. split; [done|]. right. split; [lia|]. split; [exact Hb|]. lia.
    + destruct (IH (i + 1) ltac:(lia) ltac:(lia)) as (r & Hr & Hspec).
      exists r. split; [done|].
      assert (Hni : ~ has_key c i g s sc h an) by (unfold has_key; congruence).
      destruct Hspec as [[-> Hno]|(Hrange & Hkey & Hno)].
      * left. split; [done|]. intros j Hj.
        destruct (decide (j = i)) as [->|]; [done|]. apply Hno. lia.
      * right. split; [lia|]. split; [done|]. intros j Hj.
        destruct (decide (j = i)) as [->|]; [done|]. apply Hno. lia.
Qed.

(* The area update, where it is in bounds. *)
Lemma add_area_Ok n c index m a :
  well_formed n c -> 0 <= index < size c -> 0 <= m < n ->
  exists c', add_area index m a c = Ok c' /\
    well_formed n c' /\ size c' = size c /\
    (forall i g s sc h an, has_key c' i g s sc h an <-> has_key c i g s sc h an) /\
    stored_area c' index m = (stored_area c index m + a)%Q /\
    (forall i k, (i, k) <> (index, m) -> stored_area c' i k = stored_area c i k).
Proof.
  intros [Hpar Htpl Hrows Huniq] Hidx Hm.
  pose proof Hpar as [Pg Ps Psc Pan Pa].
  unfold add_area.
  destruct (proj1 (vget_is_Some (SegmentTypeAreas c) index) ltac:(lia)) as [row Hrow].
  rewrite Hrow.
  assert (Hw : vsize row = Z.max 0 n).
  { apply vget_Some in Hrow as [_ Hrow].
    rewrite Forall_lookup in Hrows. exact (Hrows _ _ Hrow). }
  destruct (proj1 (vget_is_Some row m) ltac:(lia)) as [x Hx]. rewrite Hx.
  destruct (vset row m (x + a)%Q) as [row'|] eqn:Hset;
    [|apply vset_None in Hset; lia].
  apply vset_Some in Hset as [_ ->].
  destruct (vset (SegmentTypeAreas c) index _) as [areas'|] eqn:Hset;
    [|apply vset_None in Hset; lia].
  apply vset_Some in Hset as [_ ->].
  eexists. split; [reflexivity|].
  split; [|split; [reflexivity|split; [reflexivity|split]]].
  - split; simpl; try done.
    + split; simpl; try done. by rewrite vsize_insert.
    + apply Forall_insert; [exact Hrows|]. by rewrite vsize_insert.
  - unfold stored_area. simpl. rewrite Hrow. simpl. rewrite Hx. simpl.
    rewrite vget_insert_eq by lia. simpl.
    rewrite vget_insert_eq by lia. reflexivity.
  - intros i k Hne. unfold stored_area. simpl.
    destruct (decide (i = index)) as [->|Hi].
    + rewrite vget_insert_eq by lia. rewrite Hrow. simpl.
      rewrite vget_insert_ne; [done|lia|congruence].
    + rewrite vget_insert_ne; [done|lia|congruence].
Qed.

(* The area update is in bounds only inside the row. *)
Lemma add_area_is_Ok c index m a :
  is_Ok (add_area index m a c) = true <->
  exists row, vget (SegmentTypeAreas c) index = Some row /\ 0 <= m < vsize row.
Proof.
  unfold add_area. split.
  - destruct (vget (SegmentTypeAreas c) index) as [row|]; [|done].
    destruct (vget row m) as [x|] eqn:Hx; [|done].
    intros _. exists row. split; [done|]. by apply vget_range in Hx.
  - intros (row & Hrow & Hm). rewrite Hrow.
    destruct (proj1 (vget_is_Some row m) Hm) as [x ->].
    destruct (vset row m (x + a)%Q) as [row'|] eqn:Hset;
      [|apply vset_None in Hset; lia].
    destruct (vset (SegmentTypeAreas c) index row') as [areas'|] eqn:Hset';
      [done|].
    apply vset_None in Hset'. apply vget_range in Hrow. lia.
Qed.

Lemma has_key_append_old c g s sc h an i g' s' sc' h' an' :
  parallel c -> i < size c ->
  has_key (add_append c g s sc h an) i g' s' sc' h' an' <->
  has_key c i g' s' sc' h' an'.
Proof.
  intros [Pg Ps Psc Pan Pa] Hi. rewrite !has_key_iff. simpl.
  rewrite !vget_push_back_old by (unfold size in *; lia). reflexivity.
Qed.

Lemma has_key_append_new c g s sc h an g' s' sc' h' an' :
  parallel c ->
  has_key (add_append c g s sc h an) (size c) g' s' sc' h' an' <->
  g = g' /\ h = h' /\ (s == s')%Q /\ (sc == sc')%Q /\ an = an'.
Proof.
  intros [Pg Ps Psc Pan Pa]. rewrite has_key_iff. simpl.
  rewrite !vget_push_back_at by (unfold size in *; lia). split.
  - intros (gi & hi & si & sci & ani & [= <-] & [= <-] & [= <-] & [= <-] & [= <-] & H).
    exact H.
  - intros H. by exists g, h, s, sc, an.
Qed.

Lemma has_key_equiv c i g s sc h an g' s' sc' h' an' :
  g = g' -> h = h' -> (s == s')%Q -> (sc == sc')%Q -> an = an' ->
  has_key c i g' s' sc' h' an' -> has_key c i g s sc h an.
Proof.
  intros -> -> Es Esc ->. rewrite !has_key_iff.
  intros (gi & hi & si & sci & ani & Hg & Hh & Hs & Hsc & Han & Eg & Eh & Es' & Esc' & Ean).
  exists gi, hi, si, sci, ani. repeat split; try done.
  - by rewrite Es.
  - by rewrite Esc.
Qed.

Lemma stored_area_outside c i k :
  parallel c -> ~ (0 <= i < size c) -> stored_area c i k = 0%Q.
Proof.
  intros [_ _ _ _ Pa] Hi. unfold stored_area.
  rewrite (proj2 (vget_None (SegmentTypeAreas c) i)) by lia. reflexivity.
Qed.

Lemma vget_replicate {A} (n : nat) (x : A) i :
  0 <= i < Z.of_nat n -> vget (replicate n x) i = Some x.
Proof.
  intros Hi. apply vget_Some. split; [lia|].
  apply lookup_replicate. split; [done|lia].
Qed.

Lemma vsize_replicate {A} (n : nat) (x : A) : vsize (replicate n x) = Z.of_nat n.
Proof. unfold vsize. by rewrite length_replicate. Qed.

(* Appending a segment type whose key is not yet present. *)
Lemma add_append_wf n c g s sc h an :
  well_formed n c ->
  (forall j, ~ has_key c j g s sc h an) ->
  well_formed n (add_append c g s sc h an) /\
  size (add_append c g s sc h an) = size c + 1 /\
  (forall i k, stored_area (add_append c g s sc h an) i k = stored_area c i k).
Proof.
  intros [Hpar Htpl Hrows Huniq] Hfresh.
  pose proof Hpar as [Pg Ps Psc Pan Pa].
  assert (Hsize : size (add_append c g s sc h an) = size c + 1).
  { unfold size. simpl. apply vsize_push_back. }
  split; [|split; [exact Hsize|]].
  - split; simpl; try done.
    + split; rewrite Hsize; simpl; rewrite vsize_push_back; lia.
    + apply Forall_app. split; [exact Hrows|].
      apply Forall_singleton. rewrite Htpl, vsize_replicate. lia.
    + intros g' s' sc' h' an' i j Hi Hj.
      pose proof (has_key_range _ _ _ _ _ _ _ Hi) as Ri.
      pose proof (has_key_range _ _ _ _ _ _ _ Hj) as Rj.
      rewrite Hsize in Ri, Rj.
      destruct (decide (i = size c)) as [->|Ni], (decide (j = size c)) as [->|Nj];
        [done| | |].
      * exfalso. apply has_key_append_new in Hi as (? & ? & ? & ? & ?); [|done].
        apply has_key_append_old in Hj; [|done|lia].
        apply (Hfresh j). by eapply has_key_equiv.
      * exfalso. apply has_key_append_new in Hj as (? & ? & ? & ? & ?); [|done].
        apply has_key_append_old in Hi; [|done|lia].
        apply (Hfresh i). by eapply has_key_equiv.
      * apply has_key_append_old in Hi; [|done|lia].
        apply has_key_append_old in Hj; [|done|lia].
        by eapply Huniq.
  - intros i k. unfold stored_area at 1. simpl.
    destruct (decide (i < size c)) as [Hlt|Hge].
    + rewrite vget_push_back_old by lia. reflexivity.
    + rewrite stored_area_outside by (done || lia).
      destruct (decide (i = size c)) as [->|Hne].
      * rewrite vget_push_back_at by lia. simpl. rewrite Htpl.
        destruct (vget (replicate (Z.to_nat n) 0%Q) k) as [x|] eqn:Hk; [|done].
        simpl. apply vget_Some in Hk as [_ Hk].
        by apply lookup_replicate in Hk as [-> _].
      * rewrite (proj2 (vget_None _ i)); [done|].
        rewrite vsize_push_back. lia.
Qed.

(* What a call of add with a nonzero area does: it finds or appends the one
   segment type with the key and adds the area in its row. *)
Lemma add_spec n c m g s sc h an a :
  well_formed n c -> Qeq_bool a 0 = false -> 0 <= m < n ->
  exists c' idx,
    add m g s sc h an a c = Ok c' /\ well_formed n c' /\
    has_key c' idx g s sc h an /\
    ((has_key c idx g s sc h an /\ size c' = size c) \/
     ((forall j, ~ has_key c j g s sc h an) /\ idx = size c /\ size c' = size c + 1)) /\
    stored_area c' idx m = (stored_area c idx m + a)%Q /\
    (forall i k, (i, k) <> (idx, m) -> stored_area c' i k = stored_area c i k).
Proof.
  intros Hwf Ha Hm. unfold add. rewrite Ha.
  destruct (add_search_spec c g s sc h an (Z.to_nat (size c)) 0 (wf_parallel _ _ Hwf)
              ltac:(lia) ltac:(unfold size, vsize; lia)) as (r & -> & Hr).
  destruct Hr as [[-> Hno]|(Hrange & Hkey & _)].
  - change (-1 =? -1) with true. cbv iota zeta.
    assert (Hfresh : forall j, ~ has_key c j g s sc h an).
    { intros j Hj. pose proof (has_key_range _ _ _ _ _ _ _ Hj). apply (Hno j); [lia|done]. }
    destruct (add_append_wf n c g s sc h an Hwf Hfresh) as (Hwf1 & Hsize1 & Harea1).
    set (c1 := add_append c g s sc h an) in *.
    change (vsize (SegmentTypeHBtype c1)) with (size c1). rewrite Hsize1.
    replace (size c + 1 - 1) with (size c) by lia.
    destruct (add_area_Ok n c1 (size c) m a Hwf1 ltac:(pose proof (vsize_nonneg (SegmentTypeHBtype c)); unfold size in *; lia) Hm)
      as (c' & -> & Hwf' & Hsize' & Hkeys & Hat & Hother).
    exists c', (size c). split; [done|]. split; [done|].
    split; [|split; [|split]].
    + apply Hkeys. apply has_key_append_new; [apply Hwf|]. done.
    + right. split; [done|]. split; [done|]. lia.
    + rewrite Hat. by rewrite Harea1.
    + intros i k Hne. rewrite Hother by done. apply Harea1.
  - replace (r =? -1) with false by lia.
    destruct (add_area_Ok n c r m a Hwf Hrange Hm)
      as (c' & -> & Hwf' & Hsize' & Hkeys & Hat & Hother).
    exists c', r. split; [done|]. split; [done|].
    split; [by apply Hkeys|]. split; [by left|]. done.
Qed.

(* A call of add that returns stayed inside the row. *)
Lemma add_Ok_range n c m g s sc h an a :
  well_formed n c -> Qeq_bool a 0 = false ->
  is_Ok (add m g s sc h an a c) = true -> 0 <= m < n.
Proof.
  intros Hwf Ha. unfold add. rewrite Ha.
  destruct (add_search_spec c g s sc h an (Z.to_nat (size c)) 0 (wf_parallel _ _ Hwf)
              ltac:(lia) ltac:(unfold size, vsize; lia)) as (r & -> & Hr).
  assert (Hrow : forall c1 idx, well_formed n c1 ->
            is_Ok (add_area idx m a c1) = true -> 0 <= m < n).
  { intros c1 idx Hwf1 (row & Hrow & Hin)%add_area_is_Ok.
    apply vget_Some in Hrow as [_ Hrow].
    pose proof (wf_rows _ _ Hwf1) as Hrows. rewrite Forall_lookup in Hrows.
    specialize (Hrows _ _ Hrow). simpl in Hrows. lia. }
  destruct Hr as [[-> Hno]|(Hrange & Hkey & _)].
  - change (-1 =? -1) with true. cbv iota zeta. apply Hrow.
    apply add_append_wf; [done|].
    intros j Hj. pose proof (has_key_range _ _ _ _ _ _ _ Hj). apply (Hno j); [lia|done].
  - replace (r =? -1) with false by lia. by apply Hrow.
Qed.

Lemma segmentTypeCollection_n_eq n :
  segmentTypeCollection_n n =
  with_template (replicate (Z.to_nat n) 0%Q) member_init.
Proof.
  unfold segmentTypeCollection_n.
  destruct (Z.le_gt_cases n 0) as [Hn|Hn].
  - rewrite for_range_empty by lia. by replace (Z.to_nat n) with O by lia.
  - pose proof (for_range_inv
      (fun i c => c = with_template (replicate (Z.to_nat i) 0%Q) member_init)
      0 n (fun _ c => Ok (with_template
                            (push_back (SegmentTypeAreasRowTemplate c) 0%Q) c))
      member_init ltac:(lia) eq_refl) as Hinv.
    lapply Hinv.
    + destruct (for_range _ _ _ _) as [c|f c]; [done|].
      intros (i & s0 & _ & _ & [=]).
    + intros i s0 s1 Hi -> [= <-]. simpl. unfold with_template, push_back. simpl.
      f_equal. replace (Z.to_nat (i + 1)) with (S (Z.to_nat i)) by lia.
      by rewrite replicate_S_end.
Qed.

Lemma segmentTypeCollection_n_wf n : well_formed n (segmentTypeCollection_n n).
Proof.
  rewrite segmentTypeCollection_n_eq. split; simpl; try done.
  intros g s sc h an i j Hi. apply has_key_range in Hi. unfold size in Hi.
  simpl in Hi. unfold vsize in Hi. simpl in Hi. lia.
Qed.

Lemma built_well_formed n c : built n c -> well_formed n c.
Proof.
  induction 1 as [|c c' m g s sc h an a Hb IH Hadd].
  - apply segmentTypeCollection_n_wf.
  - destruct (Qeq_bool a 0) eqn:Ha.
    + unfold add in Hadd. rewrite Ha in Hadd. by injection Hadd as <-.
    + assert (Hm : 0 <= m < n).
      { eapply add_Ok_range; [done|done|]. by rewrite Hadd. }
      destruct (add_spec n c m g s sc h an a IH Ha Hm) as (c'' & idx & E & Hwf & _).
      rewrite Hadd in E. by injection E as <-.
Qed.

Lemma Qeq_bool_false (a b : Q) : ~ (a == b)%Q -> Qeq_bool a b = false.
Proof.
  intros H. destruct (Qeq_bool a b) eqn:E; [|done].
  by apply Qeq_bool_iff in E.
Qed.

Lemma add_zero_area m g s sc h an a c :
  Qeq_bool a 0 = true -> add m g s sc h an a c = Ok c.
Proof. intros Ha. unfold add. by rewrite Ha. Qed.

(* A call of add does not change the key of a segment type that was there. *)
Lemma add_old_keys n c m g s sc h an a c' :
  well_formed n c -> 0 <= m < n -> add m g s sc h an a c = Ok c' ->
  forall i g' s' sc' h' an', i < size c ->
    has_key c' i g' s' sc' h' an' <-> has_key c i g' s' sc' h' an'.
Proof.
  intros Hwf Hm. unfold add.
  destruct (Qeq_bool a 0); [by intros [= <-]|].
  destruct (add_search_spec c g s sc h an (Z.to_nat (size c)) 0 (wf_parallel _ _ Hwf)
              ltac:(lia) ltac:(unfold size, vsize; lia)) as (r & -> & Hr).
  destruct Hr as [[-> Hno]|(Hrange & Hkey & _)].
  - change (-1 =? -1) with true. cbv iota zeta.
    assert (Hfresh : forall j, ~ has_key c j g s sc h an).
    { intros j Hj. pose proof (has_key_range _ _ _ _ _ _ _ Hj). apply (Hno j); [lia|done]. }
    destruct (add_append_wf n c g s sc h an Hwf Hfresh) as (Hwf1 & Hsize1 & _).
    set (c1 := add_append c g s sc h an) in *.
    change (vsize (SegmentTypeHBtype c1)) with (size c1). rewrite Hsize1.
    replace (size c + 1 - 1) with (size c) by lia.
    destruct (add_area_Ok n c1 (size c) m a Hwf1
                ltac:(pose proof (vsize_nonneg (SegmentTypeHBtype c));
                      unfold size in *; lia) Hm)
      as (c'' & -> & _ & _ & Hkeys & _).
    intros [= <-] i g' s' sc' h' an' Hi. rewrite Hkeys.
    apply has_key_append_old; [apply Hwf|done].
  - replace (r =? -1) with false by lia.
    destruct (add_area_Ok n c r m a Hwf Hrange Hm) as (c'' & -> & _ & _ & Hkeys & _).
    intros [= <-] i g' s' sc' h' an' Hi. apply Hkeys.
Qed.

(* The search loop of add compares the five attributes. *)
Lemma has_key_key_at c i g s sc h an :
  has_key c i g s sc h an <-> key_at c i g s sc h an.
Proof. apply has_key_iff. Qed.

Lemma registry_well_formed n c : registry n c <-> well_formed n c.
Proof.
  split.
  - intros [Hpar Htpl Hrows Hd]. split; try done.
    intros g s sc h an i j Hi%has_key_key_at Hj%has_key_key_at. by eapply Hd.
  - intros [Hpar Htpl Hrows Hu]. split; try done.
    intros g s sc h an i j Hi%has_key_key_at Hj%has_key_key_at. by eapply Hu.
Qed.

(* Every collection made by segmentTypeCollection(n) and add is a registry
   of n molecules. *)
Lemma built_registry n c : built n c -> registry n c.
Proof. intros Hb. by apply registry_well_formed, built_well_formed. Qed.

(** C8, for a registry of n molecules and molecule indices below n: two
    calls of add with the same key and nonzero areas return and leave a
    registry with exactly one segment type that has the attributes of the
    key; the first call grows the collection by one exactly when no segment
    type had them, the second call does not grow it; the segment types that
    were there keep their attributes and every other row keeps its areas;
    and the row of the key holds, per molecule index, what it held before
    plus the areas contributed at that index: a1 + a2 more at index m when
    m1 = m2 = m, which is a1 + a2 when the key is new. *)
Theorem add_same_key_twice n c m1 m2 g s sc h an a1 a2 :
  registry n c ->
  ~ (a1 == 0)%Q -> ~ (a2 == 0)%Q ->
  0 <= m1 < n -> 0 <= m2 < n ->
  exists c1 c2 idx,
    add m1 g s sc h an a1 c = Ok c1 /\
    add m2 g s sc h an a2 c1 = Ok c2 /\
    registry n c2 /\
    size c2 = size c1 /\
    ((exists j, key_at c j g s sc h an) -> size c1 = size c) /\
    ((forall j, ~ key_at c j g s sc h an) -> size c1 = size c + 1) /\
    key_at c2 idx g s sc h an /\
    (forall j, key_at c2 j g s sc h an -> j = idx) /\
    (forall i g' s' sc' h' an', i < size c ->
       key_at c2 i g' s' sc' h' an' <-> key_at c i g' s' sc' h' an') /\
    (forall m,
       (stored_area c2 idx m ==
        stored_area c idx m + (if m =? m1 then a1 else 0)
                            + (if m =? m2 then a2 else 0))%Q) /\
    (forall i k, i <> idx -> stored_area c2 i k = stored_area c i k) /\
    ((forall j, ~ key_at c j g s sc h an) -> m1 = m2 ->
     (stored_area c2 idx m1 == a1 + a2)%Q).
Proof.
  intros Hwf%registry_well_formed Ha1%Qeq_bool_false Ha2%Qeq_bool_false Hm1 Hm2.
  destruct (add_spec n c m1 g s sc h an a1 Hwf Ha1 Hm1)
    as (c1 & idx & Hadd1 & Hwf1 & Hkey1 & Hcase1 & Hat1 & Hother1).
  destruct (add_spec n c1 m2 g s sc h an a2 Hwf1 Ha2 Hm2)
    as (c2 & idx2 & Hadd2 & Hwf2 & Hkey2 & Hcase & Hat2 & Hother2).
  assert (Hidx : idx2 = idx /\ size c2 = size c1).
  { destruct Hcase as [[Hk Hs]|[Hno _]].
    - split; [|done]. by eapply (wf_unique _ _ Hwf1).
    - by destruct (Hno idx). }
  destruct Hidx as [-> Hsize].
  assert (Hgrow : size c <= size c1)
    by (destruct Hcase1 as [[_ ->]|(_ & _ & ->)]; lia).
  exists c1, c2, idx. split; [done|]. split; [done|].
  split; [by apply registry_well_formed|]. split; [done|].
  split; [|split; [|split; [|split; [|split; [|split; [|split]]]]]].
  - intros [j Hj%has_key_key_at].
    destruct Hcase1 as [[_ E]|(Hno & _)]; [done|]. by destruct (Hno j).
  - intros Hnew. destruct Hcase1 as [[Hk _]|(_ & _ & E)]; [|done].
    apply has_key_key_at in Hk. by destruct (Hnew idx).
  - by apply has_key_key_at.
  - intros j Hj%has_key_key_at. by eapply (wf_unique _ _ Hwf2).
  - intros i g' s' sc' h' an' Hi. rewrite <- !has_key_key_at.
    rewrite (add_old_keys n c1 m2 g s sc h an a2 c2 Hwf1 Hm2 Hadd2) by lia.
    by apply (add_old_keys n c m1 g s sc h an a1 c1 Hwf Hm1 Hadd1).
  - intros m.
    destruct (Z.eqb_spec m m2) as [->|N2].
    + rewrite Hat2. destruct (Z.eqb_spec m2 m1) as [->|N1].
      * rewrite Hat1. reflexivity.
      * rewrite Hother1 by congruence. lra.
    + rewrite Hother2 by congruence. destruct (Z.eqb_spec m m1) as [->|N1].
      * rewrite Hat1. lra.
      * rewrite Hother1 by congruence. lra.
  - intros i k Hne. rewrite Hother2 by congruence. apply Hother1. congruence.
  - intros Hnew <-. rewrite Hat2, Hat1.
    destruct Hcase1 as [[Hk _]|(_ & -> & _)];
      [apply has_key_key_at in Hk; by destruct (Hnew idx)|].
    rewrite stored_area_outside by (apply Hwf || lia). lra.
Qed.

Lemma add_same_key_twice_witness :
  exists c1 c2 idx,
    add 0 1 0.01 0.02 2 6 1 (segmentTypeCollection_n 1) = Ok c1 /\
    add 0 1 0.01 0.02 2 6 2 c1 = Ok c2 /\
    registry 1 c2 /\
    size c2 = size c1 /\
    ((exists j, key_at (segmentTypeCollection_n 1) j 1 0.01 0.02 2 6) ->
     size c1 = size (segmentTypeCollection_n 1)) /\
    ((forall j, ~ key_at (segmentTypeCollection_n 1) j 1 0.01 0.02 2 6) ->
     size c1 = size (segmentTypeCollection_n 1) + 1) /\
    key_at c2 idx 1 0.01 0.02 2 6 /\
    (forall j, key_at c2 j 1 0.01 0.02 2 6 -> j = idx) /\
    (forall i g' s' sc' h' an', i < size (segmentTypeCollection_n 1) ->
       key_at c2 i g' s' sc' h' an' <->
       key_at (segmentTypeCollection_n 1) i g' s' sc' h' an') /\
    (forall m,
       (stored_area c2 idx m ==
        stored_area (segmentTypeCollection_n 1) idx m
          + (if m =? 0 then 1 else 0) + (if m =? 0 then 2 else 0))%Q) /\
    (forall i k, i <> idx ->
       stored_area c2 i k = stored_area (segmentTypeCollection_n 1) i k) /\
    ((forall j, ~ key_at (segmentTypeCollection_n 1) j 1 0.01 0.02 2 6) -> 0 = 0 ->
     (stored_area c2 idx 0 == 1 + 2)%Q).
Proof.
  apply (add_same_key_twice 1 (segmentTypeCollection_n 1) 0 0 1 0.01 0.02 2 6 1 2).
  - apply built_registry, built_new.
  - discriminate.
  - discriminate.
  - lia.
  - lia.
Defined.

(* C8 for every collection: segmentTypeCollection(1) has area rows of one
   entry; two calls of add with the same key and ind_molecule = 1 write
   SegmentTypeAreas[0][1], outside the row.  The first call appends the
   segment type and halts at the write, the second finds it and halts at
   the same write; the row holds 0, not a1 + a2 = 4. *)
Lemma add_same_key_twice_out_of_range :
  exists c1 c2,
    add 1 1 0.01 0.02 2 6 1.5 (segmentTypeCollection_n 1) = Halt OutOfBounds c1 /\
    add 1 1 0.01 0.02 2 6 2.5 c1 = Halt OutOfBounds c2 /\
    key_at c2 0 1 0.01 0.02 2 6 /\
    SegmentTypeAreas c2 = [[0%Q]].
Proof.
  eexists _, _. split; [vm_compute; reflexivity|].
  split; [vm_compute; reflexivity|]. split; [|reflexivity].
  exists 1, 2, 0.01%Q, 0.02%Q, 6. by repeat split.
Qed.

(** C10: a default-constructed collection has an empty area row template,
    so its first add with a nonzero area appends an empty row and the area
    write is out of bounds for every molecule index; for a collection made by
    segmentTypeCollection(n) and add calls, the area write of add is in
    bounds exactly when ind_molecule < n. *)
Theorem add_area_write_in_bounds :
  SegmentTypeAreasRowTemplate segmentTypeCollection_default = [] /\
  (forall m g s sc h an a,
     ~ (a == 0)%Q ->
     exists c', add m g s sc h an a segmentTypeCollection_default
                = Halt OutOfBounds c' /\
                SegmentTypeAreas c' = [[]]) /\
  (forall n c m g s sc h an a,
     built n c -> ~ (a == 0)%Q -> 0 <= m ->
     (is_Ok (add m g s sc h an a c) = true <-> m < n)).
Proof.
  split; [reflexivity|]. split.
  - intros m g s sc h an a Ha%Qeq_bool_false.
    unfold add. rewrite Ha. simpl. unfold add_area. simpl.
    replace (vget [] m) with (@None Q).
    + eexists. split; reflexivity.
    + unfold vget. by destruct (decide (0 <= m)).
  - intros n c m g s sc h an a Hb%built_well_formed Ha%Qeq_bool_false Hm. split.
    + intros H. eapply add_Ok_range in H; [|done|done]. lia.
    + intros Hlt.
      destruct (add_spec n c m g s sc h an a Hb Ha ltac:(lia)) as (c' & _ & -> & _).
      reflexivity.
Qed.

Lemma add_area_write_in_bounds_witness :
  is_Ok (add 1 2 0.01 0.02 0 8 1.5 (segmentTypeCollection_n 2)) = true <-> 1 < 2.
Proof.
  apply (proj2 (proj2 add_area_write_in_bounds) 2 (segmentTypeCollection_n 2)).
  - apply built_new.
  - discriminate.
  - lia.
Defined.
(** ** The interaction matrix: one pair *)

Lemma Qltb_lt (x y : Q) : Qltb x y = true <-> (x < y)%Q.
Proof.
  unfold Qltb. rewrite negb_true_iff. split.
  - intros H. apply Qnot_le_lt. intros Hle. apply Qle_bool_iff in Hle. congruence.
  - intros H. destruct (Qle_bool y x) eqn:E; [|done].
    apply Qle_bool_iff in E. lra.
Qed.

Lemma Qltb_ge (x y : Q) : Qltb x y = false <-> (y <= x)%Q.
Proof.
  unfold Qltb. rewrite negb_false_iff. apply Qle_bool_iff.
Qed.

Lemma Qgtb_gt (x y : Q) : Qgtb x y = true <-> (y < x)%Q.
Proof. apply Qltb_lt. Qed.

(* CHB_T is CHB * 3.67e7 * max(0, 1 - CHBT + CHBT * 298.15 / T). *)
Lemma CHB_T_closed_form param T :
  (CHB_T param T ==
   CHB param * 36700000 * Qmax 0 (1 - CHBT param + CHBT param * 298.15 / T))%Q.
Proof.
  unfold CHB_T. cbv zeta.
  set (b := (1 - CHBT param + CHBT param * (298.15 / T))%Q).
  assert (Eb : (1 - CHBT param + CHBT param * 298.15 / T == b)%Q).
  { unfold b, Qdiv. ring. }
  rewrite Eb.
  destruct (Qgtb b 0) eqn:E.
  - apply Qgtb_gt in E. rewrite Q.max_r by lra. reflexivity.
  - apply Qltb_ge in E. rewrite Q.max_l by lra. ring.
Qed.

Lemma hb_classes_types segments i j hi hj a b :
  hb_types segments i j hi hj ->
  hb_classes segments i j a b = Some ((hi =? a) && (hj =? b)).
Proof.
  intros [Hi Hj]. unfold hb_classes. rewrite Hi, Hj. simpl.
  by destruct (hi =? a).
Qed.

(* The test of the first [if]: sigmai < -SigmaHB && sigmaj > SigmaHB. *)
Lemma hb_test param si sj :
  Qltb si (-1 * SigmaHB param) && Qgtb sj (SigmaHB param) = true <->
  (si < - SigmaHB param)%Q /\ (SigmaHB param < sj)%Q.
Proof.
  rewrite andb_true_iff, Qltb_lt, Qgtb_gt.
  assert (E : (-1 * SigmaHB param == - SigmaHB param)%Q) by ring.
  rewrite E. reflexivity.
Qed.

(** ** The interaction matrix: the term-evaluation loops *)

Lemma mset_Some A r c x A' :
  mset A r c x = Some A' <->
  in_matrix A r c /\
  A' = {| rows := rows A; cols := cols A;
          coeff := fun r' c' => if (r' =? r) && (c' =? c) then x else coeff A r' c' |}.
Proof.
  unfold mset. destruct (decide (in_matrix A r c)) as [H|H]; split.
  - intros [= <-]. by split.
  - by intros [_ ->].
  - discriminate.
  - by intros [? _].
Qed.

Lemma mset_None A r c x : mset A r c x = None <-> ~ in_matrix A r c.
Proof. unfold mset. by destruct (decide (in_matrix A r c)). Qed.

Lemma mget_Some A r c x : mget A r c = Some x <-> in_matrix A r c /\ x = coeff A r c.
Proof.
  unfold mget. destruct (decide (in_matrix A r c)) as [H|H]; split.
  - intros [= <-]. by split.
  - by intros [_ ->].
  - discriminate.
  - by intros [? _].
Qed.

Lemma coeff_mset_eq A r c x A' : mset A r c x = Some A' -> coeff A' r c = x.
Proof. intros [_ ->]%mset_Some. simpl. by rewrite !Z.eqb_refl. Qed.

Lemma coeff_mset_ne A r c x A' r' c' :
  mset A r c x = Some A' -> (r', c') <> (r, c) -> coeff A' r' c' = coeff A r' c'.
Proof.
  intros [_ ->]%mset_Some Hne. simpl.
  destruct (Z.eqb_spec r' r) as [->|]; [|done].
  destruct (Z.eqb_spec c' c) as [->|]; [|done]. done.
Qed.

Lemma dims_mset A r c x A' :
  mset A r c x = Some A' -> rows A' = rows A /\ cols A' = cols A.
Proof. by intros [_ ->]%mset_Some. Qed.

Section neutral_loops.
Variables (segments : segmentTypeCollection) (param : parameters) (T : Q).
Variables (A : Matrix) (lower upper : Z).

Let at_pair := reached segments param T A lower upper.

(* One iteration of the inner loop. *)
Lemma neutral_inner_step i si sti j B :
  outer_locals segments param i = Some (si, sti) ->
  lower <= i <= j -> j < upper -> at_pair i j B ->
  match neutral_inner segments param T i si sti j B with
  | Ok B' => at_pair i (j + 1) B'
  | Halt f B' =>
      B' = B /\
      (entry_value segments param T i j = inl f \/
       (f = OutOfBounds /\ ~ in_matrix A j i))
  end.
Proof.
  intros Hloc Hi Hj (Hr & Hc & Hvis & Hrest).
  assert (Hev : entry_value segments param T i j
                = pair_value segments param T si sti i j).
  { unfold entry_value. by rewrite Hloc. }
  unfold neutral_inner. rewrite <- Hev.
  destruct (entry_value segments param T i j) as [f|v] eqn:Hv.
  - split; [done|]. by left.
  - destruct (mset B j i v) as [B'|] eqn:Hset.
    + destruct (dims_mset _ _ _ _ _ Hset) as [Hr' Hc'].
      split; [congruence|]. split; [congruence|]. split.
      * intros c r Hcr. destruct (decide ((r, c) = (j, i))) as [[= -> ->]|Hne].
        -- rewrite (coeff_mset_eq _ _ _ _ _ Hset). done.
        -- rewrite (coeff_mset_ne _ _ _ _ _ _ _ Hset Hne). apply Hvis.
           unfold visited in *. destruct Hcr as (? & ? & [?|[-> ?]]).
           ++ repeat split; try lia.
           ++ assert (r <> j) by congruence. repeat split; try lia.
      * intros c r Hcr. destruct (decide ((r, c) = (j, i))) as [[= -> ->]|Hne].
        -- exfalso. apply Hcr. unfold visited. lia.
        -- rewrite (coeff_mset_ne _ _ _ _ _ _ _ Hset Hne). apply Hrest.
           unfold visited in *. lia.
    + split; [done|]. right. split; [done|].
      apply mset_None in Hset. unfold in_matrix in *. by rewrite <- Hr, <- Hc.
Qed.

(* One iteration of the outer loop. *)
Lemma neutral_outer_step i B :
  lower <= i < upper -> at_pair i i B ->
  match neutral_outer segments param T upper i B with
  | Ok B' => at_pair (i + 1) (i + 1) B'
  | Halt f B' =>
      exists j, i <= j < upper /\ at_pair i j B' /\
        (entry_value segments param T i j = inl f \/
         (f = OutOfBounds /\ ~ in_matrix A j i))
  end.
Proof.
  intros Hi HB. unfold neutral_outer.
  destruct (outer_locals segments param i) as [[si sti]|] eqn:Hloc.
  - pose proof (for_range_inv (fun j B => at_pair i j B) i upper
      (neutral_inner segments param T i si sti) B ltac:(lia) HB) as Hinv.
    lapply Hinv.
    + destruct (for_range _ _ _ _) as [B'|f B'].
      * intros (Hr & Hc & Hvis & Hrest). repeat split; try done.
        -- intros c r Hcr. apply Hvis. unfold visited in *. lia.
        -- intros c r Hcr. apply Hrest. unfold visited in *. lia.
      * intros (j & B0 & Hj & HB0 & Hstep).
        pose proof (neutral_inner_step i si sti j B0 Hloc ltac:(lia) ltac:(lia) HB0) as H.
        rewrite Hstep in H. destruct H as [-> H]. by exists j.
    + intros j B0 B1 Hj HB0 Hstep.
      pose proof (neutral_inner_step i si sti j B0 Hloc ltac:(lia) ltac:(lia) HB0) as H.
      by rewrite Hstep in H.
  - exists i. split; [lia|]. split; [done|]. left.
    unfold entry_value. by rewrite Hloc.
Qed.

(* The whole pass: every pair of the block is assigned its value, or the
   pass halts at the first pair whose iteration faults. *)
Lemma neutral_pass_run :
  vget (lowerBoundIndexForGroup segments) 0 = Some lower ->
  UpperBoundIndexForNeutralComponents segments = Some upper ->
  match neutral_pass segments param T A with
  | Ok A' => at_pair upper upper A'
  | Halt f A' =>
      exists i j, lower <= i <= j /\ j < upper /\ at_pair i j A' /\
        (entry_value segments param T i j = inl f \/
         (f = OutOfBounds /\ ~ in_matrix A j i))
  end.
Proof.
  intros Hlo Hup. unfold neutral_pass. rewrite Hlo, Hup.
  destruct (Z.le_gt_cases lower upper) as [Hle|Hgt].
  - assert (H0 : at_pair lower lower A).
    { repeat split; try done. intros c r Hv. unfold visited in Hv. lia. }
    pose proof (for_range_inv (fun i B => at_pair i i B) lower upper
      (neutral_outer segments param T upper) A Hle H0) as Hinv.
    lapply Hinv.
    + destruct (for_range _ _ _ _) as [A'|f A']; [done|].
      intros (i & B0 & Hi & HB0 & Hstep).
      pose proof (neutral_outer_step i B0 Hi HB0) as H. rewrite Hstep in H.
      destruct H as (j & Hj & HA' & Hf). exists i, j.
      split; [lia|]. split; [lia|]. done.
    + intros i B0 B1 Hi HB0 Hstep.
      pose proof (neutral_outer_step i B0 Hi HB0) as H. by rewrite Hstep in H.
  - rewrite for_range_empty by lia.
    repeat split; try done. intros c r Hv. unfold visited in Hv. lia.
Qed.
End neutral_loops.

Lemma in_block_bounds segments i j lower upper :
  vget (lowerBoundIndexForGroup segments) 0 = Some lower ->
  UpperBoundIndexForNeutralComponents segments = Some upper ->
  in_block segments i j <-> lower <= i <= j /\ j < upper.
Proof.
  intros Hlo Hup. unfold in_block. split.
  - intros (lo & up & Hlo' & Hup' & H). rewrite Hlo in Hlo'. rewrite Hup in Hup'.
    injection Hlo' as <-. injection Hup' as <-. done.
  - intros H. by exists lower, upper.
Qed.

(* After a pass that returns, A_int(j, i) is the value of the pair (i, j). *)
Lemma neutral_pass_entry segments param T A A' i j :
  neutral_pass segments param T A = Ok A' -> in_block segments i j ->
  entry_value segments param T i j = inr (coeff A' j i).
Proof.
  intros Hrun (lower & upper & Hlo & Hup & Hi & Hj).
  pose proof (neutral_pass_run segments param T A lower upper Hlo Hup) as H.
  rewrite Hrun in H. destruct H as (_ & _ & Hvis & _).
  apply Hvis. unfold visited. lia.
Qed.

(* The pass writes inside the block only, whether it returns or halts. *)
Lemma neutral_pass_frame segments param T A r c :
  ~ in_block segments c r ->
  coeff (state_of (neutral_pass segments param T A)) r c = coeff A r c.
Proof.
  intros Hout.
  destruct (vget (lowerBoundIndexForGroup segments) 0) as [lower|] eqn:Hlo;
    [destruct (UpperBoundIndexForNeutralComponents segments) as [upper|] eqn:Hup|].
  - pose proof (neutral_pass_run segments param T A lower upper Hlo Hup) as H.
    rewrite (in_block_bounds _ _ _ _ _ Hlo Hup) in Hout.
    destruct (neutral_pass segments param T A) as [A'|f A']; simpl.
    + destruct H as (_ & _ & _ & Hrest). apply Hrest. unfold visited. lia.
    + destruct H as (i & j & _ & _ & (_ & _ & _ & Hrest) & _).
      apply Hrest. unfold visited. lia.
  - unfold neutral_pass. by rewrite Hlo, Hup.
  - unfold neutral_pass. rewrite Hlo. by destruct (UpperBoundIndexForNeutralComponents _).
Qed.

(* What a pair value is made of. *)
Lemma entry_value_inr segments param T i j v :
  entry_value segments param T i j = inr v ->
  exists si sti sj val out,
    outer_locals segments param i = Some (si, sti) /\
    vget (SegmentTypeSigma segments) i = Some si /\
    vget (SegmentTypeSigma segments) j = Some sj /\
    misfit_value segments param si sti sj j = Some val /\
    hydrogen_bond segments param T si sj i j = Some out /\
    match out with
    | HBAdd x => v = (val + x)%Q
    | HBNone => v = val
    | HBThrow _ => False
    end.
Proof.
  unfold entry_value.
  destruct (outer_locals segments param i) as [[si sti]|] eqn:Hloc; [|done].
  unfold pair_value.
  destruct (vget (SegmentTypeSigma segments) j) as [sj|] eqn:Hsj; [|done].
  destruct (misfit_value segments param si sti sj j) as [val|] eqn:Hval; [|done].
  destruct (hydrogen_bond segments param T si sj i j) as [out|] eqn:Hout; [|done].
  intros Hv. exists si, sti, sj, val, out.
  assert (Hsi : vget (SegmentTypeSigma segments) i = Some si).
  { unfold outer_locals in Hloc.
    destruct (vget (SegmentTypeSigma segments) i) as [si'|]; [|done]. simpl in Hloc.
    destruct (0 <? sw_misfit param).
    - destruct (vget (SegmentTypeSigmaCorr segments) i); [|done].
      simpl in Hloc. congruence.
    - congruence. }
  repeat (split; [done|]).
  destruct out; congruence.
Qed.



(** ** The interaction matrix: the hydrogen-bond branches *)

(* The branches of the hydrogen-bond code, once both classes are read. *)
Lemma hydrogen_bond_eq segments param T si sj i j hi hj :
  hb_types segments i j hi hj ->
  hydrogen_bond segments param T si sj i j =
  Some
    (if Qltb si (-1 * SigmaHB param) && Qgtb sj (SigmaHB param) then
       if (hi =? 1) && (hj =? 2) then
         HBAdd (hb_prefactor param T * (sj - SigmaHB param) * (si + SigmaHB param))
       else if (hi =? 2) && (hj =? 1) then HBThrow hb_message_1
       else HBNone
     else if Qltb sj (-1 * SigmaHB param) && Qgtb si (SigmaHB param) then
       if (hi =? 2) && (hj =? 1) then
         HBAdd (hb_prefactor param T * (si - SigmaHB param) * (sj + SigmaHB param))
       else if (hi =? 1) && (hj =? 2) then HBThrow hb_message_2
       else HBNone
     else HBNone).
Proof.
  intros Hty. unfold hydrogen_bond, hb_branch. cbv zeta.
  rewrite !(hb_classes_types _ _ _ _ _ _ _ Hty).
  destruct (Qltb si _ && Qgtb sj _).
  - by destruct ((hi =? 1) && (hj =? 2)), ((hi =? 2) && (hj =? 1)).
  - destruct (Qltb sj _ && Qgtb si _); [|done].
    by destruct ((hi =? 2) && (hj =? 1)), ((hi =? 1) && (hj =? 2)).
Qed.

(* A hydrogen-bond outcome other than HBNone read both classes. *)
Lemma hydrogen_bond_types segments param T si sj i j out :
  hydrogen_bond segments param T si sj i j = Some out -> out <> HBNone ->
  exists hi hj, hb_types segments i j hi hj.
Proof.
  unfold hydrogen_bond, hb_branch, hb_classes, hb_types. cbv zeta.
  destruct (vget (SegmentTypeHBtype segments) i) as [hi|],
           (vget (SegmentTypeHBtype segments) j) as [hj|]; simpl.
  - intros _ _. by exists hi, hj.
  - destruct (Qltb si _ && Qgtb sj _).
    + destruct (hi =? 1), (hi =? 2); simpl; congruence.
    + destruct (Qltb sj _ && Qgtb si _); [|congruence].
      destruct (hi =? 1), (hi =? 2); simpl; congruence.
  - destruct (Qltb si _ && Qgtb sj _); [congruence|].
    destruct (Qltb sj _ && Qgtb si _); congruence.
  - destruct (Qltb si _ && Qgtb sj _); [congruence|].
    destruct (Qltb sj _ && Qgtb si _); congruence.
Qed.

Lemma hb_signs_iff segments param a b sa sb :
  vget (SegmentTypeSigma segments) a = Some sa ->
  vget (SegmentTypeSigma segments) b = Some sb ->
  hb_signs segments param a b <->
  Qltb sa (-1 * SigmaHB param) && Qgtb sb (SigmaHB param) = true.
Proof.
  intros Ha Hb. rewrite hb_test. unfold hb_signs. split.
  - intros (sa' & sb' & Ha' & Hb' & H). congruence.
  - intros H. by exists sa, sb.
Qed.

Lemma hb_types_inj segments a b ta tb ta' tb' :
  hb_types segments a b ta tb -> hb_types segments a b ta' tb' ->
  ta = ta' /\ tb = tb'.
Proof. intros [? ?] [? ?]. split; congruence. Qed.

Lemma hb_types_sym segments a b ta tb :
  hb_types segments a b ta tb <-> hb_types segments b a tb ta.
Proof. unfold hb_types. tauto. Qed.

(* With a threshold that is not negative the two sign tests exclude each
   other. *)
Lemma hb_tests_exclusive param si sj :
  (0 <= SigmaHB param)%Q ->
  Qltb si (-1 * SigmaHB param) && Qgtb sj (SigmaHB param) = true ->
  Qltb sj (-1 * SigmaHB param) && Qgtb si (SigmaHB param) = false.
Proof.
  intros Hs [H1 H2]%hb_test.
  destruct (Qltb sj _ && Qgtb si _) eqn:E; [|done].
  apply hb_test in E as [H3 H4]. lra.
Qed.

(* The outcome of the hydrogen-bond code in terms of the pair. *)
Lemma hydrogen_bond_outcome segments param T si sj i j hi hj :
  (0 <= SigmaHB param)%Q ->
  vget (SegmentTypeSigma segments) i = Some si ->
  vget (SegmentTypeSigma segments) j = Some sj ->
  hb_types segments i j hi hj ->
  let out := hydrogen_bond segments param T si sj i j in
  (hb_signs segments param i j -> hi = 1 -> hj = 2 ->
   out = Some (HBAdd (hb_prefactor param T * (sj - SigmaHB param)
                      * (si + SigmaHB param)))) /\
  (hb_signs segments param j i -> hi = 2 -> hj = 1 ->
   out = Some (HBAdd (hb_prefactor param T * (si - SigmaHB param)
                      * (sj + SigmaHB param)))) /\
  (hb_wrong_orientation segments param i j ->
   exists msg, out = Some (HBThrow msg)) /\
  (~ hb_opposed segments param i j -> ~ hb_wrong_orientation segments param i j ->
   out = Some HBNone).
Proof.
  intros Hs Hsi Hsj Hty out. unfold out.
  rewrite (hydrogen_bond_eq _ _ _ _ _ _ _ _ _ Hty).
  pose proof (hb_signs_iff segments param i j si sj Hsi Hsj) as S1.
  pose proof (hb_signs_iff segments param j i sj si Hsj Hsi) as S2.
  pose proof (hb_tests_exclusive param si sj Hs) as X.
  unfold hb_opposed, hb_wrong_orientation.
  split; [|split; [|split]].
  - intros H1%S1 -> ->. by rewrite H1.
  - intros H2%S2 -> ->. rewrite H2.
    destruct (Qltb si _ && Qgtb sj _); [|done]. specialize (X eq_refl). congruence.
  - intros [[H1%S1 Hty']|[H2%S2 Hty'%hb_types_sym]];
      destruct (hb_types_inj _ _ _ _ _ _ _ Hty Hty') as [-> ->].
    + rewrite H1. by eexists.
    + rewrite H2. destruct (Qltb si _ && Qgtb sj _);
        [specialize (X eq_refl); congruence|]. by eexists.
  - intros Hno Hnw. clear S1 S2 X.
    destruct (Qltb si _ && Qgtb sj _) eqn:E1.
    + apply (hb_signs_iff segments param i j si sj Hsi Hsj) in E1.
      destruct (Z.eqb_spec hi 1), (Z.eqb_spec hj 2), (Z.eqb_spec hi 2),
               (Z.eqb_spec hj 1); subst; simpl; try done; exfalso;
        first [by apply Hno; left | by apply Hnw; left].
    + destruct (Qltb sj _ && Qgtb si _) eqn:E2; [|done].
      apply (hb_signs_iff segments param j i sj si Hsj Hsi) in E2.
      apply hb_types_sym in Hty.
      destruct (Z.eqb_spec hi 1), (Z.eqb_spec hj 2), (Z.eqb_spec hi 2),
               (Z.eqb_spec hj 1); subst; simpl; try done; exfalso;
        first [by apply Hno; right | by apply Hnw; right].
Qed.

Lemma hb_prefactor_closed_form param T :
  (hb_prefactor param T ==
   Aeff param * (CHB param * 36700000
                 * Qmax 0 (1 - CHBT param + CHBT param * 298.15 / T)))%Q.
Proof. unfold hb_prefactor. by rewrite CHB_T_closed_form. Qed.

(* With a threshold that is not negative, the outcome HBAdd tells the
   orientation and the amount. *)
Lemma hydrogen_bond_added segments param T si sj i j hi hj x :
  (0 <= SigmaHB param)%Q ->
  vget (SegmentTypeSigma segments) i = Some si ->
  vget (SegmentTypeSigma segments) j = Some sj ->
  hb_types segments i j hi hj ->
  hydrogen_bond segments param T si sj i j = Some (HBAdd x) ->
  (hb_signs segments param i j /\ ~ hb_signs segments param j i /\
   hi = 1 /\ hj = 2 /\
   x = (hb_prefactor param T * (sj - SigmaHB param) * (si + SigmaHB param))%Q) \/
  (hb_signs segments param j i /\ ~ hb_signs segments param i j /\
   hi = 2 /\ hj = 1 /\
   x = (hb_prefactor param T * (si - SigmaHB param) * (sj + SigmaHB param))%Q).
Proof.
  intros Hs Hsi Hsj Hty. rewrite (hydrogen_bond_eq _ _ _ _ _ _ _ _ _ Hty).
  pose proof (hb_tests_exclusive param si sj Hs) as X.
  rewrite (hb_signs_iff segments param i j si sj Hsi Hsj).
  rewrite (hb_signs_iff segments param j i sj si Hsj Hsi).
  destruct (Qltb si _ && Qgtb sj _).
  - rewrite (X eq_refl).
    destruct (Z.eqb_spec hi 1), (Z.eqb_spec hj 2), (Z.eqb_spec hi 2),
             (Z.eqb_spec hj 1); subst; simpl; try done.
    intros [= <-]. by left.
  - destruct (Qltb sj _ && Qgtb si _); [|done].
    destruct (Z.eqb_spec hi 1), (Z.eqb_spec hj 2), (Z.eqb_spec hi 2),
             (Z.eqb_spec hj 1); subst; simpl; try done.
    intros [= <-]. by right.
Qed.

(** C3, for SigmaHB >= 0 and a temperature T other than 0: in the
    neutral-block loop a hydrogen-bond
    contribution is added to A_int(j,i) exactly when sigma_i < -SigmaHB and
    sigma_j > SigmaHB with hbType_i = 1 and hbType_j = 2, or sigma_j <
    -SigmaHB and sigma_i > SigmaHB with hbType_i = 2 and hbType_j = 1; the
    amount is Aeff*CHB_T*(sigma_positive - SigmaHB)*(sigma_negative +
    SigmaHB) with CHB_T = CHB*3.67e7*max(0, 1 - CHBT + CHBT*298.15/T); any
    class combination other than these two and the swapped one adds
    nothing under the sign condition. *)
Theorem hydrogen_bond_added_exactly_when segments param T i j si sj hi hj :
  (0 <= SigmaHB param)%Q ->
  ~ (T == 0)%Q ->
  vget (SegmentTypeSigma segments) i = Some si ->
  vget (SegmentTypeSigma segments) j = Some sj ->
  hb_types segments i j hi hj ->
  let s := SigmaHB param in
  let chb_t :=
    (CHB param * 36700000 * Qmax 0 (1 - CHBT param + CHBT param * 298.15 / T))%Q in
  let out := hydrogen_bond segments param T si sj i j in
  ((exists x, out = Some (HBAdd x)) <-> hb_opposed segments param i j) /\
  (forall x, out = Some (HBAdd x) -> hb_signs segments param i j ->
     (x == Aeff param * chb_t * (sj - s) * (si + s))%Q) /\
  (forall x, out = Some (HBAdd x) -> hb_signs segments param j i ->
     (x == Aeff param * chb_t * (si - s) * (sj + s))%Q) /\
  (hb_signs segments param i j \/ hb_signs segments param j i ->
   (hi, hj) <> (1, 2) -> (hi, hj) <> (2, 1) -> out = Some HBNone) /\
  (forall A A' x,
     neutral_pass segments param T A = Ok A' -> in_block segments i j ->
     out = Some (HBAdd x) ->
     exists sti val,
       outer_locals segments param i = Some (si, sti) /\
       misfit_value segments param si sti sj j = Some val /\
       coeff A' j i = (val + x)%Q).
Proof.
  intros Hs _ Hsi Hsj Hty s chb_t out.
  pose proof (hydrogen_bond_outcome segments param T si sj i j hi hj Hs Hsi Hsj Hty)
    as (Hadd1 & Hadd2 & Hthrow & Hnone).
  fold out in Hadd1, Hadd2, Hthrow, Hnone.
  assert (Hinv := fun x => hydrogen_bond_added segments param T si sj i j hi hj x
                             Hs Hsi Hsj Hty).
  fold out in Hinv.
  split; [|split; [|split; [|split]]].
  - split.
    + intros [x Hx]. destruct (Hinv x Hx) as [(? & _ & -> & -> & _)|(? & _ & -> & -> & _)].
      * by left.
      * right. split; [done|]. by apply hb_types_sym.
    + intros [[Hsg Hty']|[Hsg Hty'%hb_types_sym]];
        destruct (hb_types_inj _ _ _ _ _ _ _ Hty Hty') as [-> ->].
      * eexists. by apply Hadd1.
      * eexists. by apply Hadd2.
  - intros x Hx Hsg. destruct (Hinv x Hx) as [(_ & _ & _ & _ & ->)|(_ & ? & _)]; [|done].
    unfold chb_t, s. rewrite hb_prefactor_closed_form. reflexivity.
  - intros x Hx Hsg. destruct (Hinv x Hx) as [(_ & ? & _)|(_ & _ & _ & _ & ->)]; [done|].
    unfold chb_t, s. rewrite hb_prefactor_closed_form. reflexivity.
  - intros _ N1 N2. apply Hnone.
    + intros [[_ Hty']|[_ Hty'%hb_types_sym]];
        destruct (hb_types_inj _ _ _ _ _ _ _ Hty Hty') as [-> ->]; done.
    + intros [[_ Hty']|[_ Hty'%hb_types_sym]];
        destruct (hb_types_inj _ _ _ _ _ _ _ Hty Hty') as [-> ->]; done.
  - intros A A' x Hrun Hblock Hx.
    pose proof (neutral_pass_entry _ _ _ _ _ _ _ Hrun Hblock) as Hv.
    apply entry_value_inr in Hv
      as (si' & sti & sj' & val & o & Hloc & Hsi' & Hsj' & Hval & Hout & Hv).
    rewrite Hsi in Hsi'. injection Hsi' as <-.
    rewrite Hsj in Hsj'. injection Hsj' as <-.
    fold out in Hout. rewrite Hx in Hout. injection Hout as <-.
    by exists sti, val.
Qed.

Lemma hydrogen_bond_added_exactly_when_witness :
  (exists x, hydrogen_bond donor_acceptor_segments (sample_parameters 2 0 0 0.0084)
               298.15 (-0.02) 0.02 0 1 = Some (HBAdd x)) <->
  hb_opposed donor_acceptor_segments (sample_parameters 2 0 0 0.0084) 0 1.
Proof.
  refine (proj1 (hydrogen_bond_added_exactly_when donor_acceptor_segments
            (sample_parameters 2 0 0 0.0084) 298.15 0 1 (-0.02) 0.02 1 2 _ _ _ _ _)).
  - discriminate.
  - discriminate.
  - reflexivity.
  - reflexivity.
  - split; reflexivity.
Defined.

(* C3 with a negative threshold: with SigmaHB = -0.01 both sign tests hold
   for sigma_i = sigma_j = 0; the pair has sigma_j < -SigmaHB and sigma_i >
   SigmaHB with hbType_i = 2 and hbType_j = 1, but the first branch is taken
   and throws: nothing is added. *)
Lemma hydrogen_bond_negative_threshold :
  hb_opposed (neutral_pair 0 0 2 1) (sample_parameters 2 0 0 (-0.01)) 0 1 /\
  hydrogen_bond (neutral_pair 0 0 2 1) (sample_parameters 2 0 0 (-0.01))
    298.15 0 0 0 1 = Some (HBThrow hb_message_1).
Proof.
  split; [|reflexivity].
  right. split; [|split; reflexivity].
  exists 0%Q, 0%Q. repeat split; reflexivity.
Qed.

(** ** The interaction matrix: reference-state renormalisation *)

Section shift_loops.
Variables (n : Z) (A : Matrix).

Lemma shift_entry_step i j B :
  0 <= i < j -> j < n -> shift_reached n A i j B ->
  match shift_entry i j B with
  | Ok B' => shift_reached n A i (j + 1) B'
  | Halt f B' => f = OutOfBounds
  end.
Proof.
  intros Hi Hj (Hr & Hc & Hdone & Hrest). unfold shift_entry.
  destruct (mget B j i) as [x|] eqn:Hx; [|done].
  destruct (mget B i i) as [di|] eqn:Hdi; [|done].
  destruct (mget B j j) as [dj|] eqn:Hdj; [|done].
  apply mget_Some in Hx as [_ ->], Hdi as [_ ->], Hdj as [_ ->].
  destruct (mset B j i _) as [B'|] eqn:Hset; [|done].
  destruct (dims_mset _ _ _ _ _ Hset) as [Hr' Hc'].
  rewrite (Hrest i j), (Hrest i i), (Hrest j j) in Hset
    by (unfold shifted; lia).
  split; [congruence|]. split; [congruence|]. split.
  - intros c r Hcr. destruct (decide ((r, c) = (j, i))) as [[= -> ->]|Hne].
    + by rewrite (coeff_mset_eq _ _ _ _ _ Hset).
    + rewrite (coeff_mset_ne _ _ _ _ _ _ _ Hset Hne). apply Hdone.
      unfold shifted in *. destruct Hcr as (? & ? & [?|[-> ?]]).
      * lia.
      * assert (r <> j) by congruence. lia.
  - intros c r Hcr. destruct (decide ((r, c) = (j, i))) as [[= -> ->]|Hne].
    + exfalso. apply Hcr. unfold shifted. lia.
    + rewrite (coeff_mset_ne _ _ _ _ _ _ _ Hset Hne). apply Hrest.
      unfold shifted in *. lia.
Qed.

Lemma shift_row_step i B :
  0 <= i < n -> shift_reached n A i (i + 1) B ->
  match for_range (i + 1) n (shift_entry i) B with
  | Ok B' => shift_reached n A (i + 1) (i + 1 + 1) B'
  | Halt f B' => f = OutOfBounds
  end.
Proof.
  intros Hi HB.
  pose proof (for_range_inv (fun j B => shift_reached n A i j B) (i + 1) n
    (shift_entry i) B ltac:(lia) HB) as Hinv.
  lapply Hinv.
  - destruct (for_range _ _ _ _) as [B'|f B'].
    + intros (Hr & Hc & Hdone & Hrest). repeat split; try done.
      * intros c r Hcr. apply Hdone. unfold shifted in *. lia.
      * intros c r Hcr. apply Hrest. unfold shifted in *. lia.
    + intros (j & B0 & Hj & HB0 & Hstep).
      pose proof (shift_entry_step i j B0 ltac:(lia) ltac:(lia) HB0) as H.
      by rewrite Hstep in H.
  - intros j B0 B1 Hj HB0 Hstep.
    pose proof (shift_entry_step i j B0 ltac:(lia) ltac:(lia) HB0) as H.
    by rewrite Hstep in H.
Qed.

(* Pass 1: every entry below the diagonal is shifted by the diagonal values
   the matrix had when the pass began; nothing else changes. *)
Lemma shift_pass_run :
  match shift_pass n A with
  | Ok B =>
      rows B = rows A /\ cols B = cols A /\
      (forall i j, 0 <= i < j -> j < n ->
         coeff B j i = (coeff A j i - 0.5 * (coeff A i i + coeff A j j))%Q) /\
      (forall r c, ~ (0 <= c < r /\ r < n) -> coeff B r c = coeff A r c)
  | Halt f B => f = OutOfBounds
  end.
Proof.
  unfold shift_pass.
  destruct (Z.le_gt_cases 0 n) as [Hn|Hn].
  - assert (H0 : shift_reached n A 0 (0 + 1) A).
    { repeat split; try done. intros c r Hcr. unfold shifted in Hcr. lia. }
    pose proof (for_range_inv (fun i B => shift_reached n A i (i + 1) B) 0 n
      (fun i => for_range (i + 1) n (shift_entry i)) A Hn H0) as Hinv.
    lapply Hinv.
    + destruct (for_range _ _ _ _) as [B|f B].
      * intros (Hr & Hc & Hdone & Hrest). repeat split; try done.
        -- intros i j Hi Hj. apply Hdone. unfold shifted. lia.
        -- intros r c Hcr. apply Hrest. unfold shifted. lia.
      * intros (i & B0 & Hi & HB0 & Hstep).
        pose proof (shift_row_step i B0 Hi HB0) as H. by rewrite Hstep in H.
    + intros i B0 B1 Hi HB0 Hstep.
      pose proof (shift_row_step i B0 Hi HB0) as H. by rewrite Hstep in H.
  - rewrite for_range_empty by lia. repeat split; try done. lia.
Qed.

(* Pass 2: the diagonal is set to zero; nothing else changes. *)
Lemma zero_pass_run :
  match zero_pass n A with
  | Ok B =>
      rows B = rows A /\ cols B = cols A /\
      (forall i, 0 <= i < n -> coeff B i i = 0%Q) /\
      (forall r c, r <> c -> coeff B r c = coeff A r c)
  | Halt f B => f = OutOfBounds
  end.
Proof.
  unfold zero_pass.
  destruct (Z.le_gt_cases 0 n) as [Hn|Hn].
  - pose proof (for_range_inv
      (fun i B => rows B = rows A /\ cols B = cols A /\
                  (forall k, 0 <= k < i -> coeff B k k = 0%Q) /\
                  (forall r c, r <> c -> coeff B r c = coeff A r c))
      0 n zero_entry A Hn) as Hinv.
    lapply Hinv; [intros Hinv'; lapply Hinv'|].
    + destruct (for_range _ _ _ _) as [B|f B]; [done|].
      intros (i & B0 & _ & _ & Hstep). unfold zero_entry in Hstep.
      destruct (mset B0 i i 0); congruence.
    + intros i B0 B1 Hi (Hr & Hc & Hz & Hrest) Hstep. unfold zero_entry in Hstep.
      destruct (mset B0 i i 0) as [B'|] eqn:Hset; [|done].
      injection Hstep as <-.
      destruct (dims_mset _ _ _ _ _ Hset) as [Hr' Hc'].
      split; [congruence|]. split; [congruence|]. split.
      * intros k Hk. destruct (decide (k = i)) as [->|Hne].
        -- by rewrite (coeff_mset_eq _ _ _ _ _ Hset).
        -- rewrite (coeff_mset_ne _ _ _ _ _ k k Hset) by congruence.
           apply Hz. lia.
      * intros r c Hne. rewrite (coeff_mset_ne _ _ _ _ _ r c Hset) by congruence.
        by apply Hrest.
    + repeat split; try done. lia.
  - rewrite for_range_empty by lia. repeat split; try done. lia.
Qed.
End shift_loops.

(* The two passes, one after the other, on one matrix. *)
Lemma renormalise_matrix_run n A :
  match and_next (shift_pass n A) (zero_pass n) with
  | Ok B => renormalised n A B
  | Halt f B => f = OutOfBounds
  end.
Proof.
  pose proof (shift_pass_run n A) as H1.
  destruct (shift_pass n A) as [B1|f B1]; simpl; [|done].
  pose proof (zero_pass_run n B1) as H2.
  destruct (zero_pass n B1) as [B2|f B2]; [|done].
  destruct H1 as (Hr1 & Hc1 & Hs & _), H2 as (Hr2 & Hc2 & Hz & Hrest).
  split; [congruence|]. split; [congruence|]. split; [|done].
  intros i j Hi Hj. rewrite Hrest by lia. by apply Hs.
Qed.

(* A pass applied to the first m partial matrices, one after the other. *)
Lemma on_partial_loop (pass : Matrix -> result Matrix)
    (R : Matrix -> Matrix -> Prop) (m : Z) (ps : list Matrix) :
  (forall P, match pass P with
             | Ok P' => R P P'
             | Halt f _ => f = OutOfBounds
             end) ->
  match for_range 0 m (on_partial pass) ps with
  | Ok ps' =>
      vsize ps' = vsize ps /\
      (forall h, 0 <= h < m ->
         exists P P', vget ps h = Some P /\ vget ps' h = Some P' /\ R P P') /\
      (forall h, ~ (0 <= h < m) -> vget ps' h = vget ps h)
  | Halt f _ => f = OutOfBounds
  end.
Proof.
  intros Hpass.
  destruct (Z.le_gt_cases 0 m) as [Hm|Hm].
  - set (Inv := fun (h : Z) (cur : list Matrix) =>
      vsize cur = vsize ps /\
      (forall k, 0 <= k < h ->
         exists P P', vget ps k = Some P /\ vget cur k = Some P' /\ R P P') /\
      (forall k, ~ (0 <= k < h) -> vget cur k = vget ps k)).
    assert (Hstep : forall h cur, 0 <= h < m -> Inv h cur ->
              match on_partial pass h cur with
              | Ok cur' => Inv (h + 1) cur'
              | Halt f _ => f = OutOfBounds
              end).
    { intros h cur Hh (Hlen & Hdone & Hrest). unfold on_partial.
      destruct (vget cur h) as [P|] eqn:HP; [|done].
      specialize (Hpass P). destruct (pass P) as [P'|f P']; [|done].
      assert (Hin : 0 <= h < vsize cur) by (by apply vget_range in HP).
      split; [by rewrite vsize_insert|]. split.
      - intros k Hk. destruct (decide (k = h)) as [->|Hne].
        + exists P, P'. rewrite <- (Hrest h) by lia.
          rewrite vget_insert_eq by done. done.
        + destruct (Hdone k ltac:(lia)) as (Q0 & Q1 & ? & ? & ?).
          exists Q0, Q1. rewrite vget_insert_ne by lia. done.
      - intros k Hk. rewrite vget_insert_ne by lia. apply Hrest. lia. }
    pose proof (for_range_inv Inv 0 m (on_partial pass) ps Hm) as Hinv.
    lapply Hinv; [intros Hinv'; lapply Hinv'|].
    + destruct (for_range _ _ _ _) as [ps'|f ps']; [done|].
      intros (h & cur & Hh & Hcur & Hhalt).
      specialize (Hstep h cur Hh Hcur). by rewrite Hhalt in Hstep.
    + intros h cur cur' Hh Hcur Hok.
      specialize (Hstep h cur Hh Hcur). by rewrite Hok in Hstep.
    + split; [done|]. split; [lia|done].
  - rewrite for_range_empty by lia. split; [done|]. split; [lia|done].
Qed.

(* The block for the partial matrices. *)
Lemma renormalise_partials_run param n ps :
  match renormalise_partials param n ps with
  | Ok ps' =>
      forall h, 0 <= h < numberOfPartialInteractionMatrices param ->
        exists P P', vget ps h = Some P /\ vget ps' h = Some P' /\
                     renormalised n P P'
  | Halt f _ => f = OutOfBounds
  end.
Proof.
  unfold renormalise_partials.
  pose proof (on_partial_loop (shift_pass n) _
                (numberOfPartialInteractionMatrices param) ps
                (shift_pass_run n)) as H1.
  destruct (for_range _ _ _ ps) as [ps1|f ps1]; simpl; [|done].
  pose proof (on_partial_loop (zero_pass n) _
                (numberOfPartialInteractionMatrices param) ps1
                (zero_pass_run n)) as H2.
  destruct (for_range _ _ _ ps1) as [ps2|f ps2]; [|done].
  destruct H1 as (_ & H1 & _), H2 as (_ & H2 & _).
  intros h Hh.
  destruct (H1 h Hh) as (P & P1 & HP & HP1 & Hr1 & Hc1 & Hs & _).
  destruct (H2 h Hh) as (P1' & P2 & HP1' & HP2 & Hr2 & Hc2 & Hz & Hrest).
  rewrite HP1 in HP1'. injection HP1' as <-.
  exists P, P2. split; [done|]. split; [done|].
  split; [congruence|]. split; [congruence|]. split; [|done].
  intros i j Hi Hj. rewrite Hrest by lia. by apply Hs.
Qed.

(* The renormalisation block halts with OutOfBounds only. *)
Lemma renormalise_run param n A ps :
  match renormalise param n (A, ps) with
  | Ok (A', ps') =>
      renormalised n A A' /\
      (0 < sw_calculateContactStatisticsAndAdditionalProperties param ->
       forall h, 0 <= h < numberOfPartialInteractionMatrices param ->
         exists P P', vget ps h = Some P /\ vget ps' h = Some P' /\
                      renormalised n P P')
  | Halt f _ => f = OutOfBounds
  end.
Proof.
  unfold renormalise. simpl.
  pose proof (renormalise_matrix_run n A) as H1.
  destruct (and_next (shift_pass n A) (zero_pass n)) as [A1|f A1]; simpl; [|done].
  destruct (0 <? sw_calculateContactStatisticsAndAdditionalProperties param) eqn:E.
  - pose proof (renormalise_partials_run param n ps) as H2.
    destruct (renormalise_partials param n ps) as [ps'|f ps']; simpl; [|done].
    split; [done|]. intros _. exact H2.
  - split; [done|]. lia.
Qed.

(** C1: with sw_useSegmentReferenceStateForInteractionMatrix = 1, when
    calculateInteractionMatrix returns, every entry A_int(j,i), i < j <
    numberOfSegments, is its value before the renormalisation minus
    0.5*(A_int(i,i) + A_int(j,j)) taken before the renormalisation, and every
    diagonal entry is zero; with
    sw_calculateContactStatisticsAndAdditionalProperties > 0 the same holds
    for each of the numberOfPartialInteractionMatrices partial matrices. *)
Theorem reference_state_renormalisation segments param T A ps A' ps' :
  sw_useSegmentReferenceStateForInteractionMatrix param = 1 ->
  calculateInteractionMatrix segments param T (A, ps) = Ok (A', ps') ->
  exists A0,
    neutral_pass segments param T A = Ok A0 /\
    (forall i j, 0 <= i < j -> j < size segments ->
       coeff A' j i = (coeff A0 j i - 0.5 * (coeff A0 i i + coeff A0 j j))%Q) /\
    (forall i, 0 <= i < size segments -> coeff A' i i = 0%Q) /\
    (0 < sw_calculateContactStatisticsAndAdditionalProperties param ->
     forall h, 0 <= h < numberOfPartialInteractionMatrices param ->
       exists P P',
         vget ps h = Some P /\ vget ps' h = Some P' /\
         (forall i j, 0 <= i < j -> j < size segments ->
            coeff P' j i = (coeff P j i - 0.5 * (coeff P i i + coeff P j j))%Q) /\
         (forall i, 0 <= i < size segments -> coeff P' i i = 0%Q)).
Proof.
  intros Hsw. unfold calculateInteractionMatrix. simpl.
  destruct (neutral_pass segments param T A) as [A0|f A0]; simpl; [|done].
  rewrite Hsw. simpl.
  pose proof (renormalise_run param (size segments) A0 ps) as H.
  destruct (renormalise param (size segments) (A0, ps)) as [[A1 ps1]|f st]; [|done].
  intros [= <- <-]. destruct H as ((_ & _ & Hs & Hz) & Hps).
  exists A0. split; [done|]. split; [done|]. split; [done|].
  intros Hcs h Hh. destruct (Hps Hcs h Hh) as (P & P' & HP & HP' & _ & _ & Hs' & Hz').
  by exists P, P'.
Qed.

Lemma reference_state_renormalisation_witness :
  exists A' ps' A0,
    calculateInteractionMatrix donor_acceptor_segments
      (sample_parameters 2 1 1 0.0084) 298.15 (zero_matrix 2, [sample_partial 2])
    = Ok (A', ps') /\
    neutral_pass donor_acceptor_segments (sample_parameters 2 1 1 0.0084) 298.15
      (zero_matrix 2) = Ok A0 /\
    coeff A' 1 0 = (coeff A0 1 0 - 0.5 * (coeff A0 0 0 + coeff A0 1 1))%Q /\
    coeff A' 1 1 = 0%Q.
Proof.
  pose (st := state_of (calculateInteractionMatrix donor_acceptor_segments
                (sample_parameters 2 1 1 0.0084) 298.15
                (zero_matrix 2, [sample_partial 2]))).
  destruct (reference_state_renormalisation donor_acceptor_segments
              (sample_parameters 2 1 1 0.0084) 298.15 (zero_matrix 2)
              [sample_partial 2] st.1 st.2 eq_refl eq_refl)
    as (A0 & HA0 & Hs & Hz & _).
  exists st.1, st.2, A0. split; [reflexivity|]. split; [exact HA0|].
  split.
  - apply Hs; [lia|reflexivity].
  - apply Hz. split; [lia|reflexivity].
Defined.

(** ** The interaction matrix: the exception *)

(* The exception is thrown in the wrong orientation only. *)
Lemma hydrogen_bond_thrown segments param T si sj i j msg :
  vget (SegmentTypeSigma segments) i = Some si ->
  vget (SegmentTypeSigma segments) j = Some sj ->
  hydrogen_bond segments param T si sj i j = Some (HBThrow msg) ->
  hb_wrong_orientation segments param i j.
Proof.
  intros Hsi Hsj Hout.
  destruct (hydrogen_bond_types _ _ _ _ _ _ _ _ Hout ltac:(done)) as (hi & hj & Hty).
  rewrite (hydrogen_bond_eq _ _ _ _ _ _ _ _ _ Hty) in Hout.
  unfold hb_wrong_orientation.
  rewrite (hb_signs_iff segments param i j si sj Hsi Hsj).
  rewrite (hb_signs_iff segments param j i sj si Hsj Hsi).
  destruct (Qltb si _ && Qgtb sj _).
  - destruct (Z.eqb_spec hi 1), (Z.eqb_spec hj 2), (Z.eqb_spec hi 2),
             (Z.eqb_spec hj 1); subst; simpl in Hout; try done.
    by left.
  - destruct (Qltb sj _ && Qgtb si _); [|done].
    destruct (Z.eqb_spec hi 1), (Z.eqb_spec hj 2), (Z.eqb_spec hi 2),
             (Z.eqb_spec hj 1); subst; simpl in Hout; try done.
    right. split; [done|]. by apply hb_types_sym.
Qed.

(* The faults of one pair. *)
Lemma entry_value_inl segments param T i j f :
  entry_value segments param T i j = inl f ->
  f = OutOfBounds \/
  exists msg si sj,
    f = RuntimeError msg /\
    vget (SegmentTypeSigma segments) i = Some si /\
    vget (SegmentTypeSigma segments) j = Some sj /\
    hydrogen_bond segments param T si sj i j = Some (HBThrow msg).
Proof.
  unfold entry_value.
  destruct (outer_locals segments param i) as [[si sti]|] eqn:Hloc;
    [|intros [= <-]; by left].
  assert (Hsi : vget (SegmentTypeSigma segments) i = Some si).
  { unfold outer_locals in Hloc.
    destruct (vget (SegmentTypeSigma segments) i) as [si'|]; [|done]. simpl in Hloc.
    destruct (0 <? sw_misfit param).
    - destruct (vget (SegmentTypeSigmaCorr segments) i); [|done].
      simpl in Hloc. congruence.
    - congruence. }
  unfold pair_value.
  destruct (vget (SegmentTypeSigma segments) j) as [sj|] eqn:Hsj;
    [|intros [= <-]; by left].
  destruct (misfit_value segments param si sti sj j) as [val|];
    [|intros [= <-]; by left].
  destruct (hydrogen_bond segments param T si sj i j) as [[x| |msg]|] eqn:Hout;
    try done; try (intros [= <-]; by left).
  intros [= <-]. right. by exists msg, si, sj.
Qed.

(* A pair in the wrong orientation gets no value. *)
Lemma wrong_orientation_no_value segments param T i j v :
  (0 <= SigmaHB param)%Q ->
  hb_wrong_orientation segments param i j ->
  entry_value segments param T i j <> inr v.
Proof.
  intros Hs Hwrong Hv.
  apply entry_value_inr in Hv
    as (si & sti & sj & val & out & _ & Hsi & Hsj & _ & Hout & Hv).
  assert (Hty : exists hi hj, hb_types segments i j hi hj).
  { destruct Hwrong as [[_ H]|[_ H%hb_types_sym]]; eauto. }
  destruct Hty as (hi & hj & Hty).
  destruct (hydrogen_bond_outcome segments param T si sj i j hi hj Hs Hsi Hsj Hty)
    as (_ & _ & Hthrow & _).
  destruct (Hthrow Hwrong) as [msg Hmsg]. rewrite Hmsg in Hout.
  injection Hout as <-. done.
Qed.

Lemma calculateInteractionMatrix_outcomes segments param T A ps :
  match calculateInteractionMatrix segments param T (A, ps) with
  | Ok _ => exists A0, neutral_pass segments param T A = Ok A0
  | Halt OutOfBounds _ => True
  | Halt f st =>
      exists A', neutral_pass segments param T A = Halt f A' /\ st = (A', ps)
  end.
Proof.
  unfold calculateInteractionMatrix. simpl.
  destruct (neutral_pass segments param T A) as [A0|f A0]; simpl.
  - destruct (_ =? 1).
    + pose proof (renormalise_run param (size segments) A0 ps) as H.
      destruct (renormalise param (size segments) (A0, ps)) as [st|f st].
      * by exists A0.
      * by subst f.
    + by exists A0.
  - destruct f; [|done|]; by exists A0.
Qed.

(** C4, for SigmaHB >= 0 and a run that stays in bounds:
    calculateInteractionMatrix raises the exception exactly when some pair of
    the neutral block satisfies the hydrogen-bond sign condition with the
    classes in the opposite orientation (the negative segment of class 2,
    the positive one of class 1); no energy is then written for such a
    pair. *)
Theorem wrong_orientation_raises segments param T A ps :
  (0 <= SigmaHB param)%Q ->
  (forall st,
     calculateInteractionMatrix segments param T (A, ps) <> Halt OutOfBounds st) ->
  ((exists msg st,
      calculateInteractionMatrix segments param T (A, ps)
      = Halt (RuntimeError msg) st) <->
   (exists i j, in_block segments i j /\ hb_wrong_orientation segments param i j)) /\
  (forall msg st i j,
     calculateInteractionMatrix segments param T (A, ps)
     = Halt (RuntimeError msg) st ->
     in_block segments i j -> hb_wrong_orientation segments param i j ->
     coeff st.1 j i = coeff A j i).
Proof.
  intros Hs Hin.
  pose proof (calculateInteractionMatrix_outcomes segments param T A ps) as Hcalc.
  assert (Hhalt : forall msg A',
            neutral_pass segments param T A = Halt (RuntimeError msg) A' ->
            exists lower upper i j,
              vget (lowerBoundIndexForGroup segments) 0 = Some lower /\
              UpperBoundIndexForNeutralComponents segments = Some upper /\
              lower <= i <= j /\ j < upper /\
              reached segments param T A lower upper i j A' /\
              entry_value segments param T i j = inl (RuntimeError msg)).
  { intros msg A' Hrun.
    destruct (vget (lowerBoundIndexForGroup segments) 0) as [lower|] eqn:Hlo;
      [destruct (UpperBoundIndexForNeutralComponents segments) as [upper|] eqn:Hup|].
    - pose proof (neutral_pass_run segments param T A lower upper Hlo Hup) as H.
      rewrite Hrun in H. destruct H as (i & j & Hi & Hj & Hat & [Hf|[? _]]); [|done].
      by exists lower, upper, i, j.
    - unfold neutral_pass in Hrun. rewrite Hlo, Hup in Hrun. done.
    - unfold neutral_pass in Hrun. rewrite Hlo in Hrun.
      by destruct (UpperBoundIndexForNeutralComponents _). }
  split; [split|].
  - intros (msg & st & Hrun). rewrite Hrun in Hcalc.
    destruct Hcalc as (A' & Hpass & _).
    destruct (Hhalt msg A' Hpass) as (lower & upper & i & j & Hlo & Hup & Hi & Hj & _ & Hf).
    exists i, j. split; [by exists lower, upper|].
    apply (entry_value_inl _ _ _ _ _ _) in Hf
      as [?|(msg' & si & sj & _ & Hsi & Hsj & Hout)]; [done|].
    by eapply hydrogen_bond_thrown.
  - intros (i & j & Hblock & Hwrong).
    destruct (calculateInteractionMatrix segments param T (A, ps))
      as [st|f st] eqn:Hrun.
    + destruct Hcalc as (A0 & Hpass). exfalso.
      eapply wrong_orientation_no_value; [done|done|].
      by eapply neutral_pass_entry.
    + destruct f as [msg| |].
      * by exists msg, st.
      * by destruct (Hin st).
      * destruct Hcalc as (A' & Hpass & _). exfalso.
        destruct (vget (lowerBoundIndexForGroup segments) 0) as [lower|] eqn:Hlo;
          [destruct (UpperBoundIndexForNeutralComponents segments) as [upper|] eqn:Hup|].
        -- pose proof (neutral_pass_run segments param T A lower upper Hlo Hup) as H.
           rewrite Hpass in H.
           destruct H as (i' & j' & _ & _ & _ & [Hf|[? _]]); [|done].
           apply entry_value_inl in Hf as [?|(? & ? & ? & ? & _)]; done.
        -- unfold neutral_pass in Hpass. rewrite Hlo, Hup in Hpass. done.
        -- unfold neutral_pass in Hpass. rewrite Hlo in Hpass.
           by destruct (UpperBoundIndexForNeutralComponents _).
  - intros msg st i j Hrun Hblock Hwrong. rewrite Hrun in Hcalc.
    destruct Hcalc as (A' & Hpass & ->). simpl.
    destruct (Hhalt msg A' Hpass)
      as (lower & upper & i0 & j0 & Hlo & Hup & Hi & Hj & (_ & _ & Hvis & Hrest) & _).
    assert (Hdec : visited lower upper i0 j0 i j \/ ~ visited lower upper i0 j0 i j)
      by (unfold visited; lia).
    destruct Hdec as [Hv|Hv]; [|by apply Hrest].
    exfalso. eapply wrong_orientation_no_value; [done|done|]. by apply Hvis.
Qed.

Lemma wrong_orientation_raises_witness :
  (exists msg st,
     calculateInteractionMatrix swapped_class_segments
       (sample_parameters 2 1 0 0.0084) 298.15 (zero_matrix 2, [])
     = Halt (RuntimeError msg) st) <->
  (exists i j, in_block swapped_class_segments i j /\
     hb_wrong_orientation swapped_class_segments (sample_parameters 2 1 0 0.0084) i j).
Proof.
  refine (proj1 (wrong_orientation_raises swapped_class_segments
            (sample_parameters 2 1 0 0.0084) 298.15 (zero_matrix 2) [] _ _)).
  - discriminate.
  - intros st. vm_compute. discriminate.
Defined.

(* C4 with a negative threshold: with SigmaHB = -0.01 and sigma_i = sigma_j
   = 0 the pair (0, 1) with hbType_i = 1, hbType_j = 2 has the negative
   segment j of class 2 and the positive segment i of class 1, but the
   first branch adds the hydrogen-bond term and the call returns. *)
Lemma negative_threshold_no_exception :
  in_block (neutral_pair 0 0 1 2) 0 1 /\
  hb_wrong_orientation (neutral_pair 0 0 1 2) (sample_parameters 2 0 0 (-0.01)) 0 1 /\
  is_Ok (calculateInteractionMatrix (neutral_pair 0 0 1 2)
           (sample_parameters 2 0 0 (-0.01)) 298.15 (zero_matrix 2, [])) = true.
Proof.
  split; [|split].
  - exists 0, 2. repeat split; try reflexivity; lia.
  - right. split; [|split; reflexivity].
    exists 0%Q, 0%Q. repeat split; reflexivity.
  - reflexivity.
Qed.

(** C5, with the sign as the code has it: for a neutral-block pair with
    sigma_i = -0.02, sigma_j = 0.02, SigmaHB = 0.0084, hbType_i = 1, hbType_j
    = 2, positive Aeff and CHB and CHB_T > 0, the hydrogen-bond term added is
    Aeff*CHB_T*(sigma_j - SigmaHB)*(sigma_i + SigmaHB), and it is strictly
    negative. *)
Theorem hb_term_at_sample_sigmas segments param T i j si sj :
  vget (SegmentTypeSigma segments) i = Some si ->
  vget (SegmentTypeSigma segments) j = Some sj ->
  (si == -0.02)%Q -> (sj == 0.02)%Q -> (SigmaHB param == 0.0084)%Q ->
  hb_types segments i j 1 2 ->
  (0 < Aeff param)%Q -> (0 < CHB param)%Q -> (0 < CHB_T param T)%Q ->
  exists x,
    hydrogen_bond segments param T si sj i j = Some (HBAdd x) /\
    (x == Aeff param * CHB_T param T * (sj - SigmaHB param) * (si + SigmaHB param))%Q /\
    (x < 0)%Q.
Proof.
  intros Hsi Hsj Ei Ej Es Hty HA HC HT.
  rewrite (hydrogen_bond_eq _ _ _ _ _ _ _ _ _ Hty).
  assert (Htest : Qltb si (-1 * SigmaHB param) && Qgtb sj (SigmaHB param) = true).
  { apply hb_test. rewrite Ei, Ej, Es. split; reflexivity. }
  rewrite Htest. simpl. eexists. split; [reflexivity|].
  unfold hb_prefactor. split; [reflexivity|].
  rewrite Ei, Ej, Es.
  assert (Hp : (0 < Aeff param * CHB_T param T)%Q) by nra.
  nra.
Qed.

Lemma hb_term_at_sample_sigmas_witness :
  exists x,
    hydrogen_bond donor_acceptor_segments (sample_parameters 2 0 0 0.0084) 298.15
      (-0.02) 0.02 0 1 = Some (HBAdd x) /\
    (x == 6.25 * CHB_T (sample_parameters 2 0 0 0.0084) 298.15
          * (0.02 - 0.0084) * (-0.02 + 0.0084))%Q /\
    (x < 0)%Q.
Proof.
  apply (hb_term_at_sample_sigmas donor_acceptor_segments
           (sample_parameters 2 0 0 0.0084) 298.15 0 1 (-0.02) 0.02).
  - reflexivity.
  - reflexivity.
  - reflexivity.
  - reflexivity.
  - reflexivity.
  - split; reflexivity.
  - reflexivity.
  - reflexivity.
  - reflexivity.
Defined.

(* C5 as a strictly positive term: at the sample input Aeff, CHB and CHB_T
   are positive and the classes are the correct ones, and the term that is
   added is negative. *)
Lemma hb_term_is_not_positive :
  (0 < Aeff (sample_parameters 2 0 0 0.0084))%Q /\
  (0 < CHB (sample_parameters 2 0 0 0.0084))%Q /\
  (0 < CHB_T (sample_parameters 2 0 0 0.0084) 298.15)%Q /\
  hb_types donor_acceptor_segments 0 1 1 2 /\
  exists x,
    hydrogen_bond donor_acceptor_segments (sample_parameters 2 0 0 0.0084) 298.15
      (-0.02) 0.02 0 1 = Some (HBAdd x) /\
    ~ (0 < x)%Q.
Proof.
  repeat (split; [reflexivity|]).
  split; [split; reflexivity|].
  eexists. split; [reflexivity|]. vm_compute. discriminate.
Qed.
(** ** Canonical ordering: the in-place permutation *)

Lemma count_false_le d : (count_false d <= length d)%nat.
Proof. induction d as [|[] d IH]; simpl; lia. Qed.

Lemma count_false_insert d (k : nat) :
  d !! k = Some false ->
  (count_false (<[k := true]> d) + 1 = count_false d)%nat.
Proof.
  revert k. induction d as [|b d IH]; intros [|k] H; simpl in *; try done.
  - injection H as ->. lia.
  - specialize (IH k H). lia.
Qed.

Lemma vget_insert {A} (v : list A) i j x :
  0 <= i < vsize v ->
  vget (<[Z.to_nat i := x]> v) j = if decide (j = i) then Some x else vget v j.
Proof.
  intros Hi. destruct (decide (j = i)) as [->|Hne].
  - by apply vget_insert_eq.
  - apply vget_insert_ne; lia.
Qed.

Section cycle_following.
Context {T : Type}.
Variables (n : Z) (p : list Z) (vec : list T).
Hypothesis Hperm : is_permutation n p.
Hypothesis Hvec : vsize vec = n.

Let settled := @settled T n p vec.
Let on_cycle := @on_cycle T n p vec.

Lemma p_lookup k : 0 <= k < n -> exists x, vget p k = Some x /\ 0 <= x < n.
Proof.
  destruct Hperm as (Hlen & Hrange & _). intros Hk.
  destruct (proj1 (vget_is_Some p k) ltac:(lia)) as [x Hx].
  exists x. split; [done|]. by eapply Hrange.
Qed.

Lemma p_domain k x : vget p k = Some x -> 0 <= k < n /\ 0 <= x < n.
Proof.
  destruct Hperm as (Hlen & Hrange & _). intros Hx. split.
  - apply vget_range in Hx. lia.
  - by eapply Hrange.
Qed.

Lemma follow_cycle_run i d0 fuel : forall v d prev j,
  0 <= i < n ->
  on_cycle i d0 v d prev j -> (count_false d <= fuel)%nat ->
  exists v' d',
    follow_cycle fuel p i v d prev j = Ok (v', d') /\
    vsize v' = n /\ vsize d' = n /\
    vget d' i = Some true /\
    (forall k x, vget d' k = Some true -> vget p k = Some x ->
       vget v' k = vget vec x) /\
    (forall k, vget d' k = Some false -> vget v' k = vget vec k) /\
    (forall k x, vget p k = Some x -> vget d' k = vget d' x) /\
    (forall k, vget d0 k = Some true -> vget d' k = Some true).
Proof.
  unfold on_cycle.
  induction fuel as [|fuel IH]; intros v d prev j Hi
    (Hv & Hd & Hpj & Hdi & Hdp & Hvp & Hfw & Hun & Hbw & Hmono) Hfuel.
  all: destruct (p_domain _ _ Hpj) as [Hprev Hj].
  all: assert (Hbool : forall k, 0 <= k < n ->
         vget d k = Some true \/ vget d k = Some false)
    by (intros k Hk; destruct (proj1 (vget_is_Some d k) ltac:(lia)) as [[] ->]; auto).
  all: assert (Hexit : j = i ->
    vsize v = n /\ vsize d = n /\ vget d i = Some true /\
    (forall k x, vget d k = Some true -> vget p k = Some x -> vget v k = vget vec x) /\
    (forall k, vget d k = Some false -> vget v k = vget vec k) /\
    (forall k x, vget p k = Some x -> vget d k = vget d x) /\
    (forall k, vget d0 k = Some true -> vget d k = Some true)).
  1,3: intros ->; repeat (split; [done|]); split; [|split; [done|split; [|done]]].
  1,3: intros k x Hk Hx; destruct (decide (k = prev)) as [->|Hne];
         [congruence|by apply (Hfw k x)].
  1,2: intros k x Hx; destruct (p_domain _ _ Hx) as [Hk Hxr];
       destruct (Hbool x Hxr) as [Ex|Ex]; rewrite Ex;
       [destruct (Hbw k x Hx Ex) as [->|[? _]]; [|done];
        destruct Hperm as (_ & _ & Hinj);
        by rewrite (Hinj k prev i Hx Hpj)
       |destruct (Hbool k Hk) as [Ek|Ek]; [|done];
        destruct (decide (k = prev)) as [->|Hne];
        [congruence|destruct (Hfw k x Hne Ek Hx); congruence]].
  all: assert (Hpending : j <> i -> vget d j = Some false).
  1,3: intros Hne; destruct (Hbool j Hj) as [E|E]; [|done];
       destruct (Hbw prev j Hpj E) as [?|[_ ?]]; done.
  - (* no fuel left: the loop must be at its exit *)
    simpl. destruct (Z.eqb_spec i j) as [->|Hne].
    + exists v, d. split; [done|]. by apply Hexit.
    + exfalso. specialize (Hpending ltac:(congruence)).
      apply vget_Some in Hpending as [_ Hpending].
      apply count_false_insert in Hpending. lia.
  - simpl. destruct (Z.eqb_spec i j) as [->|Hne].
    + exists v, d. split; [done|]. by apply Hexit.
    + specialize (Hpending ltac:(congruence)).
      assert (Hjp : j <> prev) by congruence.
      destruct (proj1 (vget_is_Some v prev) ltac:(lia)) as [a Ha].
      destruct (proj1 (vget_is_Some v j) ltac:(lia)) as [b Hb].
      rewrite Ha, Hb.
      destruct (vset d j true) as [d'|] eqn:Hset;
        [|apply vset_None in Hset; lia].
      apply vset_Some in Hset as [_ ->].
      destruct (p_lookup j Hj) as (j' & Hpj' & Hj').
      rewrite Hpj'.
      set (v' := <[Z.to_nat j := a]> (<[Z.to_nat prev := b]> v)).
      assert (Hv'get : forall k, vget v' k =
                if decide (k = j) then Some a
                else if decide (k = prev) then Some b else vget v k).
      { intros k. unfold v'. rewrite vget_insert by (rewrite vsize_insert; lia).
        destruct (decide (k = j)); [done|]. by rewrite vget_insert by lia. }
      assert (Hd'get : forall k, vget (<[Z.to_nat j := true]> d) k =
                if decide (k = j) then Some true else vget d k).
      { intros k. by rewrite vget_insert by lia. }
      apply IH; [done| |].
      * split; [unfold v'; by rewrite !vsize_insert|].
        split; [by rewrite vsize_insert|].
        split; [done|].
        split; [rewrite Hd'get; by destruct (decide (i = j))|].
        split; [rewrite Hd'get; by destruct (decide (j = j))|].
        split; [rewrite Hv'get; destruct (decide (j = j)); [congruence|done]|].
        split; [|split; [|split]].
        -- intros k x Hk Hdk Hx. rewrite Hd'get in Hdk.
           destruct (decide (k = j)); [done|].
           rewrite Hv'get, Hd'get. destruct (decide (k = j)); [done|].
           destruct (decide (k = prev)) as [->|Hkp].
           ++ rewrite Hpj in Hx. injection Hx as <-.
              destruct (decide (j = j)); [|done]. split; [|done].
              rewrite <- Hb. by apply Hun.
           ++ destruct (Hfw k x Hkp Hdk Hx) as [E1 E2]. split; [done|].
              by destruct (decide (x = j)).
        -- intros k Hdk. rewrite Hd'get in Hdk.
           destruct (decide (k = j)); [done|].
           rewrite Hv'get. destruct (decide (k = j)); [done|].
           destruct (decide (k = prev)) as [->|]; [congruence|]. by apply Hun.
        -- intros k x Hx Hdx. rewrite Hd'get in Hdx. rewrite Hd'get.
           destruct (decide (x = j)) as [->|Hxj].
           ++ right. destruct Hperm as (_ & _ & Hinj).
              rewrite (Hinj k prev j Hx Hpj).
              destruct (decide (prev = j)); [done|]. split; [done|]. congruence.
           ++ destruct (Hbw k x Hx Hdx) as [->|[Hdk Hkp]]; [by left|].
              right. destruct (decide (k = j)) as [->|]; [congruence|].
              split; [done|]. congruence.
        -- intros k Hk. rewrite Hd'get. destruct (decide (k = j)); [done|].
           by apply Hmono.
      * apply vget_Some in Hpending as [_ Hpending].
        apply count_false_insert in Hpending. lia.
Qed.

(* One iteration of the outer loop. *)
Lemma permute_step_run i st :
  0 <= i < n -> settled i st ->
  exists st', permute_step p i st = Ok st' /\ settled (i + 1) st'.
Proof.
  destruct st as [v d]. intros Hi (Hv & Hd & Hlow & Hdone & Hun & Hcl).
  simpl in *. unfold permute_step.
  destruct (proj1 (vget_is_Some d i) ltac:(lia)) as [[|] Hdi]; rewrite Hdi.
  - exists (v, d). split; [done|]. repeat (split; [done|]).
    split; [|done]. intros k Hk. destruct (decide (k = i)) as [->|]; [done|].
    apply Hlow. lia.
  - destruct (vset d i true) as [d1|] eqn:Hset; [|apply vset_None in Hset; lia].
    apply vset_Some in Hset as [_ ->].
    destruct (p_lookup i Hi) as (j & Hpj & Hj). rewrite Hpj.
    assert (Hd1 : forall k, vget (<[Z.to_nat i := true]> d) k =
              if decide (k = i) then Some true else vget d k).
    { intros k. by rewrite vget_insert by lia. }
    destruct (follow_cycle_run i d (length v) v (<[Z.to_nat i := true]> d) i j Hi)
      as (v' & d' & -> & Hv' & Hd' & Hdi' & Hdone' & Hun' & Hcl' & Hmono').
    + split; [done|]. split; [by rewrite vsize_insert|]. split; [done|].
      split; [rewrite Hd1; by destruct (decide (i = i))|].
      split; [rewrite Hd1; by destruct (decide (i = i))|].
      split; [by apply Hun|]. split; [|split; [|split]].
      * intros k x Hk Hdk Hx. rewrite Hd1 in Hdk.
        destruct (decide (k = i)); [done|]. split; [by apply Hdone|].
        rewrite Hd1. destruct (decide (x = i)); [done|].
        by rewrite <- (Hcl k x Hx).
      * intros k Hdk. rewrite Hd1 in Hdk. destruct (decide (k = i)); [done|].
        by apply Hun.
      * intros k x Hx Hdx. rewrite Hd1 in Hdx. rewrite Hd1.
        destruct (decide (x = i)) as [->|]; [by left|]. right.
        rewrite <- (Hcl k x Hx) in Hdx.
        destruct (decide (k = i)) as [->|]; [congruence|]. done.
      * intros k Hk. rewrite Hd1. by destruct (decide (k = i)).
    + pose proof (count_false_le (<[Z.to_nat i := true]> d)) as Hle.
      apply vget_Some in Hdi as [_ Hdi].
      pose proof (count_false_insert d (Z.to_nat i) Hdi) as Hdec.
      pose proof (count_false_le d) as Hle0.
      unfold vsize in Hv, Hd. lia.
    + exists (v', d'). split; [done|]. repeat (split; [done|]).
      simpl. split; [|done]. intros k Hk.
      destruct (decide (k = i)) as [->|]; [done|].
      apply Hmono'. apply Hlow. lia.
Qed.

(* apply_vector_permutation_in_place with a permutation of the indices
   returns, and leaves vec[p[k]] at position k. *)
Lemma apply_vector_permutation_in_place_run :
  exists vec',
    apply_vector_permutation_in_place vec p = Ok vec' /\ gathered p vec vec'.
Proof.
  unfold apply_vector_permutation_in_place.
  assert (Hn : 0 <= n) by (rewrite <- Hvec; apply vsize_nonneg).
  destruct (for_range_total settled 0 (vsize vec) (permute_step p)
              (vec, replicate (length vec) false)) as ((v' & d') & -> & Hend).
  - lia.
  - split; [done|]. simpl. split; [rewrite vsize_replicate; unfold vsize in Hvec; lia|].
    split; [lia|]. split; [|split].
    + intros k x Hk _. simpl in Hk. apply vget_Some in Hk as [_ Hk].
      by apply lookup_replicate in Hk as [? _].
    + done.
    + intros k x Hx. destruct (p_domain _ _ Hx) as [Hk Hxr]. simpl.
      rewrite !vget_replicate by (unfold vsize in Hvec; lia). done.
  - intros i st Hi. apply permute_step_run. lia.
  - exists v'. split; [done|].
    destruct Hend as (Hv' & Hd' & Hlow & Hdone & _). simpl in *.
    split; [lia|]. intros k x Hx. destruct (p_domain _ _ Hx) as [Hk _].
    apply Hdone; [|done]. apply Hlow. lia.
Qed.
End cycle_following.
(** ** Canonical ordering: the comparator *)

Lemma tier_key_Z (X : list Z) : tier_key (eqZ X) (ltZ X).
Proof.
  unfold eqZ, ltZ. split; intros; lia.
Qed.

Lemma Qltb_swap (a b : Q) : Qeq_bool a b = false -> Qltb a b = negb (Qltb b a).
Proof.
  intros H. assert (Hne : ~ (a == b)%Q).
  { intros E. apply Qeq_bool_iff in E. congruence. }
  destruct (Qltb a b) eqn:E1, (Qltb b a) eqn:E2; try done.
  - apply Qltb_lt in E1, E2. lra.
  - apply Qltb_ge in E1, E2. exfalso. apply Hne. lra.
Qed.

Lemma tier_key_Q (X : list Q) : tier_key (eqQ X) (ltQ X).
Proof.
  unfold eqQ, ltQ. split.
  - intros i. by apply Qeq_bool_iff.
  - intros i j. destruct (Qeq_bool (read _ X i) _) eqn:E1,
      (Qeq_bool (read _ X j) _) eqn:E2; try done.
    + apply Qeq_bool_iff in E1. symmetry in E1. apply Qeq_bool_iff in E1. congruence.
    + apply Qeq_bool_iff in E2. symmetry in E2. apply Qeq_bool_iff in E2. congruence.
  - intros i j k E1%Qeq_bool_iff E2%Qeq_bool_iff. apply Qeq_bool_iff.
    by rewrite E1.
  - intros i j. apply Qltb_swap.
  - intros i j k E1%Qltb_lt E2%Qltb_lt. apply Qltb_lt. lra.
  - intros i j E1%Qltb_lt. destruct (Qeq_bool _ _) eqn:E; [|done].
    apply Qeq_bool_iff in E. lra.
  - intros i j k E%Qeq_bool_iff.
    destruct (Qltb (read _ X i) _) eqn:E1, (Qltb (read _ X j) _) eqn:E2; try done.
    + apply Qltb_lt in E1. apply Qltb_ge in E2. lra.
    + apply Qltb_lt in E2. apply Qltb_ge in E1. lra.
  - intros i j k E%Qeq_bool_iff.
    destruct (Qltb _ (read _ X j)) eqn:E1, (Qltb _ (read _ X k)) eqn:E2; try done.
    + apply Qltb_lt in E1. apply Qltb_ge in E2. lra.
    + apply Qltb_lt in E2. apply Qltb_ge in E1. lra.
Qed.

(* A key line in front of an order that is strict and total among the
   indices with equal keys gives a strict total order. *)
Lemma tier_strict_order eqb ltb rest :
  tier_key eqb ltb ->
  (forall i, rest i i = false) ->
  (forall i j, eqb i j = true -> i <> j -> rest i j = negb (rest j i)) ->
  (forall i j k, eqb i j = true -> eqb j k = true ->
     rest i j = true -> rest j k = true -> rest i k = true) ->
  strict_order (tier eqb ltb rest).
Proof.
  intros [Hrefl Hsym Htr Htot Hlt Hirr Hl Hr] Rirr Rtot Rtr.
  unfold tier. split.
  - intros i. rewrite Hrefl. apply Rirr.
  - intros i j Hne. rewrite (Hsym j i).
    destruct (eqb i j) eqn:E; simpl; [by apply Rtot|by apply Htot].
  - intros i j k.
    destruct (eqb i j) eqn:Eij, (eqb j k) eqn:Ejk; simpl.
    + rewrite (Htr i j k Eij Ejk). simpl. by apply Rtr.
    + intros _ Hjk. rewrite (Hl i j k Eij).
      destruct (eqb i k) eqn:Eik; simpl; [|done].
      rewrite Hsym in Eij. by rewrite (Htr j i k Eij Eik) in Ejk.
    + intros Hij _. rewrite <- (Hr i j k Ejk).
      destruct (eqb i k) eqn:Eik; simpl; [|done].
      rewrite Hsym in Ejk. by rewrite (Htr i k j Eik Ejk) in Eij.
    + intros Hij Hjk.
      destruct (eqb i k) eqn:Eik; simpl; [|by eapply Hlt].
      exfalso. rewrite (Hl i k j Eik) in Hij.
      rewrite (Htot j k Ejk), Hij in Hjk. done.
Qed.

Lemma strict_order_rest r eqb :
  strict_order r ->
  (forall i, r i i = false) /\
  (forall i j, eqb i j = true -> i <> j -> r i j = negb (r j i)) /\
  (forall i j k, eqb i j = true -> eqb j k = true ->
     r i j = true -> r j k = true -> r i k = true).
Proof.
  intros [Hirr Htot Htr]. split; [done|]. split.
  - intros i j _. apply Htot.
  - intros i j k _ _. apply Htr.
Qed.

Lemma tier_strict_order' eqb ltb rest :
  tier_key eqb ltb -> strict_order rest -> strict_order (tier eqb ltb rest).
Proof.
  intros Hk Hr. destruct (strict_order_rest rest eqb Hr) as (? & ? & ?).
  by apply tier_strict_order.
Qed.

Lemma Zltb_strict_order : strict_order Z.ltb.
Proof. split; intros; lia. Qed.

Lemma common_tiers_strict_order c : strict_order (common_tiers c Z.ltb).
Proof.
  unfold common_tiers.
  repeat (apply tier_strict_order'; [first [apply tier_key_Z|apply tier_key_Q]|]).
  apply Zltb_strict_order.
Qed.

(* The lambda of get_permutation_vector is a strict total order. *)
Lemma lessb_strict_order c : strict_order (lessb c).
Proof.
  unfold lessb, keys_less.
  pose proof (common_tiers_strict_order c) as Hc.
  pose proof (tier_strict_order' _ _ _ (tier_key_Z (SegmentTypeAtomicNumber c)) Hc) as Ha.
  apply tier_strict_order; [apply tier_key_Z| | |].
  - intros i. destruct (monoatomic_ion c i); [apply Ha|apply Hc].
  - intros i j E Hne. unfold monoatomic_ion, eqZ in *.
    apply Z.eqb_eq in E. rewrite <- E.
    destruct (_ || _); [by apply Ha|by apply Hc].
  - intros i j k E1 E2. unfold monoatomic_ion, eqZ in *.
    apply Z.eqb_eq in E1, E2. rewrite <- E1.
    destruct (_ || _); [apply Ha|apply Hc].
Qed.

Lemma vget_read {A} (d : A) (X : list A) i :
  0 <= i < vsize X -> vget X i = Some (read d X i).
Proof.
  intros Hi. unfold read.
  by destruct (proj1 (vget_is_Some X i) Hi) as [x ->].
Qed.

Lemma tierZ_tier X i j rest :
  0 <= i < vsize X -> 0 <= j < vsize X ->
  tierZ X i j (Some (rest i j)) = Some (tier (eqZ X) (ltZ X) rest i j).
Proof.
  intros Hi Hj. unfold tierZ, tier, eqZ, ltZ.
  rewrite (vget_read 0 X i Hi), (vget_read 0 X j Hj). simpl.
  by destruct (negb _).
Qed.

Lemma tierQ_tier X i j rest :
  0 <= i < vsize X -> 0 <= j < vsize X ->
  tierQ X i j (Some (rest i j)) = Some (tier (eqQ X) (ltQ X) rest i j).
Proof.
  intros Hi Hj. unfold tierQ, tier, eqQ, ltQ.
  rewrite (vget_read 0%Q X i Hi), (vget_read 0%Q X j Hj). simpl.
  by destruct (negb _).
Qed.

(* Inside parallel vectors the lambda reads in bounds and is [lessb]. *)
Lemma less_lessb c i j :
  parallel c -> 0 <= i < size c -> 0 <= j < size c ->
  less c i j = Some (lessb c i j).
Proof.
  intros [Pg Ps Psc Pan Pa] Hi Hj. unfold less, lessb, keys_less.
  rewrite (vget_read 0 (SegmentTypeGroup c) i) by lia.
  rewrite (vget_read 0 (SegmentTypeGroup c) j) by lia. simpl.
  unfold tier at 1. unfold eqZ at 1. unfold ltZ at 1.
  destruct (negb (read 0 (SegmentTypeGroup c) i =? read 0 (SegmentTypeGroup c) j));
    [done|].
  assert (Hrest :
    tierQ (SegmentTypeSigma c) i j
      (tierQ (SegmentTypeSigmaCorr c) i j
         (tierZ (SegmentTypeHBtype c) i j
            (tierZ (SegmentTypeAtomicNumber c) i j (Some (i <? j)))))
    = Some (common_tiers c Z.ltb i j)).
  { unfold common_tiers.
    rewrite (tierZ_tier (SegmentTypeAtomicNumber c) i j Z.ltb) by lia.
    rewrite (tierZ_tier (SegmentTypeHBtype c) i j) by (unfold size in *; lia).
    rewrite (tierQ_tier (SegmentTypeSigmaCorr c) i j) by lia.
    rewrite (tierQ_tier (SegmentTypeSigma c) i j) by lia. done. }
  rewrite Hrest. unfold monoatomic_ion.
  destruct (_ || _); [|done].
  by rewrite (tierZ_tier (SegmentTypeAtomicNumber c) i j) by lia.
Qed.

(** ** Canonical ordering: std::sort *)

Section sorting.
Variables (lt : Z -> Z -> option bool) (ltb : Z -> Z -> bool).
Hypothesis Hord : strict_order ltb.

Let R := fun i j => ltb i j = true.

Lemma sort_insert_run x s :
  (forall i j, i ∈ x :: s -> j ∈ x :: s -> lt i j = Some (ltb i j)) ->
  x ∉ s -> StronglySorted R s ->
  exists s', sort_insert lt x s = Some s' /\ s' ≡ₚ x :: s /\ StronglySorted R s'.
Proof.
  destruct Hord as [Hirr Htot Htr].
  induction s as [|y s IH]; intros Hlt Hx Hs.
  - exists [x]. split; [done|]. split; [done|].
    apply SSorted_cons; [constructor|constructor].
  - simpl. rewrite Hlt by (rewrite !elem_of_cons; auto). simpl.
    apply StronglySorted_inv in Hs as [Hs Hy].
    apply not_elem_of_cons in Hx as [Hxy Hx].
    destruct (ltb x y) eqn:Exy.
    + exists (x :: y :: s). split; [done|]. split; [done|].
      apply SSorted_cons; [by apply SSorted_cons|].
      apply Forall_cons. split; [done|].
      eapply Forall_impl; [exact Hy|]. intros z Hz. by eapply Htr.
    + destruct IH as (s' & -> & Hperm & Hs'); [|done|done|].
      { intros i j Hi Hj. apply Hlt; rewrite !elem_of_cons in *; tauto. }
      exists (y :: s'). split; [done|]. split.
      * rewrite Hperm. apply Permutation_swap.
      * apply SSorted_cons; [done|]. rewrite Hperm. apply Forall_cons. split; [|done].
        unfold R. rewrite Htot by done. by rewrite Exy.
Qed.

(* The contract of std::sort for a comparator that is a strict total order
   on the elements of the range. *)
Lemma std_sort_run l :
  (forall i j, i ∈ l -> j ∈ l -> lt i j = Some (ltb i j)) ->
  NoDup l ->
  exists s, std_sort lt l = Some s /\ s ≡ₚ l /\ StronglySorted R s.
Proof.
  induction l as [|x l IH]; intros Hlt Hnd.
  - exists []. split; [done|]. split; [done|]. constructor.
  - apply NoDup_cons in Hnd as [Hx Hnd].
    destruct IH as (s & Hs & Hperm & Hsorted); [|done|].
    { intros i j Hi Hj. apply Hlt; rewrite elem_of_cons; auto. }
    simpl. rewrite Hs. simpl.
    destruct (sort_insert_run x s) as (s' & -> & Hperm' & Hsorted').
    + intros i j Hi Hj. apply Hlt; by rewrite <- Hperm.
    + by rewrite Hperm.
    + done.
    + exists s'. split; [done|]. split; [|done]. by rewrite Hperm', Hperm.
Qed.

(* The sorted arrangement is the only one. *)
Lemma sorted_unique s1 s2 :
  StronglySorted R s1 -> StronglySorted R s2 -> s1 ≡ₚ s2 -> s1 = s2.
Proof.
  apply StronglySorted_unique. intros i j Hij Hji.
  destruct Hord as [Hirr Htot Htr].
  destruct (decide (i = j)) as [|Hne]; [done|].
  unfold R in *. rewrite Htot in Hij by done. by rewrite Hji in Hij.
Qed.
End sorting.

(** ** Canonical ordering: get_permutation_vector and the six permutations *)

Lemma elem_of_vget {A} (X : list A) x : x ∈ X <-> exists k, vget X k = Some x.
Proof.
  rewrite list_elem_of_lookup. split.
  - intros [i Hi]. exists (Z.of_nat i). apply vget_Some. split; [lia|].
    by rewrite Nat2Z.id.
  - intros [k [_ Hk]%vget_Some]. by exists (Z.to_nat k).
Qed.

Lemma vget_ext {A} (X Y : list A) : (forall k, vget X k = vget Y k) -> X = Y.
Proof.
  intros H. apply list_eq. intros i. specialize (H (Z.of_nat i)).
  unfold vget in H. destruct (decide (0 <= Z.of_nat i)); [|lia].
  by rewrite Nat2Z.id in H.
Qed.

Lemma vget_seqZ n k : vget (seqZ 0 n) k = if decide (0 <= k < n) then Some k else None.
Proof.
  destruct (decide (0 <= k < n)) as [Hk|Hk].
  - apply vget_Some. split; [lia|]. rewrite lookup_seqZ_lt by lia. f_equal. lia.
  - apply vget_None. unfold vsize. rewrite length_seqZ. lia.
Qed.

Lemma permutation_is_permutation n p :
  0 <= n -> p ≡ₚ seqZ 0 n -> is_permutation n p.
Proof.
  intros Hn Hp. split; [|split].
  - unfold vsize. rewrite Hp, length_seqZ. lia.
  - intros k x Hx. assert (Hin : x ∈ p) by (apply elem_of_vget; eauto).
    rewrite Hp in Hin. apply elem_of_seqZ in Hin. lia.
  - intros k1 k2 x [H1 E1]%vget_Some [H2 E2]%vget_Some.
    assert (Hnd : NoDup p) by (rewrite Hp; apply NoDup_seqZ).
    pose proof (NoDup_lookup _ _ _ _ Hnd E1 E2). lia.
Qed.

(* get_permutation_vector returns the sorted arrangement of the indices. *)
Lemma get_permutation_vector_run c :
  parallel c ->
  exists p,
    get_permutation_vector c = Some p /\
    p ≡ₚ seqZ 0 (size c) /\
    StronglySorted (fun i j => lessb c i j = true) p.
Proof.
  intros Hpar. unfold get_permutation_vector.
  rewrite (parallel_group _ Hpar).
  apply std_sort_run.
  - apply lessb_strict_order.
  - intros i j Hi%elem_of_seqZ Hj%elem_of_seqZ. apply less_lessb; [done|lia|lia].
  - apply NoDup_seqZ.
Qed.

(* The six calls of apply_vector_permutation_in_place return. *)
Lemma sort_permute_run c p :
  parallel c -> is_permutation (size c) p ->
  exists c1, sort_permute p c = Ok c1 /\ permuted p c c1.
Proof.
  intros [Pg Ps Psc Pan Pa] Hp. unfold sort_permute.
  destruct (apply_vector_permutation_in_place_run (size c) p
              (SegmentTypeGroup c) Hp Pg) as (g & -> & Hg).
  cbn [in_place with_vectors SegmentTypeGroup SegmentTypeSigma
       SegmentTypeSigmaCorr SegmentTypeHBtype SegmentTypeAtomicNumber
       SegmentTypeAreas].
  destruct (apply_vector_permutation_in_place_run (size c) p
              (SegmentTypeSigma c) Hp Ps) as (s & -> & Hs).
  cbn [in_place with_vectors SegmentTypeGroup SegmentTypeSigma
       SegmentTypeSigmaCorr SegmentTypeHBtype SegmentTypeAtomicNumber
       SegmentTypeAreas].
  destruct (apply_vector_permutation_in_place_run (size c) p
              (SegmentTypeSigmaCorr c) Hp Psc) as (sc & -> & Hsc).
  cbn [in_place with_vectors SegmentTypeGroup SegmentTypeSigma
       SegmentTypeSigmaCorr SegmentTypeHBtype SegmentTypeAtomicNumber
       SegmentTypeAreas].
  destruct (apply_vector_permutation_in_place_run (size c) p
              (SegmentTypeHBtype c) Hp eq_refl) as (h & -> & Hh).
  cbn [in_place with_vectors SegmentTypeGroup SegmentTypeSigma
       SegmentTypeSigmaCorr SegmentTypeHBtype SegmentTypeAtomicNumber
       SegmentTypeAreas].
  destruct (apply_vector_permutation_in_place_run (size c) p
              (SegmentTypeAtomicNumber c) Hp Pan) as (an & -> & Han).
  cbn [in_place with_vectors SegmentTypeGroup SegmentTypeSigma
       SegmentTypeSigmaCorr SegmentTypeHBtype SegmentTypeAtomicNumber
       SegmentTypeAreas].
  destruct (apply_vector_permutation_in_place_run (size c) p
              (SegmentTypeAreas c) Hp Pa) as (a & -> & Ha).
  cbn [in_place with_vectors SegmentTypeGroup SegmentTypeSigma
       SegmentTypeSigmaCorr SegmentTypeHBtype SegmentTypeAtomicNumber
       SegmentTypeAreas].
  eexists. split; [reflexivity|]. by split.
Qed.

(** ** Canonical ordering: the group bounds *)

Lemma vget_vset {A} (X X' : list A) t x g :
  vset X t x = Some X' ->
  vsize X' = vsize X /\ vget X' g = if decide (g = t) then Some x else vget X g.
Proof.
  intros [Ht ->]%vset_Some. split; [apply vsize_insert|]. by apply vget_insert.
Qed.

Lemma vset_is_Some {A} (X : list A) t x :
  0 <= t < vsize X -> exists X', vset X t x = Some X'.
Proof.
  intros Ht. destruct (vset X t x) eqn:E; [by eexists|].
  by apply vset_None in E.
Qed.

(* Two runs of one loop in lock step. *)
Lemma for_range_sim {S} (Rel : Z -> S -> S -> Prop) lo hi
    (body : Z -> S -> result S) sa sb sa' :
  lo <= hi -> Rel lo sa sb ->
  (forall i s1 s2 s1', lo <= i < hi -> Rel i s1 s2 -> body i s1 = Ok s1' ->
     exists s2', body i s2 = Ok s2' /\ Rel (i + 1) s1' s2') ->
  for_range lo hi body sa = Ok sa' ->
  exists sb', for_range lo hi body sb = Ok sb' /\ Rel hi sa' sb'.
Proof.
  unfold for_range. intros Hle.
  remember (Z.to_nat (hi - lo)) as n eqn:Hn.
  revert lo sa sb Hle Hn. induction n as [|n IH]; intros lo sa sb Hle Hn H0 Hstep.
  - simpl. intros [= <-]. exists sb. split; [done|]. by replace hi with lo by lia.
  - simpl. destruct (body lo sa) as [s1|f s1] eqn:Ha; [|done].
    destruct (Hstep lo sa sb s1 ltac:(lia) H0 Ha) as (s2 & -> & Hrel).
    apply IH; [lia|lia|done|].
    intros i t1 t2 t1' Hi. apply Hstep. lia.
Qed.

Section scan.
Variables (group lo0 up0 : list Z).
Hypothesis Hgroups : forall g, g ∈ group -> 0 <= g <= 6.
Hypothesis Hlo0 : vsize lo0 = 7.
Hypothesis Hup0 : vsize up0 = 7.

Lemma scan_step_run i st :
  0 <= i < vsize group -> scanning group lo0 up0 i st ->
  exists st', scan_step group i st = Ok st' /\ scanning group lo0 up0 (i + 1) st'.
Proof.
  intros Hi (Hlo & Hup & Ht & Hframe). unfold scan_step.
  destruct (proj1 (vget_is_Some group i) Hi) as [g Hg]. rewrite Hg.
  assert (Hgin : g ∈ group) by (apply elem_of_vget; eauto).
  pose proof (Hgroups g Hgin) as Hgr.
  assert (Hnext : (if decide (i + 1 = 0) then g = -1
                   else vget group (i + 1 - 1) = Some g)).
  { destruct (decide (i + 1 = 0)); [lia|]. by replace (i + 1 - 1) with i by lia. }
  destruct (Z.eqb_spec (temporaryindex st) g) as [E|Hne]; simpl.
  - exists st. split; [done|]. split; [done|]. split; [done|]. split; [|done].
    by rewrite E.
  - assert (Hup1 : exists up,
      (if negb (temporaryindex st =? -1)
       then vset (scan_upper st) (temporaryindex st) i
       else Some (scan_upper st)) = Some up /\
      vsize up = 7 /\
      forall g', g' ∉ group -> vget up g' = vget (scan_upper st) g').
    { destruct (Z.eqb_spec (temporaryindex st) (-1)) as [E|Hn1]; simpl.
      - by exists (scan_upper st).
      - destruct (decide (i = 0)) as [->|Hi0]; [done|].
        assert (Htin : temporaryindex st ∈ group) by (apply elem_of_vget; eauto).
        pose proof (Hgroups _ Htin) as Htr.
        destruct (vset_is_Some (scan_upper st) (temporaryindex st) i ltac:(lia))
          as [up Hset].
        exists up. split; [done|].
        split; [by rewrite (proj1 (vget_vset _ _ _ _ 0 Hset))|].
        intros g' Hg'. rewrite (proj2 (vget_vset _ _ _ _ g' Hset)).
        destruct (decide (g' = temporaryindex st)) as [->|]; done. }
    destruct Hup1 as (up & -> & Hupsz & Hupframe).
    destruct (vset_is_Some (scan_lower st) g i ltac:(lia)) as [lo Hset].
    rewrite Hset. exists (mkScan lo up g). split; [done|].
    split; [simpl; by rewrite (proj1 (vget_vset _ _ _ _ 0 Hset))|].
    split; [done|]. split; [done|]. simpl.
    intros g' Hg'. rewrite (proj2 (vget_vset _ _ _ _ g' Hset)).
    destruct (decide (g' = g)) as [->|]; [done|].
    rewrite Hupframe by done. by apply Hframe.
Qed.

(* The scan returns; temporaryindex ends as the group of the last segment
   type, or as -1 when there is none. *)
Lemma scan_run :
  exists st,
    for_range 0 (vsize group) (scan_step group) (mkScan lo0 up0 (-1)) = Ok st /\
    scanning group lo0 up0 (vsize group) st.
Proof.
  apply (for_range_total (scanning group lo0 up0)).
  - apply vsize_nonneg.
  - by repeat split.
  - intros i st Hi. by apply scan_step_run.
Qed.
End scan.

Lemma same_writes_vset X0 Y0 X Y t x X' :
  same_writes X0 Y0 X Y -> vset X t x = Some X' ->
  exists Y', vset Y t x = Some Y' /\ same_writes X0 Y0 X' Y'.
Proof.
  intros [Hsz Hw] Hset.
  pose proof (proj1 (vset_Some _ _ _ _) Hset) as [Ht _].
  destruct (vset_is_Some Y t x ltac:(lia)) as [Y' HY'].
  exists Y'. split; [done|]. split.
  - rewrite (proj1 (vget_vset _ _ _ _ 0 Hset)), (proj1 (vget_vset _ _ _ _ 0 HY')). done.
  - intros g. rewrite (proj2 (vget_vset _ _ _ _ g Hset)),
      (proj2 (vget_vset _ _ _ _ g HY')).
    destruct (decide (g = t)); [by left|apply Hw].
Qed.

(* A second scan of the same group vector performs the same writes. *)
Lemma scan_step_sim group lo_a up_a lo_b up_b i sa sb sa' :
  scans_related lo_a up_a lo_b up_b sa sb ->
  scan_step group i sa = Ok sa' ->
  exists sb', scan_step group i sb = Ok sb' /\
              scans_related lo_a up_a lo_b up_b sa' sb'.
Proof.
  intros (Ht & Hlo & Hup). unfold scan_step. rewrite <- Ht.
  destruct (vget group i) as [g|]; [|done].
  destruct (negb (temporaryindex sa =? g)); [|intros [= <-]; by exists sb].
  destruct (negb (temporaryindex sa =? -1)).
  - destruct (vset (scan_upper sa) _ i) as [up|] eqn:Hset1; [|done].
    destruct (same_writes_vset _ _ _ _ _ _ _ Hup Hset1) as (up' & -> & Hup').
    destruct (vset (scan_lower sa) g i) as [lo|] eqn:Hset2; [|done].
    destruct (same_writes_vset _ _ _ _ _ _ _ Hlo Hset2) as (lo' & -> & Hlo').
    intros [= <-]. by eexists.
  - destruct (vset (scan_lower sa) g i) as [lo|] eqn:Hset2; [|done].
    destruct (same_writes_vset _ _ _ _ _ _ _ Hlo Hset2) as (lo' & -> & Hlo').
    intros [= <-]. by eexists.
Qed.

Lemma count_step_run lo up cnt i cur :
  0 <= i -> counting lo up cnt i cur ->
  match count_step lo up i cur with
  | Ok cur' => counting lo up cnt (i + 1) cur'
  | Halt _ _ => ~ (i < vsize lo /\ i < vsize up /\ i < vsize cnt)
  end.
Proof.
  intros Hi (Hsz & Hdone & Hrest). unfold count_step.
  destruct (vget up i) as [u|] eqn:Hu; [|apply vget_None in Hu; lia].
  destruct (vget lo i) as [l|] eqn:Hl; [|apply vget_None in Hl; lia].
  destruct (vset cur i _) as [cur'|] eqn:Hset; [|apply vset_None in Hset; lia].
  split; [by rewrite (proj1 (vget_vset _ _ _ _ 0 Hset))|]. split.
  - intros k Hk. rewrite (proj2 (vget_vset _ _ _ _ k Hset)).
    destruct (decide (k = i)) as [->|]; [by exists u, l|]. apply Hdone. lia.
  - intros k Hk. rewrite (proj2 (vget_vset _ _ _ _ k Hset)).
    destruct (decide (k = i)) as [->|]; [lia|]. apply Hrest. lia.
Qed.

Lemma count_loop_run lo up cnt :
  match for_range 0 7 (count_step lo up) cnt with
  | Ok cnt' => counting lo up cnt 7 cnt'
  | Halt _ _ => ~ (7 <= vsize lo /\ 7 <= vsize up /\ 7 <= vsize cnt)
  end.
Proof.
  pose proof (for_range_inv (counting lo up cnt) 0 7 (count_step lo up) cnt
                ltac:(lia)) as Hinv.
  lapply Hinv; [intros Hinv'; lapply Hinv'|].
  - destruct (for_range _ _ _ _) as [cnt'|f cnt']; [done|].
    intros (i & cur & Hi & Hcur & Hhalt).
    pose proof (count_step_run lo up cnt i cur ltac:(lia) Hcur) as H.
    rewrite Hhalt in H. destruct Hcur as (Hsz & _). lia.
  - intros i cur cur' Hi Hcur Hok.
    pose proof (count_step_run lo up cnt i cur ltac:(lia) Hcur) as H.
    by rewrite Hok in H.
  - split; [done|]. split; [lia|done].
Qed.

(* The counts are a function of the two bound arrays. *)
Lemma count_loop_idem lo up cnt cnt' :
  for_range 0 7 (count_step lo up) cnt = Ok cnt' ->
  for_range 0 7 (count_step lo up) cnt' = Ok cnt'.
Proof.
  intros Hrun. pose proof (count_loop_run lo up cnt) as H1. rewrite Hrun in H1.
  destruct H1 as (Hsz & Hdone & Hrest).
  pose proof (count_loop_run lo up cnt') as H2.
  destruct (for_range 0 7 (count_step lo up) cnt') as [cnt''|f cnt''].
  - f_equal. destruct H2 as (Hsz' & Hdone' & Hrest'). apply vget_ext. intros k.
    destruct (decide (0 <= k < 7)) as [Hk|Hk].
    + destruct (Hdone k Hk) as (u & l & Hu & Hl & ->).
      destruct (Hdone' k Hk) as (u' & l' & Hu' & Hl' & ->). congruence.
    + by apply Hrest'.
  - exfalso. apply H2.
    destruct (Hdone 6 ltac:(lia)) as (u & l & Hu%vget_range & Hl%vget_range
                                      & Hc%vget_range). lia.
Qed.

(** ** Canonical ordering: sort *)

(* sort_bounds on a collection with at least one segment type returns; the
   entries of groups without member keep their bounds. *)
Lemma sort_bounds_run c :
  sortable c -> 0 < size c ->
  exists lo up cnt,
    sort_bounds c = Ok (with_bounds lo up cnt c) /\
    vsize lo = 7 /\ vsize up = 7 /\ vsize cnt = 7 /\
    (forall g, g ∉ SegmentTypeGroup c ->
       vget lo g = vget (lowerBoundIndexForGroup c) g /\
       vget up g = vget (upperBoundIndexForGroup c) g) /\
    (forall g, 0 <= g < 7 ->
       exists u l, vget up g = Some u /\ vget lo g = Some l /\
                   vget cnt g = Some (Z.max (u - l) 0)).
Proof.
  intros [Hpar Hgr Hlo Hup Hcnt] Hn. unfold sort_bounds.
  rewrite <- (parallel_group _ Hpar).
  destruct (scan_run (SegmentTypeGroup c) (lowerBoundIndexForGroup c)
              (upperBoundIndexForGroup c) Hgr Hlo Hup)
    as (st & -> & Hslo & Hsup & Ht & Hframe).
  rewrite (parallel_group _ Hpar) in *.
  destruct (decide (size c = 0)); [lia|].
  assert (Htin : temporaryindex st ∈ SegmentTypeGroup c)
    by (apply elem_of_vget; eauto).
  pose proof (Hgr _ Htin) as Htr.
  destruct (vset_is_Some (scan_upper st) (temporaryindex st) (size c) ltac:(lia))
    as [up Hset].
  rewrite Hset.
  pose proof (vget_vset _ _ _ _ 0 Hset) as [Hupsz _].
  pose proof (count_loop_run (scan_lower st) up (numberOfSegmentsForGroup c)) as Hc.
  destruct (for_range 0 7 _ _) as [cnt|f cnt]; [|exfalso; apply Hc; lia].
  destruct Hc as (Hcsz & Hcdone & _).
  exists (scan_lower st), up, cnt. split; [done|].
  split; [done|]. split; [lia|]. split; [lia|]. split; [|done].
  intros g Hg. destruct (Hframe g Hg) as [E1 E2]. split; [done|].
  rewrite (proj2 (vget_vset _ _ _ _ g Hset)).
  destruct (decide (g = temporaryindex st)) as [->|]; done.
Qed.

(* The scan keeps the lengths of the two bound arrays. *)
Lemma scan_lengths group n st0 st :
  for_range 0 n (scan_step group) st0 = Ok st ->
  vsize (scan_lower st) = vsize (scan_lower st0) /\
  vsize (scan_upper st) = vsize (scan_upper st0).
Proof.
  intros Hrun. destruct (Z.le_gt_cases 0 n) as [Hn|Hn].
  - pose proof (for_range_inv
      (fun _ s => vsize (scan_lower s) = vsize (scan_lower st0) /\
                  vsize (scan_upper s) = vsize (scan_upper st0))
      0 n (scan_step group) st0 Hn ltac:(done)) as Hinv.
    rewrite Hrun in Hinv. apply Hinv.
    intros i s0 s1 _ [E1 E2]. unfold scan_step.
    destruct (vget group i) as [g|]; [|done].
    destruct (negb (temporaryindex s0 =? g)); [|by intros [= <-]].
    destruct (negb (temporaryindex s0 =? -1)).
    + destruct (vset (scan_upper s0) _ i) as [up|] eqn:H1; [|done].
      destruct (vset (scan_lower s0) g i) as [lo|] eqn:H2; [|done].
      intros [= <-]. simpl.
      rewrite (proj1 (vget_vset _ _ _ _ 0 H1)), (proj1 (vget_vset _ _ _ _ 0 H2)).
      done.
    + destruct (vset (scan_lower s0) g i) as [lo|] eqn:H2; [|done].
      intros [= <-]. simpl. by rewrite (proj1 (vget_vset _ _ _ _ 0 H2)).
  - rewrite for_range_empty in Hrun by lia. by injection Hrun as <-.
Qed.

(* sort_bounds on the collection it returned changes nothing. *)
Lemma sort_bounds_idem c c' : sort_bounds c = Ok c' -> sort_bounds c' = Ok c'.
Proof.
  unfold sort_bounds.
  destruct (for_range 0 (size c) _ _) as [sa|f sa] eqn:Hscan; [|done].
  destruct (vset (scan_upper sa) _ _) as [up|] eqn:Hset; [|done].
  destruct (for_range 0 7 _ _) as [cnt|f cnt] eqn:Hcount; [|done].
  intros [= <-].
  cbn [with_bounds size SegmentTypeHBtype SegmentTypeGroup lowerBoundIndexForGroup
       upperBoundIndexForGroup numberOfSegmentsForGroup].
  change (size (with_bounds (scan_lower sa) up cnt c)) with (size c).
  destruct (for_range_sim
    (fun _ => scans_related (lowerBoundIndexForGroup c) (upperBoundIndexForGroup c)
                (scan_lower sa) up)
    0 (size c) (scan_step (SegmentTypeGroup c))
    (mkScan (lowerBoundIndexForGroup c) (upperBoundIndexForGroup c) (-1))
    (mkScan (scan_lower sa) up (-1)) sa) as (sb & -> & Ht & [Hlsz Hlo] & [Husz Hup]).
  - apply vsize_nonneg.
  - pose proof (scan_lengths (SegmentTypeGroup c) (size c)
                  (mkScan (lowerBoundIndexForGroup c) (upperBoundIndexForGroup c) (-1))
                  sa Hscan) as [E1 E2].
    pose proof (vget_vset _ _ _ _ 0 Hset) as [E3 _]. simpl in *.
    split; [done|]. split; (split; [simpl; congruence|]); intros g; by right.
  - intros i s1 s2 s1' _. apply scan_step_sim.
  - done.
  - assert (Elo : scan_lower sb = scan_lower sa).
    { apply vget_ext. intros g. destruct (Hlo g) as [E|[_ E]]; done. }
    rewrite <- Ht.
    pose proof (proj1 (vset_Some _ _ _ _) Hset) as [Hin _].
    destruct (vset_is_Some (scan_upper sb) (temporaryindex sa) (size c) ltac:(lia))
      as [up' Hset'].
    rewrite Hset'.
    assert (Eup : up' = up).
    { apply vget_ext. intros g.
      rewrite (proj2 (vget_vset _ _ _ _ g Hset')).
      pose proof (proj2 (vget_vset _ _ _ _ g Hset)) as Hg.
      destruct (decide (g = temporaryindex sa)) as [->|]; [done|].
      destruct (Hup g) as [E|[_ E]]; congruence. }
    rewrite Eup, Elo.
    rewrite (count_loop_idem _ _ _ _ Hcount). done.
Qed.

Lemma gathered_elem_of {T} n p (X X1 : list T) x :
  is_permutation n p -> vsize X = n -> gathered p X X1 -> x ∈ X1 -> x ∈ X.
Proof.
  intros (Hlen & _) HX [Hsz Hg] [k Hk]%elem_of_vget.
  pose proof (vget_range _ _ _ Hk) as Hkr.
  destruct (proj1 (vget_is_Some p k) ltac:(lia)) as [y Hy].
  rewrite (Hg k y Hy) in Hk. apply elem_of_vget. eauto.
Qed.

Lemma permuted_sortable n p c c1 :
  is_permutation n p -> size c = n -> sortable c -> permuted p c c1 ->
  sortable c1 /\ size c1 = size c /\
  (forall g, g ∈ SegmentTypeGroup c1 -> g ∈ SegmentTypeGroup c).
Proof.
  intros Hp Hn [[Pg Ps Psc Pan Pa] Hgr Hlo Hup Hcnt]
    [[Gg Hg] [Gs Hs] [Gsc Hsc] [Gh Hh] [Gan Han] [Ga Ha] Et El Eu Ec].
  assert (Hsize : size c1 = size c) by done.
  assert (Hsub : forall g, g ∈ SegmentTypeGroup c1 -> g ∈ SegmentTypeGroup c).
  { intros g. eapply gathered_elem_of; [exact Hp|lia|by split]. }
  split; [|done]. split.
  - split; rewrite Hsize; congruence.
  - intros g Hgin. apply Hgr. by apply Hsub.
  - congruence.
  - congruence.
  - congruence.
Qed.

(* sort on a collection with at least one segment type and groups in
   [0, 6] returns: the vectors are gathered through the sorted arrangement
   of the indices and the bounds are those of sort_bounds. *)
Lemma sort_run c :
  sortable c -> 0 < size c ->
  exists p c1 c2,
    get_permutation_vector c = Some p /\
    p ≡ₚ seqZ 0 (size c) /\
    StronglySorted (fun i j => lessb c i j = true) p /\
    permuted p c c1 /\ sortable c1 /\
    sort_bounds c1 = Ok c2 /\
    sort c = Ok c2.
Proof.
  intros Hs Hn.
  destruct (get_permutation_vector_run c (sortable_parallel _ Hs))
    as (p & Hp & Hperm & Hsorted).
  pose proof (permutation_is_permutation (size c) p ltac:(lia) Hperm) as Hip.
  destruct (sort_permute_run c p (sortable_parallel _ Hs) Hip) as (c1 & Hc1 & Hpm).
  destruct (permuted_sortable _ _ _ _ Hip eq_refl Hs Hpm) as (Hs1 & Hsz1 & Hsub).
  destruct (sort_bounds_run c1 Hs1 ltac:(lia)) as (lo & up & cnt & Hb & _).
  exists p, c1, (with_bounds lo up cnt c1).
  repeat (split; [done|]). unfold sort. by rewrite Hp, Hc1.
Qed.

Lemma add_keeps_bounds m g s sc h an a c c' :
  add m g s sc h an a c = Ok c' ->
  lowerBoundIndexForGroup c' = lowerBoundIndexForGroup c /\
  upperBoundIndexForGroup c' = upperBoundIndexForGroup c /\
  numberOfSegmentsForGroup c' = numberOfSegmentsForGroup c.
Proof.
  assert (Harea : forall idx c0 c1, add_area idx m a c0 = Ok c1 ->
    lowerBoundIndexForGroup c1 = lowerBoundIndexForGroup c0 /\
    upperBoundIndexForGroup c1 = upperBoundIndexForGroup c0 /\
    numberOfSegmentsForGroup c1 = numberOfSegmentsForGroup c0).
  { intros idx c0 c1. unfold add_area.
    destruct (vget (SegmentTypeAreas c0) idx) as [row|]; [|done].
    destruct (vget row m) as [x|]; [|done].
    destruct (vset row m _) as [row'|]; [|done].
    destruct (vset (SegmentTypeAreas c0) idx row') as [areas|]; [|done].
    by intros [= <-]. }
  unfold add. destruct (Qeq_bool a 0); [by intros [= <-]|].
  destruct (add_search _ _ _ _ _ _ _ _) as [idx|]; [|done].
  destruct (idx =? -1).
  - intros H. by apply Harea in H.
  - apply Harea.
Qed.

(* A collection made by segmentTypeCollection(n) and add has the bound
   arrays of its construction. *)
Lemma built_bounds n c :
  built n c ->
  lowerBoundIndexForGroup c = replicate 7 0 /\
  upperBoundIndexForGroup c = replicate 7 0 /\
  numberOfSegmentsForGroup c = replicate 7 0.
Proof.
  induction 1 as [|c c' m g s sc h an a Hb IH Hadd].
  - by rewrite segmentTypeCollection_n_eq.
  - destruct (add_keeps_bounds _ _ _ _ _ _ _ _ _ Hadd) as (-> & -> & ->).
    exact IH.
Qed.

Lemma built_sortable n c :
  built n c -> (forall g, g ∈ SegmentTypeGroup c -> 0 <= g <= 6) -> sortable c.
Proof.
  intros Hb Hg. destruct (built_bounds n c Hb) as (El & Eu & Ec).
  split; [apply (built_well_formed n c Hb)|done| | |].
  - by rewrite El.
  - by rewrite Eu.
  - by rewrite Ec.
Qed.

Lemma built_add_to n c m g s sc h an a :
  built n c -> is_Ok (add m g s sc h an a c) = true ->
  built n (add_to c m g s sc h an a).
Proof.
  intros Hb Hok. unfold add_to.
  destruct (add m g s sc h an a c) as [c'|f c'] eqn:Hadd; [|done].
  by eapply built_add.
Qed.

(** C9 at the empty collection: a collection without segment type, as
    segmentTypeCollection(n) leaves it, makes sort() write
    upperBoundIndexForGroup[temporaryindex] with temporaryindex = -1. *)
Theorem sort_empty_collection_out_of_bounds n :
  size (segmentTypeCollection_n n) = 0 /\
  (forall g, g ∈ SegmentTypeGroup (segmentTypeCollection_n n) -> 0 <= g <= 6) /\
  exists c', sort (segmentTypeCollection_n n) = Halt OutOfBounds c'.
Proof.
  rewrite segmentTypeCollection_n_eq. split; [done|]. split.
  - intros g Hg. simpl in Hg. by apply elem_of_nil in Hg.
  - eexists. vm_compute. reflexivity.
Qed.

(** C6, with the bounds the code leaves: after sort() on a collection made
    by segmentTypeCollection(n) and add, with at least one segment type and
    every group value in [0, 6], every group g without member has
    numberOfSegmentsForGroup[g] = 0 and lowerBoundIndexForGroup[g] =
    upperBoundIndexForGroup[g] = 0, the value they were constructed with. *)
Theorem sort_empty_group_bounds n c :
  built n c -> 0 < size c ->
  (forall g, g ∈ SegmentTypeGroup c -> 0 <= g <= 6) ->
  exists c',
    sort c = Ok c' /\
    forall g, 0 <= g <= 6 -> g ∉ SegmentTypeGroup c ->
      vget (numberOfSegmentsForGroup c') g = Some 0 /\
      vget (lowerBoundIndexForGroup c') g = Some 0 /\
      vget (upperBoundIndexForGroup c') g = Some 0.
Proof.
  intros Hb Hn Hg. pose proof (built_sortable n c Hb Hg) as Hs.
  destruct (built_bounds n c Hb) as (El & Eu & Ec).
  destruct (sort_run c Hs Hn) as (p & c1 & c2 & Hp & Hperm & _ & Hpm & Hs1 & Hb1 & Hsort).
  pose proof (permutation_is_permutation (size c) p ltac:(lia) Hperm) as Hip.
  destruct (permuted_sortable _ _ _ _ Hip eq_refl Hs Hpm) as (_ & Hsz1 & Hsub).
  destruct (sort_bounds_run c1 Hs1 ltac:(lia))
    as (lo & up & cnt & Hb1' & _ & _ & _ & Hframe & Hcount).
  rewrite Hb1 in Hb1'. injection Hb1' as ->.
  exists (with_bounds lo up cnt c1). split; [done|].
  intros g Hgr Hgout. simpl.
  destruct (Hframe g) as [Elo Eup]; [by intros ?%Hsub|].
  rewrite (permuted_lower _ _ _ Hpm), El in Elo.
  rewrite (permuted_upper _ _ _ Hpm), Eu in Eup.
  rewrite vget_replicate in Elo, Eup by lia.
  destruct (Hcount g ltac:(lia)) as (u & l & Hu & Hl & Hc).
  rewrite Hu in Eup. rewrite Hl in Elo. injection Eup as ->. injection Elo as ->.
  done.
Qed.

Lemma sort_empty_group_bounds_witness :
  exists c',
    sort two_group_collection = Ok c' /\
    forall g, 0 <= g <= 6 -> g ∉ SegmentTypeGroup two_group_collection ->
      vget (numberOfSegmentsForGroup c') g = Some 0 /\
      vget (lowerBoundIndexForGroup c') g = Some 0 /\
      vget (upperBoundIndexForGroup c') g = Some 0.
Proof.
  apply (sort_empty_group_bounds 1 two_group_collection).
  - apply built_add_to; [apply built_add_to; [apply built_new|]|]; reflexivity.
  - reflexivity.
  - intros g Hg. vm_compute in Hg.
    apply elem_of_cons in Hg as [->|Hg]; [lia|].
    apply elem_of_cons in Hg as [->|Hg]; [lia|].
    by apply elem_of_nil in Hg.
Defined.

(* C6 with the bounds at the next nonempty group: groups 0 and 2 have one
   member each, group 1 has none; after sort() the next nonempty group after
   1 starts at index 1, but the bounds of group 1 are 0. *)
Lemma empty_group_bounds_stay_zero :
  exists c',
    sort two_group_collection = Ok c' /\
    SegmentTypeGroup c' = [0; 2] /\
    vget (lowerBoundIndexForGroup c') 2 = Some 1 /\
    vget (lowerBoundIndexForGroup c') 1 = Some 0 /\
    vget (upperBoundIndexForGroup c') 1 = Some 0 /\
    vget (lowerBoundIndexForGroup c') 1 <> vget (lowerBoundIndexForGroup c') 2.
Proof.
  eexists. split; [vm_compute; reflexivity|]. repeat split; done.
Qed.

(** ** Canonical ordering: stability and idempotence *)

Lemma StronglySorted_lookup {A} (R : A -> A -> Prop) (l : list A) (i j : nat) x y :
  StronglySorted R l -> l !! i = Some x -> l !! j = Some y -> (i < j)%nat -> R x y.
Proof.
  intros Hs. revert i j. induction Hs as [|a l Hs IH Ha]; intros i j Hi Hj Hlt.
  - done.
  - destruct j as [|j]; [lia|]. simpl in Hj. destruct i as [|i]; simpl in Hi.
    + injection Hi as ->. rewrite Forall_forall in Ha. apply Ha.
      by eapply list_elem_of_lookup_2.
    + eapply IH; [done|done|lia].
Qed.

Lemma StronglySorted_vget (R : Z -> Z -> Prop) (p : list Z) k1 k2 x1 x2 :
  StronglySorted R p -> vget p k1 = Some x1 -> vget p k2 = Some x2 ->
  k1 < k2 -> R x1 x2.
Proof.
  intros Hs [H1 E1]%vget_Some [H2 E2]%vget_Some Hlt.
  eapply StronglySorted_lookup; [done|done|done|lia].
Qed.

Lemma seqZ_strongly_sorted (R : Z -> Z -> Prop) n :
  (forall a b, 0 <= a < b -> b < n -> R a b) -> StronglySorted R (seqZ 0 n).
Proof.
  intros HR.
  assert (H : forall (k : nat) m, 0 <= m -> m + Z.of_nat k <= Z.max 0 n ->
            StronglySorted R (seqZ m (Z.of_nat k))).
  { induction k as [|k IH]; intros m Hm Hk.
    - rewrite seqZ_nil by lia. constructor.
    - rewrite seqZ_cons by lia. apply SSorted_cons.
      + replace (Z.pred (Z.of_nat (S k))) with (Z.of_nat k) by lia.
        apply IH; lia.
      + apply Forall_seqZ. intros b Hb. apply HR; lia. }
  destruct (Z.le_gt_cases n 0) as [Hn|Hn].
  - rewrite seqZ_nil by lia. constructor.
  - replace n with (Z.of_nat (Z.to_nat n)) at 1 by lia. apply H; lia.
Qed.

Lemma read_gathered {A} (d : A) p (X X1 : list A) k x :
  gathered p X X1 -> vget p k = Some x -> read d X1 k = read d X x.
Proof. intros [_ Hg] Hk. unfold read. by rewrite (Hg k x Hk). Qed.

(* The key lines of the lambda see, at position k of the sorted collection,
   the keys of segment type p[k] of the collection before. *)
Lemma keys_less_gathered p c c1 L1 L k1 k2 x1 x2 :
  permuted p c c1 -> vget p k1 = Some x1 -> vget p k2 = Some x2 ->
  L1 k1 k2 = L x1 x2 ->
  keys_less c1 L1 k1 k2 = keys_less c L x1 x2.
Proof.
  intros [Hg Hs Hsc Hh Han _ _ _ _ _] H1 H2 HL.
  unfold keys_less, common_tiers, monoatomic_ion, tier, eqZ, ltZ, eqQ, ltQ.
  rewrite !(read_gathered _ _ _ _ _ _ Hg H1), !(read_gathered _ _ _ _ _ _ Hg H2).
  rewrite !(read_gathered _ _ _ _ _ _ Hs H1), !(read_gathered _ _ _ _ _ _ Hs H2).
  rewrite !(read_gathered _ _ _ _ _ _ Hsc H1), !(read_gathered _ _ _ _ _ _ Hsc H2).
  rewrite !(read_gathered _ _ _ _ _ _ Hh H1), !(read_gathered _ _ _ _ _ _ Hh H2).
  rewrite !(read_gathered _ _ _ _ _ _ Han H1), !(read_gathered _ _ _ _ _ _ Han H2).
  by rewrite HL.
Qed.

(* The last line decides only when every key line passes. *)
Lemma keys_less_last c L i j :
  keys_less c L i j = true -> keys_less c (fun _ _ => true) i j = true.
Proof.
  unfold keys_less, common_tiers, monoatomic_ion, tier.
  repeat match goal with
         | |- context [if ?b then _ else _] => destruct b
         end; auto.
Qed.

Lemma lessb_same_keys c i j : same_keys c i j -> lessb c i j = (i <? j).
Proof.
  intros (Eg & Es & Esc & Eh & Ean).
  unfold lessb, keys_less, common_tiers, tier.
  rewrite Eg, Es, Esc, Eh, Ean. simpl. by destruct (monoatomic_ion c i).
Qed.

Lemma gathered_identity {A} n (X X1 : list A) :
  vsize X = n -> gathered (seqZ 0 n) X X1 -> X1 = X.
Proof.
  intros Hn [Hsz Hg]. apply vget_ext. intros k.
  destruct (decide (0 <= k < n)) as [Hk|Hk].
  - apply Hg. rewrite vget_seqZ. by destruct (decide (0 <= k < n)).
  - rewrite !(proj2 (vget_None _ k)) by lia. done.
Qed.

Lemma permuted_identity c c1 :
  parallel c -> permuted (seqZ 0 (size c)) c c1 -> c1 = c.
Proof.
  intros [Pg Ps Psc Pan Pa] [Hg Hs Hsc Hh Han Ha Et El Eu Ec].
  apply gathered_identity in Hg, Hs, Hsc, Hh, Han, Ha; try done.
  destruct c, c1. simpl in *. congruence.
Qed.

(* The indices of a sorted collection are already in order. *)
Lemma sorted_collection_permutation p c c1 :
  sortable c -> p ≡ₚ seqZ 0 (size c) ->
  StronglySorted (fun i j => lessb c i j = true) p ->
  permuted p c c1 -> parallel c1 -> size c1 = size c ->
  get_permutation_vector c1 = Some (seqZ 0 (size c1)).
Proof.
  intros Hs Hperm Hsorted Hpm Hpar1 Hsz.
  pose proof (permutation_is_permutation (size c) p
                ltac:(apply vsize_nonneg) Hperm) as (Hlen & _).
  destruct (get_permutation_vector_run c1 Hpar1) as (p2 & -> & Hperm2 & Hsorted2).
  f_equal.
  apply (sorted_unique (lessb c1) (lessb_strict_order c1)); [done| |done].
  apply seqZ_strongly_sorted. intros a b Ha Hb.
  destruct (proj1 (vget_is_Some p a) ltac:(lia)) as [xa Hxa].
  destruct (proj1 (vget_is_Some p b) ltac:(lia)) as [xb Hxb].
  pose proof (StronglySorted_vget _ _ _ _ _ _ Hsorted Hxa Hxb ltac:(lia)) as Hlt.
  simpl in Hlt. unfold lessb.
  rewrite (keys_less_gathered p c c1 Z.ltb (fun _ _ => true) a b xa xb Hpm Hxa Hxb)
    by lia.
  by apply keys_less_last in Hlt.
Qed.

(** C7: sort() is stable and idempotent.  On a collection with parallel
    vectors, at least one segment type and group values in [0, 6], sort()
    returns the collection gathered through the permutation vector; two
    segment types that agree on every key the comparator looks at (group,
    sigma, sigmaCorr, hbType, atomicNumber) keep their relative order; and a
    second sort() returns the sorted collection unchanged, vectors and bound
    arrays alike. *)
Theorem sort_stable_and_idempotent c :
  sortable c -> 0 < size c ->
  exists p c1,
    get_permutation_vector c = Some p /\ sort c = Ok c1 /\
    p ≡ₚ seqZ 0 (size c) /\
    gathered p (SegmentTypeGroup c) (SegmentTypeGroup c1) /\
    gathered p (SegmentTypeSigma c) (SegmentTypeSigma c1) /\
    gathered p (SegmentTypeSigmaCorr c) (SegmentTypeSigmaCorr c1) /\
    gathered p (SegmentTypeHBtype c) (SegmentTypeHBtype c1) /\
    gathered p (SegmentTypeAtomicNumber c) (SegmentTypeAtomicNumber c1) /\
    gathered p (SegmentTypeAreas c) (SegmentTypeAreas c1) /\
    (forall k1 k2 x1 x2,
       vget p k1 = Some x1 -> vget p k2 = Some x2 -> same_keys c x1 x2 ->
       (k1 < k2 <-> x1 < x2)) /\
    sort c1 = Ok c1.
Proof.
  intros Hs Hn.
  destruct (sort_run c Hs Hn)
    as (p & c1 & c2 & Hp & Hperm & Hsorted & Hpm & Hs1 & Hb1 & Hsort).
  pose proof (permutation_is_permutation (size c) p ltac:(lia) Hperm) as Hip.
  destruct (permuted_sortable _ _ _ _ Hip eq_refl Hs Hpm) as (_ & Hsz1 & _).
  destruct (sort_bounds_run c1 Hs1 ltac:(lia)) as (lo & up & cnt & Hb1' & _).
  rewrite Hb1 in Hb1'. injection Hb1' as ->.
  exists p, (with_bounds lo up cnt c1).
  split; [done|]. split; [done|]. split; [done|].
  destruct Hpm as [Hg Hsg Hsc Hh Han Ha Et El Eu Ec] eqn:Epm.
  repeat (split; [done|]). split.
  - (* stability *)
    assert (Hfw : forall k1 k2 x1 x2,
              vget p k1 = Some x1 -> vget p k2 = Some x2 -> same_keys c x1 x2 ->
              k1 < k2 -> x1 < x2).
    { intros k1 k2 x1 x2 H1 H2 Hkeys Hlt.
      pose proof (StronglySorted_vget _ _ _ _ _ _ Hsorted H1 H2 Hlt) as Hless.
      simpl in Hless. rewrite (lessb_same_keys _ _ _ Hkeys) in Hless. lia. }
    intros k1 k2 x1 x2 H1 H2 Hkeys. split; [by eapply Hfw|].
    intros Hx. destruct (Z.lt_trichotomy k1 k2) as [?|[->|Hgt]]; [done| |].
    + rewrite H1 in H2. injection H2 as ->. lia.
    + assert (Hkeys' : same_keys c x2 x1).
      { destruct Hkeys as (E1 & E2 & E3 & E4 & E5).
        repeat split.
        - by rewrite (tk_sym _ _ (tier_key_Z _)).
        - by rewrite (tk_sym _ _ (tier_key_Q _)).
        - by rewrite (tk_sym _ _ (tier_key_Q _)).
        - by rewrite (tk_sym _ _ (tier_key_Z _)).
        - by rewrite (tk_sym _ _ (tier_key_Z _)). }
      pose proof (Hfw k2 k1 x2 x1 H2 H1 Hkeys' Hgt). lia.
  - (* idempotence *)
    set (c2 := with_bounds lo up cnt c1).
    assert (Hpar2 : parallel c2) by (destruct Hs1 as [[? ? ? ? ?] _ _ _ _]; by split).
    assert (Hsz2 : size c2 = size c1) by done.
    unfold sort.
    change (get_permutation_vector c2) with (get_permutation_vector c1).
    rewrite (sorted_collection_permutation p c c1 Hs Hperm Hsorted Hpm
               (sortable_parallel _ Hs1) Hsz1).
    rewrite <- Hsz2.
    destruct (sort_permute_run c2 (seqZ 0 (size c2)) Hpar2) as (c3 & -> & Hpm3).
    { apply permutation_is_permutation; [apply vsize_nonneg|done]. }
    rewrite (permuted_identity c2 c3 Hpar2 Hpm3).
    by apply (sort_bounds_idem c1).
Qed.

Lemma sort_stable_and_idempotent_witness :
  exists p c1,
    get_permutation_vector repeated_key_collection = Some p /\
    sort repeated_key_collection = Ok c1 /\
    p = [1; 0; 2] /\
    SegmentTypeAreas c1 = [[2%Q]; [1%Q]; [3%Q]] /\
    sort c1 = Ok c1.
Proof.
  destruct (sort_stable_and_idempotent repeated_key_collection)
    as (p & c1 & Hp & Hsort & _ & _ & _ & _ & _ & _ & _ & _ & Hidem).
  - split; [by split| |reflexivity|reflexivity|reflexivity].
    intros g Hg. simpl in Hg.
    repeat (apply elem_of_cons in Hg as [->|Hg]; [lia|]).
    by apply elem_of_nil in Hg.
  - reflexivity.
  - exists p, c1. split; [done|]. split; [done|].
    vm_compute in Hp. injection Hp as <-.
    vm_compute in Hsort. injection Hsort as <-.
    split; [reflexivity|]. split; [reflexivity|]. exact Hidem.
Defined.

(** * Further properties *)

(** ** Loops: what every outcome keeps *)

Lemma for_range_keeps {S} (P : S -> Prop) lo hi (body : Z -> S -> result S) s :
  P s ->
  (forall i s0, lo <= i < hi -> P s0 -> P (state_of (body i s0))) ->
  P (state_of (for_range lo hi body s)).
Proof.
  unfold for_range.
  remember (Z.to_nat (hi - lo)) as n eqn:Hn.
  revert lo s Hn. induction n as [|n IH]; intros lo s Hn H0 Hstep; [done|].
  simpl. pose proof (Hstep lo s ltac:(lia) H0) as H1.
  destruct (body lo s) as [s1|f s1]; [|done].
  apply IH; [lia|done|]. intros i s0 Hi. apply Hstep. lia.
Qed.

Lemma state_of_and_next {S} (P : S -> Prop) (r : result S) (k : S -> result S) :
  P (state_of r) -> (forall s, P s -> P (state_of (k s))) ->
  P (state_of (and_next r k)).
Proof. destruct r as [s|f s]; simpl; auto. Qed.

(** ** The interaction matrix: where it writes *)

Lemma changed_within_refl W A : changed_within W A A.
Proof. by repeat split. Qed.

Lemma changed_within_trans W A B C :
  changed_within W A B -> changed_within W B C -> changed_within W A C.
Proof.
  intros (Hr & Hc & H1) (Hr' & Hc' & H2).
  split; [congruence|]. split; [congruence|].
  intros r c Hw. rewrite H2 by done. by apply H1.
Qed.

Lemma changed_within_weaken (W W' : Z -> Z -> Prop) A B :
  (forall r c, W r c -> W' r c) -> changed_within W A B -> changed_within W' A B.
Proof.
  intros Hsub (Hr & Hc & H). split; [done|]. split; [done|].
  intros r c Hw. apply H. intros Hw'. apply Hw. by apply Hsub.
Qed.

Lemma changed_within_mset (W : Z -> Z -> Prop) A r c x A' :
  W r c -> mset A r c x = Some A' -> changed_within W A A'.
Proof.
  intros Hw Hset. destruct (dims_mset _ _ _ _ _ Hset) as [Hr Hc].
  split; [done|]. split; [done|]. intros r' c' Hw'.
  apply (coeff_mset_ne _ _ _ _ _ _ _ Hset). intros [= -> ->]. done.
Qed.

Lemma shift_pass_within n A :
  changed_within (lower_triangle n) A (state_of (shift_pass n A)).
Proof.
  unfold shift_pass.
  apply (for_range_keeps (changed_within (lower_triangle n) A));
    [apply changed_within_refl|].
  intros i B Hi HB.
  apply (for_range_keeps (changed_within (lower_triangle n) A)); [done|].
  intros j B0 Hj HB0. unfold shift_entry.
  destruct (mget B0 j i); [|done]. destruct (mget B0 i i); [|done].
  destruct (mget B0 j j); [|done].
  destruct (mset B0 j i _) as [B1|] eqn:Hset; [|done]. simpl.
  eapply changed_within_trans; [exact HB0|].
  eapply changed_within_mset; [|exact Hset]. unfold lower_triangle. lia.
Qed.

Lemma zero_pass_within n A :
  changed_within (lower_triangle n) A (state_of (zero_pass n A)).
Proof.
  unfold zero_pass.
  apply (for_range_keeps (changed_within (lower_triangle n) A));
    [apply changed_within_refl|].
  intros i B Hi HB. unfold zero_entry.
  destruct (mset B i i 0%Q) as [B1|] eqn:Hset; [|done]. simpl.
  eapply changed_within_trans; [exact HB|].
  eapply changed_within_mset; [|exact Hset]. unfold lower_triangle. lia.
Qed.

Lemma neutral_pass_within segments param T A :
  changed_within (fun r c => in_block segments c r) A
    (state_of (neutral_pass segments param T A)).
Proof.
  assert (Hdims : rows (state_of (neutral_pass segments param T A)) = rows A /\
                  cols (state_of (neutral_pass segments param T A)) = cols A).
  { destruct (vget (lowerBoundIndexForGroup segments) 0) as [lower|] eqn:Hlo;
      [destruct (UpperBoundIndexForNeutralComponents segments) as [upper|] eqn:Hup|].
    - pose proof (neutral_pass_run segments param T A lower upper Hlo Hup) as H.
      destruct (neutral_pass segments param T A) as [A'|f A']; simpl.
      + by destruct H as (? & ? & _).
      + by destruct H as (i & j & _ & _ & (? & ? & _) & _).
    - unfold neutral_pass. by rewrite Hlo, Hup.
    - unfold neutral_pass. rewrite Hlo.
      by destruct (UpperBoundIndexForNeutralComponents _). }
  destruct Hdims as [Hr Hc]. split; [done|]. split; [done|].
  intros r c. apply neutral_pass_frame.
Qed.

(* The state of A_int when calculateInteractionMatrix returns or halts. *)
Lemma calculateInteractionMatrix_within segments param T A ps :
  changed_within (writable segments param) A
    (state_of (calculateInteractionMatrix segments param T (A, ps))).1.
Proof.
  unfold calculateInteractionMatrix. cbv zeta. simpl.
  pose proof (neutral_pass_within segments param T A) as H1.
  apply (changed_within_weaken _ (writable segments param)) in H1;
    [|intros r c; by left].
  destruct (neutral_pass segments param T A) as [A0|f A0]; simpl in *; [|done].
  destruct (Z.eqb_spec (sw_useSegmentReferenceStateForInteractionMatrix param) 1)
    as [Hsw|Hsw]; [|done].
  unfold renormalise. simpl.
  pose proof (shift_pass_within (size segments) A0) as H2.
  destruct (shift_pass (size segments) A0) as [A1|f A1]; simpl in *.
  - pose proof (zero_pass_within (size segments) A1) as H3.
    assert (H4 : changed_within (writable segments param) A
                   (state_of (zero_pass (size segments) A1))).
    { eapply changed_within_trans; [exact H1|].
      eapply changed_within_weaken; [|eapply changed_within_trans; [exact H2|exact H3]].
      intros r c Hl. by right. }
    destruct (zero_pass (size segments) A1) as [A2|f A2]; simpl in *; [|done].
    destruct (0 <? _); [|done].
    by destruct (renormalise_partials param (size segments) ps).
  - eapply changed_within_trans; [exact H1|].
    eapply changed_within_weaken; [|exact H2]. intros r c Hl. by right.
Qed.

(** X1: whatever calculateInteractionMatrix does, return or halt, A_int
    keeps its dimensions and changes only in cells (r, c) of the lower
    triangle: those of the neutral block, and with the reference-state
    switch those with c <= r < numberOfSegments; every entry above the
    diagonal is left as the caller passed it. *)
Theorem interaction_matrix_writes_lower_triangle segments param T A ps :
  let A' := (state_of (calculateInteractionMatrix segments param T (A, ps))).1 in
  rows A' = rows A /\ cols A' = cols A /\
  (forall r c, ~ writable segments param r c -> coeff A' r c = coeff A r c) /\
  (forall r c, r < c -> coeff A' r c = coeff A r c).
Proof.
  intros A'.
  destruct (calculateInteractionMatrix_within segments param T A ps)
    as (Hr & Hc & Hw).
  repeat (split; [done|]). intros r c Hlt. apply Hw.
  intros [(lo & up & _ & _ & H & _)|[_ [H _]]]; lia.
Qed.

Lemma partials_changed_within_refl W m ps : partials_changed_within W m ps ps.
Proof.
  split; [done|]. split; [done|]. intros h P P' H1 H2.
  rewrite H1 in H2. injection H2 as <-. apply changed_within_refl.
Qed.

Lemma on_partial_within (W : Z -> Z -> Prop) m (pass : Matrix -> result Matrix)
    ps cur h :
  (forall P, changed_within W P (state_of (pass P))) ->
  0 <= h < m ->
  partials_changed_within W m ps cur ->
  partials_changed_within W m ps (state_of (on_partial pass h cur)).
Proof.
  intros Hpass Hh (Hsz & Hout & Hin). unfold on_partial.
  destruct (vget cur h) as [P|] eqn:HP; [|by split].
  specialize (Hpass P).
  assert (Hr : 0 <= h < vsize cur) by (by apply vget_range in HP).
  assert (Hgoal : partials_changed_within W m ps
                    (<[Z.to_nat h := state_of (pass P)]> cur)).
  { split; [by rewrite vsize_insert|]. split.
    - intros k Hk. rewrite vget_insert_ne by lia. by apply Hout.
    - intros k P0 P' H0 H'. rewrite vget_insert in H' by done.
      destruct (decide (k = h)) as [->|].
      + injection H' as <-. eapply changed_within_trans; [|exact Hpass].
        by eapply Hin.
      + by eapply Hin. }
  by destruct (pass P).
Qed.

Lemma renormalise_partials_within param n ps :
  partials_changed_within (lower_triangle n)
    (numberOfPartialInteractionMatrices param) ps
    (state_of (renormalise_partials param n ps)).
Proof.
  unfold renormalise_partials.
  apply (state_of_and_next
           (partials_changed_within (lower_triangle n)
              (numberOfPartialInteractionMatrices param) ps)).
  - apply (for_range_keeps
             (partials_changed_within (lower_triangle n)
                (numberOfPartialInteractionMatrices param) ps));
      [apply partials_changed_within_refl|].
    intros h cur Hh. apply on_partial_within; [apply shift_pass_within|done].
  - intros ps1 H1.
    apply (for_range_keeps
             (partials_changed_within (lower_triangle n)
                (numberOfPartialInteractionMatrices param) ps)); [done|].
    intros h cur Hh. apply on_partial_within; [apply zero_pass_within|done].
Qed.

(* The partial matrices when calculateInteractionMatrix returns or halts. *)
Lemma calculateInteractionMatrix_partials segments param T A ps :
  let ps' := (state_of (calculateInteractionMatrix segments param T (A, ps))).2 in
  (~ (sw_useSegmentReferenceStateForInteractionMatrix param = 1 /\
      0 < sw_calculateContactStatisticsAndAdditionalProperties param) ->
   ps' = ps) /\
  partials_changed_within (lower_triangle (size segments))
    (numberOfPartialInteractionMatrices param) ps ps'.
Proof.
  unfold calculateInteractionMatrix. cbv zeta. simpl.
  destruct (neutral_pass segments param T A) as [A0|f A0]; simpl;
    [|split; [done|apply partials_changed_within_refl]].
  destruct (Z.eqb_spec (sw_useSegmentReferenceStateForInteractionMatrix param) 1)
    as [Hsw|Hsw]; [|split; [done|apply partials_changed_within_refl]].
  unfold renormalise. simpl.
  destruct (and_next (shift_pass (size segments) A0) (zero_pass (size segments)))
    as [A1|f A1]; simpl; [|split; [done|apply partials_changed_within_refl]].
  destruct (Z.ltb_spec 0 (sw_calculateContactStatisticsAndAdditionalProperties param))
    as [Hcs|Hcs]; [|split; [done|apply partials_changed_within_refl]].
  pose proof (renormalise_partials_within param (size segments) ps) as H.
  destruct (renormalise_partials param (size segments) ps) as [ps1|f ps1];
    simpl in *; (split; [intros Hn; exfalso; apply Hn; by split|done]).
Qed.

(** X2: calculateInteractionMatrix leaves the vector of partial matrices
    as it is unless sw_useSegmentReferenceStateForInteractionMatrix is 1 and
    sw_calculateContactStatisticsAndAdditionalProperties is positive; in that
    case, return or halt, the vector keeps its length, the matrices at
    indices outside [0, numberOfPartialInteractionMatrices) are not touched,
    and every matrix keeps its dimensions and changes only in cells with
    c <= r < numberOfSegments. *)
Theorem partial_matrices_frame segments param T A ps :
  let ps' := (state_of (calculateInteractionMatrix segments param T (A, ps))).2 in
  (~ (sw_useSegmentReferenceStateForInteractionMatrix param = 1 /\
      0 < sw_calculateContactStatisticsAndAdditionalProperties param) ->
   ps' = ps) /\
  vsize ps' = vsize ps /\
  (forall h, ~ (0 <= h < numberOfPartialInteractionMatrices param) ->
     vget ps' h = vget ps h) /\
  (forall h P P', vget ps h = Some P -> vget ps' h = Some P' ->
     rows P' = rows P /\ cols P' = cols P /\
     forall r c, ~ (0 <= c <= r /\ r < size segments) ->
       coeff P' r c = coeff P r c).
Proof.
  intros ps'.
  destruct (calculateInteractionMatrix_partials segments param T A ps)
    as (Hoff & Hsz & Hout & Hin).
  split; [done|]. split; [done|]. split; [done|].
  intros h P P' HP HP'. exact (Hin h P P' HP HP').
Qed.

(** ** The interaction matrix: staying in bounds *)

(* Inside parallel vectors a pair never reads out of range. *)
Lemma entry_value_in_bounds segments param T i j :
  parallel segments -> 0 <= i < size segments -> 0 <= j < size segments ->
  entry_value segments param T i j <> inl OutOfBounds.
Proof.
  intros [Pg Ps Psc Pan Pa] Hi Hj.
  unfold entry_value, outer_locals, pair_value, misfit_value.
  rewrite (vget_read 0%Q (SegmentTypeSigma segments) i) by lia.
  rewrite (vget_read 0%Q (SegmentTypeSigma segments) j) by lia.
  rewrite (vget_read 0%Q (SegmentTypeSigmaCorr segments) i) by lia.
  rewrite (vget_read 0%Q (SegmentTypeSigmaCorr segments) j) by lia.
  assert (Hty : hb_types segments i j (read 0 (SegmentTypeHBtype segments) i)
                  (read 0 (SegmentTypeHBtype segments) j)).
  { split; apply vget_read; unfold size in *; lia. }
  simpl. destruct (0 <? sw_misfit param); simpl;
    rewrite (hydrogen_bond_eq _ _ _ _ _ _ _ _ _ Hty);
    repeat match goal with
           | |- context [if ?b then _ else _] => destruct b
           end; done.
Qed.

Lemma shift_pass_returns n A :
  n <= rows A -> n <= cols A -> exists B, shift_pass n A = Ok B.
Proof.
  intros Hr Hc. unfold shift_pass.
  destruct (Z.le_gt_cases 0 n) as [Hn|Hn];
    [|rewrite for_range_empty by lia; by eexists].
  set (Inv := fun (_ : Z) (B : Matrix) => rows B = rows A /\ cols B = cols A).
  destruct (for_range_total Inv 0 n
              (fun i => for_range (i + 1) n (shift_entry i)) A Hn)
    as (B & HB & _); [done| |by exists B].
  intros i B Hi HB.
  destruct (for_range_total Inv (i + 1) n (shift_entry i) B ltac:(lia) HB)
    as (B' & HB' & Hinv); [|by exists B'].
  intros j B0 Hj [Hr0 Hc0]. unfold shift_entry, mget.
  assert (H1 : in_matrix B0 j i) by (unfold in_matrix; lia).
  assert (H2 : in_matrix B0 i i) by (unfold in_matrix; lia).
  assert (H3 : in_matrix B0 j j) by (unfold in_matrix; lia).
  destruct (decide (in_matrix B0 j i)); [|done].
  destruct (decide (in_matrix B0 i i)); [|done].
  destruct (decide (in_matrix B0 j j)); [|done].
  destruct (mset B0 j i _) as [B1|] eqn:Hset; [|by apply mset_None in Hset].
  exists B1. split; [done|].
  destruct (dims_mset _ _ _ _ _ Hset). unfold Inv. split; congruence.
Qed.

Lemma zero_pass_returns n A :
  n <= rows A -> n <= cols A -> exists B, zero_pass n A = Ok B.
Proof.
  intros Hr Hc. unfold zero_pass.
  destruct (Z.le_gt_cases 0 n) as [Hn|Hn];
    [|rewrite for_range_empty by lia; by eexists].
  set (Inv := fun (_ : Z) (B : Matrix) => rows B = rows A /\ cols B = cols A).
  destruct (for_range_total Inv 0 n zero_entry A Hn) as (B & HB & _);
    [done| |by exists B].
  intros i B Hi [Hr0 Hc0]. unfold zero_entry.
  destruct (mset B i i 0%Q) as [B1|] eqn:Hset;
    [|apply mset_None in Hset; unfold in_matrix in Hset; lia].
  exists B1. split; [done|].
  destruct (dims_mset _ _ _ _ _ Hset). unfold Inv. split; congruence.
Qed.

Lemma on_partial_returns (pass : Matrix -> result Matrix) n m ps :
  (forall P, n <= rows P -> n <= cols P ->
     exists P', pass P = Ok P' /\ rows P' = rows P /\ cols P' = cols P) ->
  m <= vsize ps ->
  (forall h P, 0 <= h < m -> vget ps h = Some P -> n <= rows P /\ n <= cols P) ->
  exists ps',
    for_range 0 m (on_partial pass) ps = Ok ps' /\
    m <= vsize ps' /\
    (forall h P, 0 <= h < m -> vget ps' h = Some P -> n <= rows P /\ n <= cols P).
Proof.
  intros Hpass Hm Hdims.
  destruct (Z.le_gt_cases 0 m) as [H0|H0];
    [|rewrite for_range_empty by lia; by exists ps].
  set (Inv := fun (_ : Z) (cur : list Matrix) =>
    m <= vsize cur /\
    forall h P, 0 <= h < m -> vget cur h = Some P -> n <= rows P /\ n <= cols P).
  destruct (for_range_total Inv 0 m (on_partial pass) ps H0)
    as (ps' & Hrun & Hinv); [done| |by exists ps'].
  intros h cur Hh [Hsz Hd]. unfold on_partial.
  destruct (proj1 (vget_is_Some cur h) ltac:(lia)) as [P HP]. rewrite HP.
  destruct (Hd h P Hh HP) as [Hr Hc].
  destruct (Hpass P Hr Hc) as (P' & -> & Hr' & Hc').
  eexists. split; [done|]. split; [by rewrite vsize_insert|].
  intros k Q0 Hk HQ. rewrite vget_insert in HQ by lia.
  destruct (decide (k = h)) as [->|]; [injection HQ as <-; lia|by eapply Hd].
Qed.

Lemma renormalise_partials_returns param n ps :
  numberOfPartialInteractionMatrices param <= vsize ps ->
  (forall h P, 0 <= h < numberOfPartialInteractionMatrices param ->
     vget ps h = Some P -> n <= rows P /\ n <= cols P) ->
  exists ps', renormalise_partials param n ps = Ok ps'.
Proof.
  intros Hm Hd. unfold renormalise_partials.
  destruct (on_partial_returns (shift_pass n) n
              (numberOfPartialInteractionMatrices param) ps) as (ps1 & -> & Hm1 & Hd1);
    [|done|done|].
  { intros P Hr Hc. destruct (shift_pass_returns n P Hr Hc) as [P' HP'].
    exists P'. split; [done|].
    pose proof (shift_pass_within n P) as (? & ? & _). by rewrite HP' in *. }
  simpl.
  destruct (on_partial_returns (zero_pass n) n
              (numberOfPartialInteractionMatrices param) ps1) as (ps2 & -> & _);
    [|done|done|by eexists].
  intros P Hr Hc. destruct (zero_pass_returns n P Hr Hc) as [P' HP'].
  exists P'. split; [done|].
  pose proof (zero_pass_within n P) as (? & ? & _). by rewrite HP' in *.
Qed.

Lemma renormalise_returns param n A ps :
  n <= rows A -> n <= cols A ->
  (0 < sw_calculateContactStatisticsAndAdditionalProperties param ->
   numberOfPartialInteractionMatrices param <= vsize ps /\
   forall h P, 0 <= h < numberOfPartialInteractionMatrices param ->
     vget ps h = Some P -> n <= rows P /\ n <= cols P) ->
  exists st, renormalise param n (A, ps) = Ok st.
Proof.
  intros Hr Hc Hps. unfold renormalise. simpl.
  destruct (shift_pass_returns n A Hr Hc) as [A1 H1]. rewrite H1. simpl.
  pose proof (shift_pass_within n A) as (Hr1 & Hc1 & _). rewrite H1 in *.
  simpl in *.
  destruct (zero_pass_returns n A1 ltac:(lia) ltac:(lia)) as [A2 H2].
  rewrite H2. simpl.
  destruct (Z.ltb_spec 0 (sw_calculateContactStatisticsAndAdditionalProperties param))
    as [Hcs|Hcs]; [|by eexists].
  destruct (Hps Hcs) as [Hm Hd].
  destruct (renormalise_partials_returns param n ps Hm Hd) as [ps' ->].
  by eexists.
Qed.

(* With the sizes in order the only fault left is the exception. *)
Lemma calculateInteractionMatrix_in_bounds segments param T A ps :
  call_in_bounds segments param A ps ->
  match calculateInteractionMatrix segments param T (A, ps) with
  | Ok _ => True
  | Halt f _ =>
      exists msg i j,
        f = RuntimeError msg /\ in_block segments i j /\
        hb_wrong_orientation segments param i j
  end.
Proof.
  intros [Hpar (lower & upper & Hlo & Hup & Hl0 & Hu) Hr Hc Hps].
  unfold calculateInteractionMatrix. cbv zeta. simpl.
  pose proof (neutral_pass_run segments param T A lower upper Hlo Hup) as Hrun.
  pose proof (neutral_pass_within segments param T A) as (Hr0 & Hc0 & _).
  destruct (neutral_pass segments param T A) as [A0|f A0]; simpl in *.
  - destruct (Z.eqb_spec (sw_useSegmentReferenceStateForInteractionMatrix param) 1)
      as [Hsw|Hsw]; [|done].
    destruct (renormalise_returns param (size segments) A0 ps
                ltac:(lia) ltac:(lia) (Hps Hsw)) as [st ->]. done.
  - destruct Hrun as (i & j & Hi & Hj & _ & [Hf|[_ Hout]]).
    + pose proof (entry_value_in_bounds segments param T i j Hpar
                    ltac:(lia) ltac:(lia)) as Hnb.
      pose proof Hf as Hf'.
      apply entry_value_inl in Hf' as [->|(msg & si & sj & -> & Hsi & Hsj & Hthrow)];
        [done|].
      exists msg, i, j. split; [done|]. split; [by exists lower, upper|].
      by eapply hydrogen_bond_thrown.
    + exfalso. apply Hout. unfold in_matrix. lia.
Qed.

(** X3: when the collection has parallel vectors and a neutral block inside
    it, A_int has at least numberOfSegments rows and columns and the partial
    matrices that are renormalised exist with that size,
    calculateInteractionMatrix never leaves a container: it returns, or it
    throws for a pair of the block in the wrong donor/acceptor orientation;
    without such a pair it returns. *)
Theorem interaction_matrix_stays_in_bounds segments param T A ps :
  call_in_bounds segments param A ps ->
  (forall f st,
     calculateInteractionMatrix segments param T (A, ps) = Halt f st ->
     exists msg i j,
       f = RuntimeError msg /\ in_block segments i j /\
       hb_wrong_orientation segments param i j) /\
  ((forall i j, in_block segments i j ->
      ~ hb_wrong_orientation segments param i j) ->
   exists st, calculateInteractionMatrix segments param T (A, ps) = Ok st).
Proof.
  intros Hcall.
  pose proof (calculateInteractionMatrix_in_bounds segments param T A ps Hcall) as H.
  split.
  - intros f st E. by rewrite E in H.
  - intros Hno. destruct (calculateInteractionMatrix _ _ _ _) as [st|f st];
      [by exists st|].
    destruct H as (msg & i & j & _ & Hb & Hw). by destruct (Hno i j Hb).
Qed.

Lemma interaction_matrix_stays_in_bounds_witness :
  exists st,
    calculateInteractionMatrix donor_acceptor_segments
      (sample_parameters 2 1 1 0.0084) 298.15 (zero_matrix 2, [sample_partial 2])
    = Ok st.
Proof.
  refine (proj2 (interaction_matrix_stays_in_bounds donor_acceptor_segments
            (sample_parameters 2 1 1 0.0084) 298.15 (zero_matrix 2)
            [sample_partial 2] _) _).
  - split.
    + by split.
    + exists 0, 2. repeat split; try reflexivity; vm_compute; discriminate.
    + vm_compute. discriminate.
    + vm_compute. discriminate.
    + intros _ _. split; [vm_compute; discriminate|].
      intros h P Hh HP. assert (h = 0) as -> by (simpl in Hh; lia).
      injection HP as <-. split; vm_compute; discriminate.
  - intros i j (lo & up & Hlo & Hup & Hi & Hj) Hwrong.
    injection Hlo as <-. injection Hup as <-.
    assert (Hcases : (i = 0 /\ j = 0) \/ (i = 0 /\ j = 1) \/ (i = 1 /\ j = 1))
      by (simpl in Hj; lia).
    destruct Hwrong as [[(sa & sb & Ha & Hb & H1 & H2) [T1 T2]]
                       |[(sa & sb & Ha & Hb & H1 & H2) [T1 T2]]];
      destruct Hcases as [[-> ->]|[[-> ->]|[-> ->]]];
      vm_compute in T1, T2; try discriminate;
      vm_compute in Ha, Hb; injection Ha as <-; injection Hb as <-;
      vm_compute in H1, H2; discriminate.
Defined.

(** ** The interaction matrix: the energy of a pair *)

Lemma outer_locals_Some segments param i si sti :
  outer_locals segments param i = Some (si, sti) ->
  vget (SegmentTypeSigma segments) i = Some si /\
  if 0 <? sw_misfit param
  then exists sci, vget (SegmentTypeSigmaCorr segments) i = Some sci /\
                   sti = sigmaTrans sci si
  else sti = 0%Q.
Proof.
  unfold outer_locals.
  destruct (vget (SegmentTypeSigma segments) i) as [s|]; [|done]. simpl.
  destruct (0 <? sw_misfit param).
  - destruct (vget (SegmentTypeSigmaCorr segments) i) as [sc|]; [|done]. simpl.
    intros [= <- <-]. split; [done|]. by exists sc.
  - by intros [= <- <-].
Qed.

Lemma misfit_value_Some segments param si sti sj j val :
  misfit_value segments param si sti sj j = Some val ->
  if 0 <? sw_misfit param
  then exists scj, vget (SegmentTypeSigmaCorr segments) j = Some scj /\
         val = (misfit_prefactor param * (si + sj)
                * ((si + sj) + fCorr param * (sti + sigmaTrans scj sj)))%Q
  else val = (misfit_prefactor param * (si + sj) * (si + sj))%Q.
Proof.
  unfold misfit_value. destruct (0 <? sw_misfit param).
  - destruct (vget (SegmentTypeSigmaCorr segments) j) as [sc|]; [|done]. simpl.
    intros [= <-]. by exists sc.
  - by intros [= <-].
Qed.

(* For SigmaHB >= 0 the hydrogen-bond code treats (i, j) and (j, i) alike. *)
Lemma hydrogen_bond_swap segments param T si sj i j hi hj :
  (0 <= SigmaHB param)%Q -> hb_types segments i j hi hj ->
  hydrogen_bond segments param T sj si j i =
  match hydrogen_bond segments param T si sj i j with
  | Some (HBThrow _) =>
      Some (HBThrow (if Qltb si (-1 * SigmaHB param) && Qgtb sj (SigmaHB param)
                     then hb_message_2 else hb_message_1))
  | other => other
  end.
Proof.
  intros Hs Hty.
  rewrite (hydrogen_bond_eq _ _ _ _ _ _ _ _ _ Hty).
  rewrite (hydrogen_bond_eq _ _ _ _ _ _ _ _ _ (proj1 (hb_types_sym _ _ _ _ _) Hty)).
  pose proof (hb_tests_exclusive param si sj Hs) as X.
  destruct (Qltb si _ && Qgtb sj _).
  - rewrite (X eq_refl).
    by destruct (Z.eqb_spec hi 1), (Z.eqb_spec hj 2), (Z.eqb_spec hi 2),
                (Z.eqb_spec hj 1); subst.
  - destruct (Qltb sj _ && Qgtb si _); [|done].
    by destruct (Z.eqb_spec hi 1), (Z.eqb_spec hj 2), (Z.eqb_spec hi 2),
                (Z.eqb_spec hj 1); subst.
Qed.

(** X4: for SigmaHB >= 0 the energy the loops compute for a pair does not
    depend on the order of the two segments: when the value for (i, j) is v,
    the value for (j, i) is the same number.  Reading the entry at (max, min)
    is therefore consistent. *)
Theorem pair_energy_symmetric segments param T i j hi hj v :
  (0 <= SigmaHB param)%Q ->
  hb_types segments i j hi hj ->
  entry_value segments param T i j = inr v ->
  exists v', entry_value segments param T j i = inr v' /\ (v' == v)%Q.
Proof.
  intros Hs Hty Hv.
  apply entry_value_inr in Hv
    as (si & sti & sj & val & out & Hloc & Hsi & Hsj & Hval & Hout & Hv).
  apply outer_locals_Some in Hloc as [_ Hti].
  apply misfit_value_Some in Hval.
  pose proof (hydrogen_bond_swap segments param T si sj i j hi hj Hs Hty) as Hswap.
  rewrite Hout in Hswap.
  unfold entry_value, outer_locals, pair_value, misfit_value.
  rewrite Hsj, Hsi. simpl.
  destruct (0 <? sw_misfit param).
  - destruct Hti as (sci & Hsci & ->). destruct Hval as (scj & Hscj & ->).
    rewrite Hscj, Hsci. simpl. rewrite Hswap.
    destruct out as [x| |msg]; [|..|done].
    + eexists. split; [done|]. rewrite Hv. ring.
    + eexists. split; [done|]. rewrite Hv. ring.
  - subst sti val. rewrite Hswap.
    destruct out as [x| |msg]; [|..|done].
    + eexists. split; [done|]. rewrite Hv. ring.
    + eexists. split; [done|]. rewrite Hv. ring.
Qed.

Lemma pair_energy_symmetric_witness :
  exists v',
    entry_value donor_acceptor_segments (sample_parameters 2 0 0 0.0084) 298.15 1 0
    = inr v' /\
    (v' == coeff (state_of (neutral_pass donor_acceptor_segments
                     (sample_parameters 2 0 0 0.0084) 298.15 (zero_matrix 2))) 1 0)%Q.
Proof.
  apply (pair_energy_symmetric donor_acceptor_segments
           (sample_parameters 2 0 0 0.0084) 298.15 0 1 1 2).
  - discriminate.
  - split; reflexivity.
  - vm_compute. reflexivity.
Defined.

Lemma CHB_T_nonneg param T : (0 <= CHB param)%Q -> (0 <= CHB_T param T)%Q.
Proof.
  intros HC. unfold CHB_T. cbv zeta.
  destruct (Qgtb _ 0) eqn:E; [|lra].
  apply Qgtb_gt in E. nra.
Qed.

(** X5: with Aeff, CHB and SigmaHB not negative and a temperature T other
    than 0, the hydrogen-bond code never raises the energy of a pair: an
    entry the loops assign is at most its misfit value, and it is the
    misfit value when the temperature factor 1 - CHBT + CHBT*298.15/T is
    not positive. *)
Theorem hydrogen_bond_lowers_energy segments param T i j v :
  (0 <= SigmaHB param)%Q -> (0 <= Aeff param)%Q -> (0 <= CHB param)%Q ->
  ~ (T == 0)%Q ->
  entry_value segments param T i j = inr v ->
  exists si sti sj val,
    outer_locals segments param i = Some (si, sti) /\
    vget (SegmentTypeSigma segments) j = Some sj /\
    misfit_value segments param si sti sj j = Some val /\
    (v <= val)%Q /\
    ((1 - CHBT param + CHBT param * (298.15 / T) <= 0)%Q -> (v == val)%Q).
Proof.
  intros Hs HA HC _ Hv.
  apply entry_value_inr in Hv
    as (si & sti & sj & val & out & Hloc & Hsi & Hsj & Hval & Hout & Hv).
  exists si, sti, sj, val. repeat (split; [done|]).
  destruct out as [x| |msg]; [|subst v; split; [lra|intros _; lra]|done].
  destruct (hydrogen_bond_types _ _ _ _ _ _ _ _ Hout ltac:(done)) as (hi & hj & Hty).
  assert (Hp : (0 <= hb_prefactor param T)%Q).
  { unfold hb_prefactor. pose proof (CHB_T_nonneg param T HC). nra. }
  assert (Hzero : (1 - CHBT param + CHBT param * (298.15 / T) <= 0)%Q ->
                  (hb_prefactor param T == 0)%Q).
  { intros Hb. unfold hb_prefactor, CHB_T. cbv zeta.
    destruct (Qgtb _ 0) eqn:E; [apply Qgtb_gt in E; lra|ring]. }
  destruct (hydrogen_bond_added segments param T si sj i j hi hj x Hs Hsi Hsj Hty Hout)
    as [((sa & sb & Ha & Hb & H1 & H2) & _ & _ & _ & ->)
       |((sa & sb & Ha & Hb & H1 & H2) & _ & _ & _ & ->)].
  - rewrite Hsi in Ha. rewrite Hsj in Hb. injection Ha as <-. injection Hb as <-.
    subst v. split; [|intros Hb'; rewrite (Hzero Hb'); ring].
    assert (((sj - SigmaHB param) * (si + SigmaHB param) <= 0)%Q) by nra.
    rewrite <- Qmult_assoc. nra.
  - rewrite Hsj in Ha. rewrite Hsi in Hb. injection Ha as <-. injection Hb as <-.
    subst v. split; [|intros Hb'; rewrite (Hzero Hb'); ring].
    assert (((si - SigmaHB param) * (sj + SigmaHB param) <= 0)%Q) by nra.
    rewrite <- Qmult_assoc. nra.
Qed.

Lemma hydrogen_bond_lowers_energy_witness :
  exists si sti sj val,
    outer_locals donor_acceptor_segments (sample_parameters 2 0 0 0.0084) 0
    = Some (si, sti) /\
    vget (SegmentTypeSigma donor_acceptor_segments) 1 = Some sj /\
    misfit_value donor_acceptor_segments (sample_parameters 2 0 0 0.0084)
      si sti sj 1 = Some val /\
    (coeff (state_of (neutral_pass donor_acceptor_segments
              (sample_parameters 2 0 0 0.0084) 298.15 (zero_matrix 2))) 1 0
     <= val)%Q /\
    ((1 - 1.5 + 1.5 * (298.15 / 298.15) <= 0)%Q ->
     (coeff (state_of (neutral_pass donor_acceptor_segments
               (sample_parameters 2 0 0 0.0084) 298.15 (zero_matrix 2))) 1 0
      == val)%Q).
Proof.
  apply (hydrogen_bond_lowers_energy donor_acceptor_segments
           (sample_parameters 2 0 0 0.0084) 298.15 0 1).
  - discriminate.
  - discriminate.
  - discriminate.
  - discriminate.
  - vm_compute. reflexivity.
Defined.

Lemma hydrogen_bond_diagonal segments param T si i :
  (0 <= SigmaHB param)%Q ->
  hydrogen_bond segments param T si si i i = Some HBNone.
Proof.
  intros Hs. unfold hydrogen_bond. cbv zeta.
  pose proof (hb_tests_exclusive param si si Hs) as X.
  destruct (Qltb si _ && Qgtb si _); [|done].
  by specialize (X eq_refl).
Qed.

Lemma entry_value_diagonal segments param T i v :
  (0 <= SigmaHB param)%Q ->
  entry_value segments param T i i = inr v ->
  exists si sti,
    outer_locals segments param i = Some (si, sti) /\
    (v == misfit_prefactor param * (si + si) * ((si + si) + fCorr param * (sti + sti)))%Q.
Proof.
  intros Hs Hv.
  apply entry_value_inr in Hv
    as (si & sti & sj & val & out & Hloc & Hsi & Hsj & Hval & Hout & Hv).
  rewrite Hsi in Hsj. injection Hsj as <-.
  rewrite (hydrogen_bond_diagonal _ _ _ _ _ Hs) in Hout. injection Hout as <-.
  subst v. exists si, sti. split; [done|].
  apply outer_locals_Some in Hloc as [_ Hti].
  apply misfit_value_Some in Hval.
  destruct (0 <? sw_misfit param).
  - destruct Hti as (sci & Hsci & ->). destruct Hval as (scj & Hscj & ->).
    rewrite Hsci in Hscj. injection Hscj as <-. reflexivity.
  - subst sti val. ring.
Qed.

(** X6: with SigmaHB >= 0 and the reference-state switch on, a returned call
    leaves at A_int(j, i), for i < j inside the neutral block, the
    hydrogen-bond amount of the pair minus
    misfit_prefactor*(sigma_i - sigma_j)*((sigma_i - sigma_j)
    + fCorr*(sigmaTrans_i - sigmaTrans_j)); with sw_misfit <= 0 both
    sigmaTrans are 0 and the misfit part is
    -misfit_prefactor*(sigma_i - sigma_j)^2. *)
Theorem renormalised_entry_closed_form segments param T A ps A' ps' i j :
  (0 <= SigmaHB param)%Q ->
  sw_useSegmentReferenceStateForInteractionMatrix param = 1 ->
  calculateInteractionMatrix segments param T (A, ps) = Ok (A', ps') ->
  in_block segments i j -> 0 <= i < j -> j < size segments ->
  exists si sti sj stj out,
    outer_locals segments param i = Some (si, sti) /\
    outer_locals segments param j = Some (sj, stj) /\
    hydrogen_bond segments param T si sj i j = Some out /\
    (sw_misfit param <= 0 -> sti = 0%Q /\ stj = 0%Q) /\
    (coeff A' j i ==
     hb_amount out
     - misfit_prefactor param * (si - sj) * ((si - sj) + fCorr param * (sti - stj)))%Q.
Proof.
  intros Hs Hsw Hrun Hblock Hij Hj.
  unfold calculateInteractionMatrix in Hrun. simpl in Hrun.
  destruct (neutral_pass segments param T A) as [A0|f A0] eqn:Hpass;
    simpl in Hrun; [|done].
  rewrite Hsw in Hrun. simpl in Hrun.
  pose proof (renormalise_run param (size segments) A0 ps) as H.
  rewrite Hrun in H. destruct H as ((_ & _ & Hshift & _) & _).
  rewrite (Hshift i j Hij Hj).
  assert (Hbi : in_block segments i i).
  { destruct Hblock as (lo & up & Hlo & Hup & ? & ?). exists lo, up. repeat split; try done; lia. }
  assert (Hbj : in_block segments j j).
  { destruct Hblock as (lo & up & Hlo & Hup & ? & ?). exists lo, up. repeat split; try done; lia. }
  pose proof (neutral_pass_entry _ _ _ _ _ _ _ Hpass Hblock) as Eij.
  pose proof (neutral_pass_entry _ _ _ _ _ _ _ Hpass Hbi) as Eii.
  pose proof (neutral_pass_entry _ _ _ _ _ _ _ Hpass Hbj) as Ejj.
  apply (entry_value_diagonal _ _ _ _ _ Hs) in Eii as (si & sti & Hli & Eii).
  apply (entry_value_diagonal _ _ _ _ _ Hs) in Ejj as (sj & stj & Hlj & Ejj).
  apply entry_value_inr in Eij
    as (si' & sti' & sj' & val & out & Hloc & Hsi & Hsj & Hval & Hout & Hv).
  rewrite Hli in Hloc. injection Hloc as <- <-.
  pose proof (outer_locals_Some _ _ _ _ _ Hlj) as [Hsj' Htj].
  rewrite Hsj' in Hsj. injection Hsj as <-.
  exists si, sti, sj, stj, out. repeat (split; [done|]).
  pose proof (outer_locals_Some _ _ _ _ _ Hli) as [_ Hti].
  apply misfit_value_Some in Hval.
  split.
  - intros Hm. destruct (Z.ltb_spec 0 (sw_misfit param)); [lia|done].
  - rewrite Eii, Ejj.
    assert (Hval' : (val == misfit_prefactor param * (si + sj)
                            * ((si + sj) + fCorr param * (sti + stj)))%Q).
    { destruct (0 <? sw_misfit param).
      - destruct Htj as (scj & Hscj & ->). destruct Hval as (scj' & Hscj' & ->).
        rewrite Hscj in Hscj'. injection Hscj' as <-. reflexivity.
      - subst sti stj val. ring. }
    destruct out as [x| |msg]; [| |done]; rewrite Hv; simpl; rewrite Hval'; ring.
Qed.

Lemma renormalised_entry_closed_form_witness :
  exists si sti sj stj out,
    outer_locals donor_acceptor_segments (sample_parameters 2 1 1 0.0084) 0
    = Some (si, sti) /\
    outer_locals donor_acceptor_segments (sample_parameters 2 1 1 0.0084) 1
    = Some (sj, stj) /\
    hydrogen_bond donor_acceptor_segments (sample_parameters 2 1 1 0.0084)
      298.15 si sj 0 1 = Some out /\
    (sw_misfit (sample_parameters 2 1 1 0.0084) <= 0 -> sti = 0%Q /\ stj = 0%Q) /\
    (coeff (state_of (calculateInteractionMatrix donor_acceptor_segments
              (sample_parameters 2 1 1 0.0084) 298.15
              (zero_matrix 2, [sample_partial 2]))).1 1 0 ==
     hb_amount out
     - misfit_prefactor (sample_parameters 2 1 1 0.0084) * (si - sj)
       * ((si - sj) + fCorr (sample_parameters 2 1 1 0.0084) * (sti - stj)))%Q.
Proof.
  apply (renormalised_entry_closed_form donor_acceptor_segments
           (sample_parameters 2 1 1 0.0084) 298.15 (zero_matrix 2)
           [sample_partial 2] _
           (state_of (calculateInteractionMatrix donor_acceptor_segments
              (sample_parameters 2 1 1 0.0084) 298.15
              (zero_matrix 2, [sample_partial 2]))).2).
  - discriminate.
  - reflexivity.
  - vm_compute. reflexivity.
  - exists 0, 2. vm_compute. repeat split; discriminate.
  - lia.
  - reflexivity.
Defined.

(** ** apply_vector_permutation_in_place and the comparator *)

Lemma gathered_Permutation {T} n p (vec vec' : list T) :
  is_permutation n p -> vsize vec = n -> gathered p vec vec' -> vec' ≡ₚ vec.
Proof.
  intros (Hlen & Hran & Hinj) Hvec [Hsz Hg].
  apply Permutation_inj. split; [unfold vsize in *; lia|].
  exists (fun i => match p !! i with Some x => Z.to_nat x | None => i end).
  assert (Hp : forall i x, p !! i = Some x -> vget p (Z.of_nat i) = Some x).
  { intros i x Hi. apply vget_Some. split; [lia|]. by rewrite Nat2Z.id. }
  split.
  - intros i j. destruct (p !! i) as [x|] eqn:Ei, (p !! j) as [y|] eqn:Ej.
    + intros E. pose proof (Hran _ _ (Hp _ _ Ei)). pose proof (Hran _ _ (Hp _ _ Ej)).
      assert (x = y) by lia. subst y.
      pose proof (Hinj _ _ _ (Hp _ _ Ei) (Hp _ _ Ej)). lia.
    + intros E. pose proof (Hran _ _ (Hp _ _ Ei)).
      apply lookup_ge_None in Ej. unfold vsize in *. lia.
    + intros E. pose proof (Hran _ _ (Hp _ _ Ej)).
      apply lookup_ge_None in Ei. unfold vsize in *. lia.
    + done.
  - intros i. destruct (p !! i) as [x|] eqn:Ei.
    + pose proof (Hg _ _ (Hp _ _ Ei)) as E. pose proof (Hran _ _ (Hp _ _ Ei)).
      unfold vget in E. destruct (decide (0 <= Z.of_nat i)); [|lia].
      destruct (decide (0 <= x)); [|lia]. by rewrite Nat2Z.id in E.
    + apply lookup_ge_None in Ei.
      rewrite (proj2 (lookup_ge_None vec' i)) by (unfold vsize in *; lia).
      symmetry. apply lookup_ge_None. unfold vsize in *. lia.
Qed.

(** X7: for a vector p that holds every index of vec once,
    apply_vector_permutation_in_place returns, leaves vec[p[k]] at every
    position k, and the vector it leaves is a rearrangement of vec. *)
Theorem permutation_applied_in_place {T} (vec : list T) (p : list Z) :
  is_permutation (vsize vec) p ->
  exists vec',
    apply_vector_permutation_in_place vec p = Ok vec' /\
    vsize vec' = vsize vec /\
    (forall k x, vget p k = Some x -> vget vec' k = vget vec x) /\
    vec' ≡ₚ vec.
Proof.
  intros Hp.
  destruct (apply_vector_permutation_in_place_run (vsize vec) p vec Hp eq_refl)
    as (vec' & Hrun & Hg).
  exists vec'. split; [done|]. split; [apply Hg|]. split; [apply Hg|].
  by apply (gathered_Permutation (vsize vec) p).
Qed.

Lemma permutation_applied_in_place_witness :
  exists vec',
    apply_vector_permutation_in_place [10; 20; 30; 40] [2; 0; 1; 3] = Ok vec' /\
    vsize vec' = vsize [10; 20; 30; 40] /\
    (forall k x, vget [2; 0; 1; 3] k = Some x ->
                 vget vec' k = vget [10; 20; 30; 40] x) /\
    vec' ≡ₚ [10; 20; 30; 40].
Proof.
  apply (permutation_applied_in_place [10; 20; 30; 40] [2; 0; 1; 3]).
  apply (permutation_is_permutation 4); [lia|].
  change (seqZ 0 4) with [0; 1; 2; 3].
  change [2; 0; 1; 3] with ([2; 0; 1] ++ [3]).
  change [0; 1; 2; 3] with ([0; 1; 2] ++ [3]).
  apply Permutation_app_tail.
  etrans; [apply Permutation_swap|]. apply perm_skip, Permutation_swap.
Defined.

(** X8: on parallel vectors the lambda given to std::sort reads in bounds
    and is a strict total order on the indices: it is irreflexive, of two
    different indices exactly one comes before the other, and it is
    transitive. *)
Theorem comparator_strict_total_order c :
  parallel c ->
  (forall i, 0 <= i < size c -> less c i i = Some false) /\
  (forall i j, 0 <= i < size c -> 0 <= j < size c -> i <> j ->
     exists b, less c i j = Some b /\ less c j i = Some (negb b)) /\
  (forall i j k, 0 <= i < size c -> 0 <= j < size c -> 0 <= k < size c ->
     less c i j = Some true -> less c j k = Some true -> less c i k = Some true).
Proof.
  intros Hpar. pose proof (lessb_strict_order c) as [Hirr Htot Htr].
  split; [|split].
  - intros i Hi. by rewrite less_lessb, Hirr.
  - intros i j Hi Hj Hne. exists (lessb c i j).
    rewrite !less_lessb by done. split; [done|].
    by rewrite (Htot i j Hne), negb_involutive.
  - intros i j k Hi Hj Hk. rewrite !less_lessb by done.
    intros [= H1] [= H2]. by rewrite (Htr i j k H1 H2).
Qed.

Lemma comparator_strict_total_order_witness :
  (forall i, 0 <= i < size repeated_key_collection ->
     less repeated_key_collection i i = Some false) /\
  (forall i j, 0 <= i < size repeated_key_collection ->
     0 <= j < size repeated_key_collection -> i <> j ->
     exists b, less repeated_key_collection i j = Some b /\
               less repeated_key_collection j i = Some (negb b)) /\
  (forall i j k, 0 <= i < size repeated_key_collection ->
     0 <= j < size repeated_key_collection ->
     0 <= k < size repeated_key_collection ->
     less repeated_key_collection i j = Some true ->
     less repeated_key_collection j k = Some true ->
     less repeated_key_collection i k = Some true).
Proof.
  apply (comparator_strict_total_order repeated_key_collection).
  by split.
Defined.

(** ** sort: the order and the group ranges it leaves *)

Lemma tier_true eqb ltb rest i j :
  tier eqb ltb rest i j = true ->
  (eqb i j = false /\ ltb i j = true) \/ (eqb i j = true /\ rest i j = true).
Proof. unfold tier. destruct (eqb i j); simpl; auto. Qed.

Lemma tierZ_true X rest i j :
  tier (eqZ X) (ltZ X) rest i j = true ->
  read 0 X i <= read 0 X j /\ (read 0 X i = read 0 X j -> rest i j = true).
Proof.
  intros [[E L]|[E R]]%tier_true; unfold eqZ, ltZ in *.
  - apply Z.eqb_neq in E. apply Z.ltb_lt in L. split; [lia|done].
  - apply Z.eqb_eq in E. split; [lia|done].
Qed.

Lemma tierQ_true X rest i j :
  tier (eqQ X) (ltQ X) rest i j = true ->
  (read 0%Q X i <= read 0%Q X j)%Q /\
  ((read 0%Q X i == read 0%Q X j)%Q -> rest i j = true).
Proof.
  intros [[E L]|[E R]]%tier_true; unfold eqQ, ltQ in *.
  - apply Qltb_lt in L. split; [lra|]. intros H%Qeq_bool_iff. congruence.
  - apply Qeq_bool_iff in E. split; [lra|done].
Qed.

Lemma keys_less_ordered c a b :
  keys_less c (fun _ _ => true) a b = true -> key_ordered c a b.
Proof.
  unfold keys_less, key_ordered. cbv zeta. intros [Hg Hrest]%tierZ_true.
  split; [done|]. intros Eg. specialize (Hrest Eg). cbv beta in Hrest.
  assert (Hcommon : common_tiers c (fun _ _ => true) a b = true ->
    (read 0%Q (SegmentTypeSigma c) a <= read 0%Q (SegmentTypeSigma c) b)%Q /\
    ((read 0%Q (SegmentTypeSigma c) a == read 0%Q (SegmentTypeSigma c) b)%Q ->
     (read 0%Q (SegmentTypeSigmaCorr c) a <= read 0%Q (SegmentTypeSigmaCorr c) b)%Q /\
     ((read 0%Q (SegmentTypeSigmaCorr c) a == read 0%Q (SegmentTypeSigmaCorr c) b)%Q ->
      read 0 (SegmentTypeHBtype c) a <= read 0 (SegmentTypeHBtype c) b /\
      (read 0 (SegmentTypeHBtype c) a = read 0 (SegmentTypeHBtype c) b ->
       read 0 (SegmentTypeAtomicNumber c) a <= read 0 (SegmentTypeAtomicNumber c) b)))).
  { unfold common_tiers. intros [Hs H1]%tierQ_true. split; [done|].
    intros Es. apply H1 in Es as [Hsc H2]%tierQ_true. split; [done|].
    intros Esc. apply H2 in Esc as [Hh H3]%tierZ_true. split; [done|].
    intros Eh. by apply H3 in Eh as [Han _]%tierZ_true. }
  destruct (monoatomic_ion c a).
  - apply tierZ_true in Hrest as [Han Hrest]. split; [done|].
    intros Ean. apply Hcommon, Hrest. by apply Ean.
  - split; [done|]. intros _. by apply Hcommon.
Qed.

(* The collection sort() gathers is in comparator order. *)
Lemma gathered_in_order p c c1 a b :
  p ≡ₚ seqZ 0 (size c) ->
  StronglySorted (fun i j => lessb c i j = true) p ->
  permuted p c c1 -> 0 <= a < b -> b < size c ->
  keys_less c1 (fun _ _ => true) a b = true.
Proof.
  intros Hperm Hsorted Hpm Ha Hb.
  pose proof (permutation_is_permutation (size c) p
                ltac:(apply vsize_nonneg) Hperm) as (Hlen & _).
  destruct (proj1 (vget_is_Some p a) ltac:(lia)) as [xa Hxa].
  destruct (proj1 (vget_is_Some p b) ltac:(lia)) as [xb Hxb].
  pose proof (StronglySorted_vget _ _ _ _ _ _ Hsorted Hxa Hxb ltac:(lia)) as Hlt.
  simpl in Hlt.
  rewrite (keys_less_gathered p c c1 (fun _ _ => true) (fun _ _ => true)
             a b xa xb Hpm Hxa Hxb) by done.
  by apply keys_less_last in Hlt.
Qed.

(* sort() leaves the keys in order; the bound arrays do not matter here. *)
Lemma sort_in_order c :
  sortable c -> 0 < size c ->
  exists c1, sort c = Ok c1 /\ size c1 = size c /\
    forall a b, 0 <= a < b -> b < size c1 ->
      keys_less c1 (fun _ _ => true) a b = true.
Proof.
  intros Hs Hn.
  destruct (sort_run c Hs Hn)
    as (p & c1 & c2 & Hp & Hperm & Hsorted & Hpm & Hs1 & Hb1 & Hsort).
  pose proof (permutation_is_permutation (size c) p ltac:(lia) Hperm) as Hip.
  destruct (permuted_sortable _ _ _ _ Hip eq_refl Hs Hpm) as (_ & Hsz1 & _).
  destruct (sort_bounds_run c1 Hs1 ltac:(lia)) as (lo & up & cnt & Hb1' & _).
  rewrite Hb1 in Hb1'. injection Hb1' as ->.
  exists (with_bounds lo up cnt c1). split; [done|]. split; [done|].
  intros a b Ha Hb.
  change (keys_less c1 (fun _ _ => true) a b = true).
  change (size (with_bounds lo up cnt c1)) with (size c1) in Hb.
  apply (gathered_in_order p c c1); try done. lia.
Qed.

(** X9: sort() leaves the segment types in the order of the comparator's
    key lines: for positions a < b the group at a is at most the group at b;
    inside a group of monoatomic ions (3 and 5) the atomic number comes
    first; then sigma, sigmaCorr, hbType and atomic number decide, each when
    the keys before it are equal. *)
Theorem sort_orders_segment_types c :
  sortable c -> 0 < size c ->
  exists c1, sort c = Ok c1 /\ size c1 = size c /\
    forall a b, 0 <= a < b -> b < size c1 -> key_ordered c1 a b.
Proof.
  intros Hs Hn. destruct (sort_in_order c Hs Hn) as (c1 & Hsort & Hsz & Hord).
  exists c1. split; [done|]. split; [done|].
  intros a b Ha Hb. by apply keys_less_ordered, Hord.
Qed.

Lemma sort_orders_segment_types_witness :
  exists c1, sort repeated_key_collection = Ok c1 /\
    size c1 = size repeated_key_collection /\
    forall a b, 0 <= a < b -> b < size c1 -> key_ordered c1 a b.
Proof.
  apply (sort_orders_segment_types repeated_key_collection).
  - split; [by split| |reflexivity|reflexivity|reflexivity].
    intros g Hg. simpl in Hg.
    repeat (apply elem_of_cons in Hg as [->|Hg]; [lia|]).
    by apply elem_of_nil in Hg.
  - reflexivity.
Defined.

Section scan_sorted.
Variables (group lo0 up0 : list Z).
Hypothesis Hgroups : forall g, g ∈ group -> 0 <= g <= 6.
Hypothesis Hlo0 : vsize lo0 = 7.
Hypothesis Hup0 : vsize up0 = 7.
Hypothesis Hsorted : nondecreasing group.

Lemma scan_step_exact i st st' :
  0 <= i < vsize group -> scanning group lo0 up0 i st -> scan_exact group i st ->
  scan_step group i st = Ok st' -> scan_exact group (i + 1) st'.
Proof.
  intros Hi (Hlo & Hup & Ht & _) [Hb Hc]. unfold scan_step.
  destruct (proj1 (vget_is_Some group i) Hi) as [g Hg]. rewrite Hg.
  assert (Hgr : 0 <= g <= 6) by (apply Hgroups, elem_of_vget; eauto).
  destruct (Z.eqb_spec (temporaryindex st) g) as [E|Hne]; simpl.
  - intros [= <-].
    assert (Hi0 : 0 < i) by (destruct (decide (i = 0)); lia).
    split.
    + intros g' Hg' (k & Hk & Hgk).
      assert (k <> i) by (intros ->; congruence).
      destruct (Hb g' Hg') as (l & u & Hl & Hu & Hlu & Hui & Hiff);
        [exists k; split; [lia|done]|].
      exists l, u. split; [done|]. split; [done|]. split; [done|]. split; [lia|].
      intros k' Hk'. destruct (decide (k' = i)) as [->|].
      * split; [intros ?; congruence|lia].
      * apply Hiff. lia.
    + intros _. destruct (Hc Hi0) as (l & Hl & Hli & Hiff).
      exists l. split; [done|]. split; [lia|].
      intros k' Hk'. destruct (decide (k' = i)) as [->|].
      * split; [lia|intros _; congruence].
      * apply Hiff. lia.
  - destruct (decide (i = 0)) as [->|Hi0].
    + rewrite Ht. simpl.
      destruct (vset (scan_lower st) g 0) as [lo|] eqn:Hset; [|done].
      intros [= <-]. unfold scan_exact. cbn [temporaryindex scan_lower scan_upper]. split.
      * intros g' Hg' (k & Hk & Hgk).
        pose proof (vget_range _ _ _ Hgk). assert (k = 0) by lia. congruence.
      * intros _. exists 0. split.
        { rewrite (proj2 (vget_vset _ _ _ _ g Hset)). by destruct (decide (g = g)). }
        split; [lia|]. intros k Hk. split.
        { intros Hgk. pose proof (vget_range _ _ _ Hgk). lia. }
        { intros ?. assert (k = 0) by lia. congruence. }
    + assert (Htin : temporaryindex st ∈ group) by (apply elem_of_vget; eauto).
      pose proof (Hgroups _ Htin) as Htr.
      destruct (Z.eqb_spec (temporaryindex st) (-1)) as [?|_]; [lia|]. simpl.
      destruct (vset (scan_upper st) (temporaryindex st) i) as [up|] eqn:Hsetu;
        [|done].
      destruct (vset (scan_lower st) g i) as [lo|] eqn:Hsetl; [|done].
      intros [= <-]. unfold scan_exact. cbn [temporaryindex scan_lower scan_upper].
      assert (Hlt : temporaryindex st < g).
      { pose proof (Hsorted (i - 1) i _ _ ltac:(lia) Ht Hg). lia. }
      split.
      * intros g' Hg' (k & Hk & Hgk).
        assert (k <> i) by (intros ->; congruence).
        rewrite (proj2 (vget_vset _ _ _ _ g' Hsetl)).
        rewrite (proj2 (vget_vset _ _ _ _ g' Hsetu)).
        destruct (decide (g' = g)) as [|_]; [done|].
        destruct (decide (g' = temporaryindex st)) as [->|Hnt].
        { destruct (Hc ltac:(lia)) as (l & Hl & Hli & Hiff).
          exists l, i. split; [done|]. split; [done|]. split; [lia|]. split; [lia|].
          intros k' Hk'. destruct (decide (k' = i)) as [->|].
          - split; [intros ?; congruence|lia].
          - rewrite (Hiff k') by lia. lia. }
        { destruct (Hb g' Hnt) as (l & u & Hl & Hu & Hlu & Hui & Hiff);
            [exists k; split; [lia|done]|].
          exists l, u. split; [done|]. split; [done|]. split; [done|]. split; [lia|].
          intros k' Hk'. destruct (decide (k' = i)) as [->|].
          - split; [intros ?; congruence|lia].
          - apply Hiff. lia. }
      * intros _. exists i. split.
        { rewrite (proj2 (vget_vset _ _ _ _ g Hsetl)). by destruct (decide (g = g)). }
        split; [lia|]. intros k Hk. destruct (decide (k = i)) as [->|Hki].
        { split; [lia|done]. }
        { split; [|lia]. intros Hgk. exfalso.
          destruct (decide (k = i - 1)) as [->|].
          - rewrite Ht in Hgk. injection Hgk as ?. lia.
          - pose proof (vget_range _ _ _ Hgk).
            pose proof (Hsorted k (i - 1) _ _ ltac:(lia) Hgk Ht). lia. }
Qed.

Lemma scan_exact_run :
  exists st,
    for_range 0 (vsize group) (scan_step group) (mkScan lo0 up0 (-1)) = Ok st /\
    scanning group lo0 up0 (vsize group) st /\ scan_exact group (vsize group) st.
Proof.
  apply (for_range_total
           (fun i st => scanning group lo0 up0 i st /\ scan_exact group i st)).
  - apply vsize_nonneg.
  - split; [by repeat split|]. split.
    + intros g _ (k & Hk & Hgk). pose proof (vget_range _ _ _ Hgk). lia.
    + lia.
  - intros i st Hi [Hscan Hex].
    destruct (scan_step_run group lo0 up0 Hgroups i st Hi Hscan)
      as (st' & Hstep & Hscan').
    exists st'. split; [done|]. split; [done|].
    by apply (scan_step_exact i st).
Qed.
End scan_sorted.

(* On a collection whose groups are in order, the scan and the count loop
   leave the exact range of every group that occurs. *)
Lemma sort_bounds_exact c :
  sortable c -> 0 < size c -> nondecreasing (SegmentTypeGroup c) ->
  exists lo up cnt,
    sort_bounds c = Ok (with_bounds lo up cnt c) /\
    forall g, g ∈ SegmentTypeGroup c ->
      exists l u, vget lo g = Some l /\ vget up g = Some u /\
                  vget cnt g = Some (u - l) /\
                  occupies (SegmentTypeGroup c) g l u.
Proof.
  intros [Hpar Hgr Hlo Hup Hcnt] Hn Hsorted. unfold sort_bounds.
  rewrite <- (parallel_group _ Hpar).
  destruct (scan_exact_run (SegmentTypeGroup c) (lowerBoundIndexForGroup c)
              (upperBoundIndexForGroup c) Hgr Hlo Hup Hsorted)
    as (st & -> & (Hslo & Hsup & Ht & _) & Hb & Hc).
  rewrite (parallel_group _ Hpar) in *.
  destruct (decide (size c = 0)); [lia|].
  assert (Htin : temporaryindex st ∈ SegmentTypeGroup c)
    by (apply elem_of_vget; eauto).
  pose proof (Hgr _ Htin) as Htr.
  destruct (vset_is_Some (scan_upper st) (temporaryindex st) (size c) ltac:(lia))
    as [up Hset].
  rewrite Hset.
  pose proof (vget_vset _ _ _ _ 0 Hset) as [Hupsz _].
  pose proof (count_loop_run (scan_lower st) up (numberOfSegmentsForGroup c)) as Hcl.
  destruct (for_range 0 7 _ _) as [cnt|f cnt]; [|exfalso; apply Hcl; lia].
  destruct Hcl as (Hcsz & Hcdone & _).
  exists (scan_lower st), up, cnt. split; [done|].
  intros g Hg. pose proof (Hgr g Hg) as Hgrange.
  assert (Hrange : exists l u, vget (scan_lower st) g = Some l /\
            vget up g = Some u /\ occupies (SegmentTypeGroup c) g l u).
  { rewrite (proj2 (vget_vset _ _ _ _ g Hset)).
    destruct (decide (g = temporaryindex st)) as [->|Hne].
    - destruct (Hc Hn) as (l & Hl & Hli & Hiff). exists l, (size c).
      split; [done|]. split; [done|]. split; [lia|].
      split; [rewrite (parallel_group _ Hpar); lia|].
      intros k. destruct (decide (k < size c)) as [Hk|Hk].
      + rewrite (Hiff k Hk). lia.
      + split; [|lia]. intros Hgk%vget_range. rewrite (parallel_group _ Hpar) in Hgk. lia.
    - apply elem_of_vget in Hg as [k Hk]. pose proof (vget_range _ _ _ Hk) as Hkr.
      rewrite (parallel_group _ Hpar) in Hkr.
      destruct (Hb g Hne) as (l & u & Hl & Hu & Hlu & Hui & Hiff);
        [exists k; split; [lia|done]|].
      exists l, u. split; [done|]. split; [done|]. split; [lia|].
      split; [rewrite (parallel_group _ Hpar); lia|].
      intros k'. destruct (decide (k' < size c)) as [Hk'|Hk'].
      + by apply Hiff.
      + split; [|lia]. intros Hgk%vget_range.
        rewrite (parallel_group _ Hpar) in Hgk. lia. }
  destruct Hrange as (l & u & Hl & Hu & Hocc). exists l, u.
  split; [done|]. split; [done|]. split; [|done].
  destruct (Hcdone g ltac:(lia)) as (u' & l' & Hu' & Hl' & ->).
  rewrite Hu in Hu'. rewrite Hl in Hl'. injection Hu' as <-. injection Hl' as <-.
  destruct Hocc as (? & _). f_equal. lia.
Qed.

Lemma ordered_nondecreasing c :
  (forall a b, 0 <= a < b -> b < size c ->
     keys_less c (fun _ _ => true) a b = true) ->
  vsize (SegmentTypeGroup c) = size c ->
  nondecreasing (SegmentTypeGroup c).
Proof.
  intros Hord Hsz a b xa xb Hab Ha Hb.
  pose proof (vget_range _ _ _ Ha). pose proof (vget_range _ _ _ Hb).
  destruct (keys_less_ordered c a b (Hord a b ltac:(lia) ltac:(lia))) as [Hg _].
  unfold read in Hg. by rewrite Ha, Hb in Hg.
Qed.

(* Everything sort() establishes on a collection it accepts. *)
Lemma sort_full c :
  sortable c -> 0 < size c ->
  exists c1,
    sort c = Ok c1 /\ sortable c1 /\ size c1 = size c /\
    SegmentTypeGroup c1 ≡ₚ SegmentTypeGroup c /\
    nondecreasing (SegmentTypeGroup c1) /\
    (forall g, g ∈ SegmentTypeGroup c ->
       exists l u, vget (lowerBoundIndexForGroup c1) g = Some l /\
                   vget (upperBoundIndexForGroup c1) g = Some u /\
                   vget (numberOfSegmentsForGroup c1) g = Some (u - l) /\
                   occupies (SegmentTypeGroup c1) g l u) /\
    (forall g, g ∉ SegmentTypeGroup c ->
       vget (lowerBoundIndexForGroup c1) g = vget (lowerBoundIndexForGroup c) g /\
       vget (upperBoundIndexForGroup c1) g = vget (upperBoundIndexForGroup c) g).
Proof.
  intros Hs Hn.
  destruct (sort_run c Hs Hn)
    as (p & c1 & c2 & Hp & Hperm & Hsorted & Hpm & Hs1 & Hb1 & Hsort).
  pose proof (permutation_is_permutation (size c) p ltac:(lia) Hperm) as Hip.
  destruct (permuted_sortable _ _ _ _ Hip eq_refl Hs Hpm) as (_ & Hsz1 & Hsub).
  assert (Hgp : SegmentTypeGroup c1 ≡ₚ SegmentTypeGroup c).
  { apply (gathered_Permutation (size c) p); [done| |apply Hpm].
    apply (sortable_parallel _ Hs). }
  assert (Hnd : nondecreasing (SegmentTypeGroup c1)).
  { apply ordered_nondecreasing; [|apply (sortable_parallel _ Hs1)].
    intros a b Ha Hb. apply (gathered_in_order p c c1); try done. lia. }
  destruct (sort_bounds_exact c1 Hs1 ltac:(lia) Hnd) as (lo & up & cnt & Hb1' & Hex).
  destruct (sort_bounds_run c1 Hs1 ltac:(lia))
    as (lo' & up' & cnt' & Hb1'' & Hlo7 & Hup7 & Hcnt7 & Hframe & _).
  rewrite Hb1' in Hb1''. injection Hb1'' as <- <- <-.
  rewrite Hb1 in Hb1'. injection Hb1' as ->.
  exists (with_bounds lo up cnt c1). split; [done|].
  split; [|split; [done|split; [done|split; [done|split]]]].
  - destruct Hs1 as [[? ? ? ? ?] ? ? ? ?]. by split.
  - intros g Hg. apply Hex. by rewrite Hgp.
  - intros g Hg. destruct (Hframe g) as [E1 E2]; [by rewrite Hgp|].
    simpl. rewrite E1, E2.
    by rewrite (permuted_lower _ _ _ Hpm), (permuted_upper _ _ _ Hpm).
Qed.

(** X10: after sort() every group that occurs has its exact range: the
    segment types of group g are those at the positions
    lowerBoundIndexForGroup[g] .. upperBoundIndexForGroup[g] - 1, and
    numberOfSegmentsForGroup[g] is the length of that range. *)
Theorem sort_group_ranges c :
  sortable c -> 0 < size c ->
  exists c1,
    sort c = Ok c1 /\
    forall g, g ∈ SegmentTypeGroup c ->
      exists l u, vget (lowerBoundIndexForGroup c1) g = Some l /\
                  vget (upperBoundIndexForGroup c1) g = Some u /\
                  vget (numberOfSegmentsForGroup c1) g = Some (u - l) /\
                  0 <= l < u /\ u <= size c1 /\
                  forall k, vget (SegmentTypeGroup c1) k = Some g <-> l <= k < u.
Proof.
  intros Hs Hn.
  destruct (sort_full c Hs Hn) as (c1 & Hsort & Hs1 & Hsz & _ & _ & Hex & _).
  exists c1. split; [done|]. intros g Hg.
  destruct (Hex g Hg) as (l & u & Hl & Hu & Hc & Hlu & Hun & Hiff).
  exists l, u. repeat (split; [done|]).
  split; [|done]. by rewrite <- (parallel_group _ (sortable_parallel _ Hs1)).
Qed.

Lemma sort_group_ranges_witness :
  exists c1,
    sort two_group_collection = Ok c1 /\
    forall g, g ∈ SegmentTypeGroup two_group_collection ->
      exists l u, vget (lowerBoundIndexForGroup c1) g = Some l /\
                  vget (upperBoundIndexForGroup c1) g = Some u /\
                  vget (numberOfSegmentsForGroup c1) g = Some (u - l) /\
                  0 <= l < u /\ u <= size c1 /\
                  forall k, vget (SegmentTypeGroup c1) k = Some g <-> l <= k < u.
Proof.
  apply (sort_group_ranges two_group_collection).
  - split; [by split| |reflexivity|reflexivity|reflexivity].
    intros g Hg. vm_compute in Hg.
    repeat (apply elem_of_cons in Hg as [->|Hg]; [lia|]).
    by apply elem_of_nil in Hg.
  - reflexivity.
Defined.

(* On a collection made by segmentTypeCollection(n) and add, a group
   without member keeps the bounds 0 through sort(). *)
Lemma sort_full_built n c :
  built n c -> 0 < size c ->
  (forall g, g ∈ SegmentTypeGroup c -> 0 <= g <= 6) ->
  exists c1,
    sort c = Ok c1 /\ sortable c1 /\ size c1 = size c /\
    nondecreasing (SegmentTypeGroup c1) /\
    forall g, 0 <= g <= 6 ->
      exists l u, vget (lowerBoundIndexForGroup c1) g = Some l /\
                  vget (upperBoundIndexForGroup c1) g = Some u /\
                  ((g ∈ SegmentTypeGroup c1 /\ occupies (SegmentTypeGroup c1) g l u) \/
                   ((g ∉ SegmentTypeGroup c1) /\ l = 0 /\ u = 0)).
Proof.
  intros Hb Hn Hgr. pose proof (built_sortable n c Hb Hgr) as Hs.
  destruct (built_bounds n c Hb) as (El & Eu & _).
  destruct (sort_full c Hs Hn) as (c1 & Hsort & Hs1 & Hsz & Hgp & Hnd & Hex & Hframe).
  exists c1. repeat (split; [done|]). intros g Hg.
  destruct (decide (g ∈ SegmentTypeGroup c)) as [Hin|Hout].
  - destruct (Hex g Hin) as (l & u & Hl & Hu & _ & Hocc).
    exists l, u. split; [done|]. split; [done|]. left. split; [by rewrite Hgp|done].
  - destruct (Hframe g Hout) as [E1 E2]. rewrite El in E1. rewrite Eu in E2.
    rewrite vget_replicate in E1, E2 by lia.
    exists 0, 0. split; [done|]. split; [done|]. right. split; [by rewrite Hgp|done].
Qed.

(** X11: on a collection made by segmentTypeCollection(n) and add, with at
    least one segment type and groups in [0, 6], sort() leaves
    lowerBoundIndexForGroup[0] = 0 and the maximum N of the upper bounds of
    groups 0, 1 and 2 such that the segment types of the neutral groups
    (group <= 2) are those at the positions below N: the loops of
    calculateInteractionMatrix visit the pairs 0 <= i <= j < N. *)
Theorem sorted_neutral_block n c :
  built n c -> 0 < size c ->
  (forall g, g ∈ SegmentTypeGroup c -> 0 <= g <= 6) ->
  exists c1 N,
    sort c = Ok c1 /\
    vget (lowerBoundIndexForGroup c1) 0 = Some 0 /\
    UpperBoundIndexForNeutralComponents c1 = Some N /\
    0 <= N <= size c1 /\
    (forall k g, vget (SegmentTypeGroup c1) k = Some g -> (g <= 2 <-> k < N)) /\
    (forall i j, in_block c1 i j <-> 0 <= i <= j /\ j < N).
Proof.
  intros Hb Hn Hgr.
  destruct (sort_full_built n c Hb Hn Hgr) as (c1 & Hsort & Hs1 & Hsz & Hnd & Hrange).
  pose proof (parallel_group _ (sortable_parallel _ Hs1)) as Hgsz.
  destruct (Hrange 0 ltac:(lia)) as (l0 & u0 & Hl0 & Hu0 & H0).
  destruct (Hrange 1 ltac:(lia)) as (l1 & u1 & Hl1 & Hu1 & H1).
  destruct (Hrange 2 ltac:(lia)) as (l2 & u2 & Hl2 & Hu2 & H2).
  assert (Hgr1 : forall k g, vget (SegmentTypeGroup c1) k = Some g -> 0 <= g <= 6).
  { intros k g Hk. apply (sortable_groups _ Hs1), elem_of_vget. eauto. }
  assert (Hl00 : l0 = 0).
  { destruct H0 as [[_ (Hlu & _ & Hiff)]|(_ & -> & _)]; [|done].
    destruct (proj1 (vget_is_Some (SegmentTypeGroup c1) 0) ltac:(lia)) as [g0 Hg0].
    destruct (decide (l0 = 0)) as [|Hne]; [done|].
    pose proof (proj2 (Hiff l0) ltac:(lia)) as Hat.
    pose proof (Hnd 0 l0 _ _ ltac:(lia) Hg0 Hat).
    pose proof (Hgr1 _ _ Hg0). assert (g0 = 0) by lia. subst g0.
    apply Hiff in Hg0. lia. }
  subst l0.
  assert (Hub : forall g l u,
            (g ∈ SegmentTypeGroup c1 /\ occupies (SegmentTypeGroup c1) g l u) \/
            ((g ∉ SegmentTypeGroup c1) /\ l = 0 /\ u = 0) -> 0 <= u <= size c1).
  { intros g l u [[_ (? & ? & _)]|(_ & _ & ->)]; lia. }
  pose proof (Hub _ _ _ H0). pose proof (Hub _ _ _ H1). pose proof (Hub _ _ _ H2).
  assert (Hin : forall g l u k gk,
            (g ∈ SegmentTypeGroup c1 /\ occupies (SegmentTypeGroup c1) g l u) \/
            ((g ∉ SegmentTypeGroup c1) /\ l = 0 /\ u = 0) ->
            vget (SegmentTypeGroup c1) k = Some gk ->
            (gk = g -> k < u) /\ (k < u -> gk <= g)).
  { intros g l u k gk [[_ (Hlu & _ & Hiff)]|(Hout & _ & ->)] Hk.
    - split.
      + intros ->. apply Hiff in Hk. lia.
      + intros Hku. pose proof (proj2 (Hiff (u - 1)) ltac:(lia)) as Hat.
        destruct (decide (k = u - 1)) as [->|];
          [rewrite Hk in Hat; injection Hat as ->; lia|].
        apply (Hnd k (u - 1) _ _ ltac:(lia) Hk Hat).
    - split.
      + intros ->. destruct Hout. apply elem_of_vget. eauto.
      + pose proof (vget_range _ _ _ Hk). lia. }
  exists c1, (Z.max (Z.max u0 u1) u2).
  split; [done|]. split; [done|].
  assert (Hup : UpperBoundIndexForNeutralComponents c1
                = Some (Z.max (Z.max u0 u1) u2)).
  { unfold UpperBoundIndexForNeutralComponents. by rewrite Hu0, Hu1, Hu2. }
  split; [done|]. split; [lia|]. split.
  - intros k g Hk. pose proof (Hgr1 _ _ Hk).
    destruct (Hin 0 _ _ _ _ H0 Hk) as [A0 B0].
    destruct (Hin 1 _ _ _ _ H1 Hk) as [A1 B1].
    destruct (Hin 2 _ _ _ _ H2 Hk) as [A2 B2].
    split.
    + intros Hg. assert (g = 0 \/ g = 1 \/ g = 2) as [E|[E|E]] by lia.
      * specialize (A0 E). lia.
      * specialize (A1 E). lia.
      * specialize (A2 E). lia.
    + intros Hlt.
      assert (k < u0 \/ k < u1 \/ k < u2) as [E|[E|E]] by lia.
      * specialize (B0 E). lia.
      * specialize (B1 E). lia.
      * specialize (B2 E). lia.
  - intros i j. by rewrite (in_block_bounds c1 i j 0 _ Hl0 Hup).
Qed.

Lemma sorted_neutral_block_witness :
  exists c1 N,
    sort two_group_collection = Ok c1 /\
    vget (lowerBoundIndexForGroup c1) 0 = Some 0 /\
    UpperBoundIndexForNeutralComponents c1 = Some N /\
    0 <= N <= size c1 /\
    (forall k g, vget (SegmentTypeGroup c1) k = Some g -> (g <= 2 <-> k < N)) /\
    (forall i j, in_block c1 i j <-> 0 <= i <= j /\ j < N).
Proof.
  apply (sorted_neutral_block 1 two_group_collection).
  - apply built_add_to; [apply built_add_to; [apply built_new|]|]; reflexivity.
  - reflexivity.
  - intros g Hg. vm_compute in Hg.
    apply elem_of_cons in Hg as [->|Hg]; [lia|].
    apply elem_of_cons in Hg as [->|Hg]; [lia|].
    by apply elem_of_nil in Hg.
Defined.

(* A sorted collection made by the constructor and add meets what
   calculateInteractionMatrix needs of it. *)
Lemma sorted_call_in_bounds n c c1 param A ps :
  built n c -> 0 < size c ->
  (forall g, g ∈ SegmentTypeGroup c -> 0 <= g <= 6) ->
  sort c = Ok c1 ->
  size c <= rows A -> size c <= cols A ->
  (sw_useSegmentReferenceStateForInteractionMatrix param = 1 ->
   0 < sw_calculateContactStatisticsAndAdditionalProperties param ->
   numberOfPartialInteractionMatrices param <= vsize ps /\
   forall h P, 0 <= h < numberOfPartialInteractionMatrices param ->
     vget ps h = Some P -> size c <= rows P /\ size c <= cols P) ->
  call_in_bounds c1 param A ps.
Proof.
  intros Hb Hn Hgr Hsort Hr Hc Hps.
  destruct (sort_full_built n c Hb Hn Hgr) as (c1' & Hsort' & Hs1 & Hsz & Hnd & Hrange).
  rewrite Hsort in Hsort'. injection Hsort' as <-.
  assert (Hub : forall g, 0 <= g <= 6 ->
            exists l u, vget (lowerBoundIndexForGroup c1) g = Some l /\
                        vget (upperBoundIndexForGroup c1) g = Some u /\
                        0 <= l /\ u <= size c1).
  { intros g Hg. destruct (Hrange g Hg) as (l & u & Hl & Hu & H).
    exists l, u. split; [done|]. split; [done|].
    rewrite <- (parallel_group _ (sortable_parallel _ Hs1)).
    pose proof (vsize_nonneg (SegmentTypeGroup c1)).
    destruct H as [[_ (? & ? & _)]|(_ & -> & ->)]; lia. }
  destruct (Hub 0 ltac:(lia)) as (l0 & u0 & Hl0 & Hu0 & ? & ?).
  destruct (Hub 1 ltac:(lia)) as (l1 & u1 & Hl1 & Hu1 & ? & ?).
  destruct (Hub 2 ltac:(lia)) as (l2 & u2 & Hl2 & Hu2 & ? & ?).
  split.
  - apply (sortable_parallel _ Hs1).
  - exists l0, (Z.max (Z.max u0 u1) u2). split; [done|]. split.
    + unfold UpperBoundIndexForNeutralComponents. by rewrite Hu0, Hu1, Hu2.
    + lia.
  - lia.
  - lia.
  - rewrite Hsz. exact Hps.
Qed.

(** X12: sort() prepares the collection for calculateInteractionMatrix.
    For a collection made by segmentTypeCollection(n) and add, with at least
    one segment type and groups in [0, 6], sorted, and matrices with at least
    numberOfSegments rows and columns, the call stays inside every vector
    and matrix: if it does not return it has thrown the runtime_error of a
    wrongly oriented donor/acceptor pair, and without such a pair it
    returns. *)
Theorem sorted_collection_call_in_bounds n c c1 param T A ps :
  built n c -> 0 < size c ->
  (forall g, g ∈ SegmentTypeGroup c -> 0 <= g <= 6) ->
  sort c = Ok c1 ->
  size c <= rows A -> size c <= cols A ->
  (sw_useSegmentReferenceStateForInteractionMatrix param = 1 ->
   0 < sw_calculateContactStatisticsAndAdditionalProperties param ->
   numberOfPartialInteractionMatrices param <= vsize ps /\
   forall h P, 0 <= h < numberOfPartialInteractionMatrices param ->
     vget ps h = Some P -> size c <= rows P /\ size c <= cols P) ->
  (forall f st,
     calculateInteractionMatrix c1 param T (A, ps) = Halt f st ->
     exists msg i j,
       f = RuntimeError msg /\ in_block c1 i j /\
       hb_wrong_orientation c1 param i j) /\
  ((forall i j, in_block c1 i j -> ~ hb_wrong_orientation c1 param i j) ->
   exists st, calculateInteractionMatrix c1 param T (A, ps) = Ok st).
Proof.
  intros Hb Hn Hgr Hsort Hr Hc Hps.
  pose proof (sorted_call_in_bounds n c c1 param A ps Hb Hn Hgr Hsort Hr Hc Hps)
    as Hcall.
  pose proof (calculateInteractionMatrix_in_bounds c1 param T A ps Hcall) as H.
  split.
  - intros f st E. by rewrite E in H.
  - intros Hno. destruct (calculateInteractionMatrix _ _ _ _) as [st|f st];
      [by exists st|].
    destruct H as (msg & i & j & _ & Hbl & Hw). by destruct (Hno i j Hbl).
Qed.

Lemma sorted_collection_call_in_bounds_witness :
  (forall f st,
     calculateInteractionMatrix (state_of (sort two_group_collection))
       (sample_parameters 2 1 1 0.0084) 298.15 (zero_matrix 2, [sample_partial 2])
     = Halt f st ->
     exists msg i j,
       f = RuntimeError msg /\
       in_block (state_of (sort two_group_collection)) i j /\
       hb_wrong_orientation (state_of (sort two_group_collection))
         (sample_parameters 2 1 1 0.0084) i j) /\
  ((forall i j, in_block (state_of (sort two_group_collection)) i j ->
      ~ hb_wrong_orientation (state_of (sort two_group_collection))
          (sample_parameters 2 1 1 0.0084) i j) ->
   exists st,
     calculateInteractionMatrix (state_of (sort two_group_collection))
       (sample_parameters 2 1 1 0.0084) 298.15 (zero_matrix 2, [sample_partial 2])
     = Ok st).
Proof.
  apply (sorted_collection_call_in_bounds 1 two_group_collection).
  - apply built_add_to; [apply built_add_to; [apply built_new|]|]; reflexivity.
  - reflexivity.
  - intros g Hg. vm_compute in Hg.
    apply elem_of_cons in Hg as [->|Hg]; [lia|].
    apply elem_of_cons in Hg as [->|Hg]; [lia|].
    by apply elem_of_nil in Hg.
  - vm_compute. reflexivity.
  - vm_compute. discriminate.
  - vm_compute. discriminate.
  - intros _ _. split; [vm_compute; discriminate|].
    intros h P Hh HP. assert (h = 0) as -> by (simpl in Hh; lia).
    injection HP as <-. split; vm_compute; discriminate.
Defined.

(** ** sort and the registry *)

Lemma has_key_permuted p c c1 k x g s sc h an :
  permuted p c c1 -> vget p k = Some x ->
  has_key c1 k g s sc h an <-> has_key c x g s sc h an.
Proof.
  intros [Hg Hs Hsc Hh Han _ _ _ _ _] Hk. rewrite !has_key_iff.
  rewrite (proj2 Hg k x Hk), (proj2 Hs k x Hk), (proj2 Hsc k x Hk),
          (proj2 Hh k x Hk), (proj2 Han k x Hk). reflexivity.
Qed.

(* sort() keeps what add relies on and moves each area row with its key. *)
Lemma sort_well_formed n c :
  well_formed n c -> sortable c -> 0 < size c ->
  exists c1,
    sort c = Ok c1 /\ well_formed n c1 /\ size c1 = size c /\
    forall g s sc h an x,
      has_key c x g s sc h an ->
      exists k, has_key c1 k g s sc h an /\
                vget (SegmentTypeAreas c1) k = vget (SegmentTypeAreas c) x.
Proof.
  intros [Hpar Htpl Hrows Huniq] Hs Hn.
  destruct (sort_run c Hs Hn)
    as (p & c1 & c2 & Hp & Hperm & Hsorted & Hpm & Hs1 & Hb1 & Hsort).
  pose proof (permutation_is_permutation (size c) p ltac:(lia) Hperm) as Hip.
  destruct (permuted_sortable _ _ _ _ Hip eq_refl Hs Hpm) as (_ & Hsz1 & _).
  destruct (sort_bounds_run c1 Hs1 ltac:(lia)) as (lo & up & cnt & Hb1' & _).
  rewrite Hb1 in Hb1'. injection Hb1' as ->.
  exists (with_bounds lo up cnt c1). split; [done|].
  pose proof Hip as (Hlen & Hran & Hinj).
  split; [|split; [done|]].
  - split.
    + destruct Hs1 as [[? ? ? ? ?] _ _ _ _]. by split.
    + simpl. by rewrite (permuted_template _ _ _ Hpm).
    + simpl. apply Forall_forall. intros row Hrow.
      rewrite Forall_forall in Hrows. apply Hrows.
      eapply (gathered_elem_of (size c) p); [done| |apply Hpm|done].
      apply (parallel_areas _ Hpar).
    + intros g s sc h an i j Hi Hj.
      change (has_key c1 i g s sc h an) in Hi.
      change (has_key c1 j g s sc h an) in Hj.
      pose proof (has_key_range _ _ _ _ _ _ _ Hi) as Ri.
      pose proof (has_key_range _ _ _ _ _ _ _ Hj) as Rj.
      destruct (proj1 (vget_is_Some p i) ltac:(lia)) as [xi Hxi].
      destruct (proj1 (vget_is_Some p j) ltac:(lia)) as [xj Hxj].
      apply (has_key_permuted p c c1 i xi) in Hi; [|done|done].
      apply (has_key_permuted p c c1 j xj) in Hj; [|done|done].
      pose proof (Huniq _ _ _ _ _ _ _ Hi Hj) as E. subst xj.
      by eapply Hinj.
  - intros g s sc h an x Hx.
    pose proof (has_key_range _ _ _ _ _ _ _ Hx) as Rx.
    assert (Hin : x ∈ p) by (rewrite Hperm; apply elem_of_seqZ; lia).
    apply elem_of_vget in Hin as [k Hk]. exists k. split.
    + change (has_key c1 k g s sc h an). by apply (has_key_permuted p c c1 k x).
    + simpl. apply (proj2 (permuted_areas _ _ _ Hpm) k x Hk).
Qed.

(** X13: sort() keeps the registry intact.  On a collection with the
    invariants of segmentTypeCollection(n) and add (parallel vectors, rows of
    n areas, one segment type per key) the sorted collection has them too,
    so add keeps working after sort(); and each key is found again with the
    area row it had. *)
Theorem sort_keeps_registry n c :
  well_formed n c -> sortable c -> 0 < size c ->
  exists c1,
    sort c = Ok c1 /\ well_formed n c1 /\ size c1 = size c /\
    forall g s sc h an x,
      has_key c x g s sc h an ->
      exists k, has_key c1 k g s sc h an /\
                vget (SegmentTypeAreas c1) k = vget (SegmentTypeAreas c) x.
Proof. apply sort_well_formed. Qed.

Lemma sort_keeps_registry_witness :
  exists c1,
    sort two_group_collection = Ok c1 /\ well_formed 1 c1 /\
    size c1 = size two_group_collection /\
    forall g s sc h an x,
      has_key two_group_collection x g s sc h an ->
      exists k, has_key c1 k g s sc h an /\
                vget (SegmentTypeAreas c1) k
                = vget (SegmentTypeAreas two_group_collection) x.
Proof.
  assert (Hb : built 1 two_group_collection).
  { apply built_add_to; [apply built_add_to; [apply built_new|]|]; reflexivity. }
  apply (sort_keeps_registry 1 two_group_collection).
  - by apply built_well_formed.
  - apply (built_sortable 1); [done|].
    intros g Hg. vm_compute in Hg.
    apply elem_of_cons in Hg as [->|Hg]; [lia|].
    apply elem_of_cons in Hg as [->|Hg]; [lia|].
    by apply elem_of_nil in Hg.
  - reflexivity.
Defined.

(** ** add: what a call leaves alone, and the area it accounts for *)

(** X14: a call of add with ind_molecule < n on a collection with the
    invariants of segmentTypeCollection(n) returns and keeps them; the
    collection grows by at most one segment type, the segment types that
    were there keep their keys, and the only area that can change is the
    one at ind_molecule in the row of the key that was passed. *)
Theorem add_changes_one_area n c m g s sc h an a :
  well_formed n c -> 0 <= m < n ->
  exists c',
    add m g s sc h an a c = Ok c' /\ well_formed n c' /\
    size c <= size c' <= size c + 1 /\
    (forall i g' s' sc' h' an', i < size c ->
       has_key c' i g' s' sc' h' an' <-> has_key c i g' s' sc' h' an') /\
    (forall i k, ~ (has_key c' i g s sc h an /\ k = m) ->
       stored_area c' i k = stored_area c i k).
Proof.
  intros Hwf Hm. destruct (Qeq_bool a 0) eqn:Ha.
  - exists c. rewrite (add_zero_area _ _ _ _ _ _ _ _ Ha).
    split; [done|]. split; [done|]. split; [lia|]. by split.
  - destruct (add_spec n c m g s sc h an a Hwf Ha Hm)
      as (c' & idx & Hadd & Hwf' & Hkey & Hcase & _ & Hother).
    exists c'. split; [done|]. split; [done|].
    split; [destruct Hcase as [[_ ->]|(_ & _ & ->)]; lia|].
    split; [by apply (add_old_keys n c m g s sc h an a)|].
    intros i k Hne. apply Hother. intros [= -> ->]. by apply Hne.
Qed.

Lemma add_changes_one_area_witness :
  exists c',
    add 0 1 0.004 0.005 1 8 2.5 two_group_collection = Ok c' /\
    well_formed 1 c' /\
    size two_group_collection <= size c' <= size two_group_collection + 1 /\
    (forall i g' s' sc' h' an', i < size two_group_collection ->
       has_key c' i g' s' sc' h' an' <->
       has_key two_group_collection i g' s' sc' h' an') /\
    (forall i k, ~ (has_key c' i 1 0.004 0.005 1 8 /\ k = 0) ->
       stored_area c' i k = stored_area two_group_collection i k).
Proof.
  apply (add_changes_one_area 1 two_group_collection).
  - apply built_well_formed.
    apply built_add_to; [apply built_add_to; [apply built_new|]|]; reflexivity.
  - lia.
Defined.

Lemma area_from_equal c c' m count : forall i,
  (forall j, i <= j < i + Z.of_nat count -> stored_area c' j m = stored_area c j m) ->
  area_from c' m count i = area_from c m count i.
Proof.
  induction count as [|count IH]; intros i H; [done|]. simpl.
  rewrite (H i) by lia. rewrite (IH (i + 1)); [done|].
  intros j Hj. apply H. lia.
Qed.

Lemma area_from_one_more c c' m a idx count : forall i,
  i <= idx < i + Z.of_nat count ->
  stored_area c' idx m = (stored_area c idx m + a)%Q ->
  (forall j, j <> idx -> stored_area c' j m = stored_area c j m) ->
  (area_from c' m count i == area_from c m count i + a)%Q.
Proof.
  induction count as [|count IH]; intros i Hi Hat Hother; [lia|]. simpl.
  destruct (decide (i = idx)) as [->|Hne].
  - rewrite Hat. rewrite (area_from_equal c c' m count (idx + 1)).
    + ring.
    + intros j Hj. apply Hother. lia.
  - rewrite (Hother i Hne). rewrite (IH (i + 1)); [ring|lia|done|done].
Qed.

Lemma area_from_outside c m count : forall i,
  parallel c -> size c <= i -> (area_from c m count i == 0)%Q.
Proof.
  induction count as [|count IH]; intros i Hpar Hi; [reflexivity|]. simpl.
  rewrite stored_area_outside by (done || lia). rewrite IH by (done || lia). ring.
Qed.

Lemma area_from_app c m k1 k2 : forall i,
  (area_from c m (k1 + k2) i
   == area_from c m k1 i + area_from c m k2 (i + Z.of_nat k1))%Q.
Proof.
  induction k1 as [|k1 IH]; intros i.
  - cbn [Nat.add area_from]. replace (i + Z.of_nat 0) with i by lia. ring.
  - cbn [Nat.add area_from]. rewrite IH.
    replace (i + 1 + Z.of_nat k1) with (i + Z.of_nat (S k1)) by lia. ring.
Qed.

(* The total over any range that covers the collection. *)
Lemma molecule_area_over c m count :
  parallel c -> size c <= Z.of_nat count ->
  (area_from c m count 0 == molecule_area c m)%Q.
Proof.
  intros Hpar Hn. unfold molecule_area.
  pose proof (vsize_nonneg (SegmentTypeHBtype c)) as Hs. fold (size c) in Hs.
  assert (Hd : exists d, count = (Z.to_nat (size c) + d)%nat)
    by (exists (count - Z.to_nat (size c))%nat; lia).
  destruct Hd as [d ->].
  rewrite area_from_app. rewrite (area_from_outside c m d) by (done || lia).
  ring.
Qed.

(* One call adds its area to the total of its molecule and to no other. *)
Lemma add_molecule_area n c m g s sc h an a :
  well_formed n c -> 0 <= m < n ->
  exists c',
    add m g s sc h an a c = Ok c' /\ well_formed n c' /\
    forall k, (molecule_area c' k == molecule_area c k + (if m =? k then a else 0))%Q.
Proof.
  intros Hwf Hm. destruct (Qeq_bool a 0) eqn:Ha.
  - exists c. rewrite (add_zero_area _ _ _ _ _ _ _ _ Ha).
    split; [done|]. split; [done|]. intros k. apply Qeq_bool_iff in Ha.
    destruct (m =? k); [rewrite Ha|]; ring.
  - destruct (add_spec n c m g s sc h an a Hwf Ha Hm)
      as (c' & idx & Hadd & Hwf' & Hkey & Hcase & Hat & Hother).
    exists c'. split; [done|]. split; [done|]. intros k.
    pose proof (vsize_nonneg (SegmentTypeHBtype c)) as Hs. fold (size c) in Hs.
    pose proof (has_key_range _ _ _ _ _ _ _ Hkey) as Hidx.
    assert (Hsz : size c' <= size c + 1)
      by (destruct Hcase as [[_ ->]|(_ & _ & ->)]; lia).
    rewrite <- (molecule_area_over c' k (Z.to_nat (size c + 1)))
      by (apply Hwf' || lia).
    rewrite <- (molecule_area_over c k (Z.to_nat (size c + 1)))
      by (apply Hwf || lia).
    destruct (Z.eqb_spec m k) as [->|Hne].
    + apply (area_from_one_more c c' k a idx); [lia|done|].
      intros j Hj. apply Hother. congruence.
    + rewrite (area_from_equal c c' k).
      * ring.
      * intros j _. apply Hother. congruence.
Qed.

(** X15: add accounts for every area it is given.  After any sequence of
    add calls with ind_molecule < n on a collection with the invariants of
    segmentTypeCollection(n), every call has returned and the areas stored
    for a molecule, summed over the segment types, are what they were plus
    the areas passed for that molecule. *)
Theorem add_all_accounts_for_area n calls : forall c,
  well_formed n c ->
  Forall (fun x => 0 <= call_molecule x < n) calls ->
  exists c',
    add_all calls c = Ok c' /\ well_formed n c' /\
    forall m, (molecule_area c' m == molecule_area c m + area_given calls m)%Q.
Proof.
  induction calls as [|x calls IH]; intros c Hwf Hcalls.
  - exists c. split; [done|]. split; [done|]. intros m. simpl. ring.
  - apply Forall_cons in Hcalls as [Hx Hcalls]. simpl.
    destruct (add_molecule_area n c (call_molecule x) (call_group x) (call_Sigma x)
                (call_SigmaCorr x) (call_HBtype x) (call_atomicNumber x)
                (call_Area x) Hwf Hx) as (c1 & -> & Hwf1 & Hone).
    destruct (IH c1 Hwf1 Hcalls) as (c' & Hrun & Hwf' & Hall).
    exists c'. split; [done|]. split; [done|]. intros m.
    rewrite Hall, Hone. ring.
Qed.

Lemma add_all_accounts_for_area_witness :
  exists c',
    add_all [mkAddCall 0 1 0.01 0.02 1 8 1.5; mkAddCall 1 2 0.003 0.001 0 1 2;
             mkAddCall 0 1 0.01 0.02 1 8 0.25]
      (segmentTypeCollection_n 2) = Ok c' /\
    well_formed 2 c' /\
    forall m,
      (molecule_area c' m ==
       molecule_area (segmentTypeCollection_n 2) m
       + area_given [mkAddCall 0 1 0.01 0.02 1 8 1.5; mkAddCall 1 2 0.003 0.001 0 1 2;
                     mkAddCall 0 1 0.01 0.02 1 8 0.25] m)%Q.
Proof.
  apply (add_all_accounts_for_area 2).
  - apply segmentTypeCollection_n_wf.
  - repeat (apply Forall_cons; split; [simpl; lia|]). apply Forall_nil_2.
Defined.

(** ** clear *)

(** X16: after clear() the collection has no segment type while the three
    bound arrays still hold what they held; sort() on it runs into the
    write upperBoundIndexForGroup[temporaryindex] with temporaryindex = -1,
    whatever the collection held before. *)
Theorem sort_after_clear_out_of_bounds c :
  size (clear c) = 0 /\
  lowerBoundIndexForGroup (clear c) = lowerBoundIndexForGroup c /\
  upperBoundIndexForGroup (clear c) = upperBoundIndexForGroup c /\
  numberOfSegmentsForGroup (clear c) = numberOfSegmentsForGroup c /\
  sort (clear c) = Halt OutOfBounds (clear c).
Proof. by destruct c. Qed.

Lemma clear_well_formed n c : well_formed n c -> well_formed n (clear c).
Proof.
  intros [Hpar Htpl Hrows Huniq]. split.
  - by split.
  - done.
  - apply Forall_nil_2.
  - intros g s sc h an i j Hi%has_key_range. simpl in Hi.
    change (size (clear c)) with 0 in Hi. lia.
Qed.

(** X17: clear() keeps the row template, so the collection stays usable
    for the same molecules: on a collection with the invariants of
    segmentTypeCollection(n), an add of a nonzero area after clear() returns
    with exactly one segment type, which carries the key passed and holds
    the area at ind_molecule and 0 elsewhere. *)
Theorem add_after_clear n c m g s sc h an a :
  well_formed n c -> 0 <= m < n -> ~ (a == 0)%Q ->
  exists c',
    add m g s sc h an a (clear c) = Ok c' /\ well_formed n c' /\
    size c' = 1 /\ has_key c' 0 g s sc h an /\
    forall k, (stored_area c' 0 k == if k =? m then a else 0)%Q.
Proof.
  intros Hwf Hm Ha%Qeq_bool_false.
  destruct (add_spec n (clear c) m g s sc h an a (clear_well_formed n c Hwf) Ha Hm)
    as (c' & idx & Hadd & Hwf' & Hkey & Hcase & Hat & Hother).
  assert (Hidx : idx = 0 /\ size c' = 1).
  { destruct Hcase as [[Hk _]|(_ & -> & ->)]; [|done].
    apply has_key_range in Hk. change (size (clear c)) with 0 in Hk. lia. }
  destruct Hidx as [-> Hsz].
  exists c'. repeat (split; [done|]). intros k.
  destruct (Z.eqb_spec k m) as [->|Hne].
  - rewrite Hat. unfold stored_area. simpl. ring.
  - rewrite Hother by congruence. reflexivity.
Qed.

Lemma add_after_clear_witness :
  exists c',
    add 0 1 0.004 0.005 1 8 2.5 (clear two_group_collection) = Ok c' /\
    well_formed 1 c' /\ size c' = 1 /\ has_key c' 0 1 0.004 0.005 1 8 /\
    forall k, (stored_area c' 0 k == if k =? 0 then 2.5 else 0)%Q.
Proof.
  apply (add_after_clear 1 two_group_collection).
  - apply built_well_formed.
    apply built_add_to; [apply built_add_to; [apply built_new|]|]; reflexivity.
  - lia.
  - discriminate.
Defined.

(** ** calculation: the two find-or-add functions *)

(* The search loop returns the first index whose test holds, or -1. *)
Lemma search_loop_spec test count : forall i,
  0 <= i ->
  (forall j, i <= j < i + Z.of_nat count -> exists b, test j = Some b) ->
  exists r, search_loop test count i = Some r /\
    ((r = -1 /\ forall j, i <= j < i + Z.of_nat count -> test j = Some false) \/
     (i <= r < i + Z.of_nat count /\ test r = Some true /\
      forall j, i <= j < r -> test j = Some false)).
Proof.
  induction count as [|count IH]; intros i Hi Hdef.
  - exists (-1). split; [done|]. left. split; [done|]. intros j Hj. lia.
  - simpl. destruct (Hdef i ltac:(lia)) as [[|] Hb]; rewrite Hb.
    + exists i. split; [done|]. right. split; [lia|]. split; [done|].
      intros j Hj. lia.
    + destruct (IH (i + 1) ltac:(lia)) as (r & -> & Hr).
      { intros j Hj. apply Hdef. lia. }
      exists r. split; [done|].
      destruct Hr as [[-> Hno]|(Hrange & Hat & Hbefore)].
      * left. split; [done|]. intros j Hj.
        destruct (decide (j = i)) as [->|]; [done|]. apply Hno. lia.
      * right. split; [lia|]. split; [done|]. intros j Hj.
        destruct (decide (j = i)) as [->|]; [done|]. apply Hbefore. lia.
Qed.

(* A test that reads outside a vector ends the loop. *)
Lemma search_loop_None test count : forall i r,
  i <= r < i + Z.of_nat count -> test r = None ->
  (forall j, i <= j < r -> test j = Some false) ->
  search_loop test count i = None.
Proof.
  induction count as [|count IH]; intros i r Hr Hnone Hbefore; [lia|]. simpl.
  destruct (decide (i = r)) as [->|Hne].
  - by rewrite Hnone.
  - rewrite (Hbefore i) by lia. apply (IH (i + 1) r); [lia|done|].
    intros j Hj. apply Hbefore. lia.
Qed.

Lemma tau_match_defined calc temperature j :
  0 <= j < vsize (TauTemperatures calc) ->
  exists b, tau_match calc temperature j = Some b.
Proof.
  intros Hj. unfold tau_match.
  destruct (proj1 (vget_is_Some (TauTemperatures calc) j) Hj) as [t ->].
  simpl. by eexists.
Qed.

Lemma tau_match_true calc temperature j :
  tau_match calc temperature j = Some true <->
  exists t, vget (TauTemperatures calc) j = Some t /\ (t == temperature)%Q.
Proof.
  unfold tau_match. rewrite bind_Some_true.
  split; intros (t & Ht & E); exists t; (split; [done|]); by apply Qeq_bool_iff.
Qed.

Lemma tau_match_false calc temperature j :
  tau_match calc temperature j = Some false <->
  exists t, vget (TauTemperatures calc) j = Some t /\ ~ (t == temperature)%Q.
Proof.
  unfold tau_match. destruct (vget (TauTemperatures calc) j) as [t|]; simpl.
  - split.
    + intros [= E]. exists t. split; [done|]. intros H%Qeq_bool_iff. congruence.
    + intros (t' & [= <-] & H). f_equal. by apply Qeq_bool_false.
  - split; [done|]. by intros (? & ? & _).
Qed.

(* What a call of addOrFindTauIndexForConditions does. *)
Lemma addOrFindTauIndexForConditions_spec temperature calc :
  exists idx calc',
    addOrFindTauIndexForConditions temperature calc = Ok (idx, calc') /\
    ((0 <= idx < vsize (TauTemperatures calc) /\ calc' = calc /\
      tau_match calc temperature idx = Some true /\
      forall j, 0 <= j < idx -> tau_match calc temperature j = Some false) \/
     (idx = vsize (TauTemperatures calc) /\
      (forall j, 0 <= j < vsize (TauTemperatures calc) ->
         tau_match calc temperature j = Some false) /\
      calc' = {| concentrations := concentrations calc;
                 temperatures := temperatures calc;
                 TauConcentrationIndices := push_back (TauConcentrationIndices calc) [];
                 TauTemperatures := push_back (TauTemperatures calc) temperature |})).
Proof.
  unfold addOrFindTauIndexForConditions.
  pose proof (vsize_nonneg (TauTemperatures calc)) as Hn.
  destruct (search_loop_spec (tau_match calc temperature)
              (Z.to_nat (vsize (TauTemperatures calc))) 0 ltac:(lia))
    as (r & -> & Hr).
  { intros j Hj. apply tau_match_defined. lia. }
  destruct Hr as [[-> Hno]|(Hrange & Hat & Hbefore)].
  - change (-1 =? -1) with true. cbv iota zeta. eexists _, _. split; [reflexivity|].
    right. cbn [TauTemperatures]. rewrite vsize_push_back.
    split; [lia|]. split; [|done]. intros j Hj. apply Hno. lia.
  - replace (r =? -1) with false by lia. exists r, calc. split; [done|].
    left. split; [lia|]. done.
Qed.

(** X18: addOrFindTauIndexForConditions always returns.  When
    TauTemperatures holds the temperature it returns the first index that
    does and changes nothing; otherwise it appends the temperature and an
    empty index list and returns the index of the new entry.  In both cases
    the entry at the returned index equals the temperature, the old entries
    are kept, and a second call with the same temperature returns the same
    index and changes nothing. *)
Theorem tau_index_find_or_add temperature calc :
  exists idx calc',
    addOrFindTauIndexForConditions temperature calc = Ok (idx, calc') /\
    (exists t, vget (TauTemperatures calc') idx = Some t /\ (t == temperature)%Q) /\
    (forall j t, 0 <= j < idx -> vget (TauTemperatures calc') j = Some t ->
       ~ (t == temperature)%Q) /\
    ((exists j t, vget (TauTemperatures calc) j = Some t /\ (t == temperature)%Q) ->
     calc' = calc) /\
    ((forall j t, vget (TauTemperatures calc) j = Some t -> ~ (t == temperature)%Q) ->
     idx = vsize (TauTemperatures calc) /\
     TauTemperatures calc' = TauTemperatures calc ++ [temperature] /\
     TauConcentrationIndices calc' = TauConcentrationIndices calc ++ [[]]) /\
    concentrations calc' = concentrations calc /\
    temperatures calc' = temperatures calc /\
    (forall j, j < vsize (TauTemperatures calc) ->
       vget (TauTemperatures calc') j = vget (TauTemperatures calc) j) /\
    addOrFindTauIndexForConditions temperature calc' = Ok (idx, calc').
Proof.
  destruct (addOrFindTauIndexForConditions_spec temperature calc)
    as (idx & calc' & Hrun & Hcase).
  exists idx, calc'. split; [done|].
  destruct Hcase as [(Hidx & -> & Hat & Hbefore)|(-> & Hno & ->)].
  - split; [by apply tau_match_true|].
    split.
    { intros j t Hj Ht Heq. specialize (Hbefore j Hj).
      apply tau_match_false in Hbefore as (t' & Ht' & Hne).
      rewrite Ht in Ht'. injection Ht' as <-. done. }
    split; [done|]. split.
    { intros Hnone. apply tau_match_true in Hat as (t & Ht & Heq).
      by destruct (Hnone idx t Ht). }
    done.
  - cbn [TauTemperatures TauConcentrationIndices concentrations temperatures].
    pose proof (vsize_nonneg (TauTemperatures calc)) as Hn.
    split; [exists temperature; split; [apply vget_push_back_new|reflexivity]|].
    split.
    { intros j t Hj Ht Heq. rewrite vget_push_back_old in Ht by lia.
      specialize (Hno j Hj). apply tau_match_false in Hno as (t' & Ht' & Hne).
      rewrite Ht in Ht'. injection Ht' as <-. done. }
    split.
    { intros (j & t & Ht & Heq). pose proof (vget_range _ _ _ Ht) as Hj.
      specialize (Hno j Hj). apply tau_match_false in Hno as (t' & Ht' & Hne).
      rewrite Ht in Ht'. injection Ht' as <-. done. }
    split; [done|]. split; [done|]. split; [done|].
    split; [intros j Hj; by apply vget_push_back_old|].
    set (calc' := {| concentrations := concentrations calc;
                     temperatures := temperatures calc;
                     TauConcentrationIndices := push_back (TauConcentrationIndices calc) [];
                     TauTemperatures := push_back (TauTemperatures calc) temperature |}).
    destruct (addOrFindTauIndexForConditions_spec temperature calc')
      as (idx2 & calc2 & -> & Hcase2).
    destruct Hcase2 as [(Hidx & -> & Hat & Hbefore)|(_ & Hno2 & _)].
    + f_equal. f_equal.
      destruct (decide (idx2 = vsize (TauTemperatures calc))) as [|Hne]; [done|].
      cbn [calc' TauTemperatures] in Hidx. rewrite vsize_push_back in Hidx.
      apply tau_match_true in Hat as (t & Ht & Heq).
      cbn [calc' TauTemperatures] in Ht. rewrite vget_push_back_old in Ht by lia.
      specialize (Hno idx2 ltac:(lia)).
      apply tau_match_false in Hno as (t' & Ht' & Hne').
      rewrite Ht in Ht'. injection Ht' as <-. done.
    + specialize (Hno2 (vsize (TauTemperatures calc))).
      cbn [calc' TauTemperatures] in Hno2. rewrite vsize_push_back in Hno2.
      specialize (Hno2 ltac:(lia)).
      apply tau_match_false in Hno2 as (t' & Ht' & Hne').
      cbn [calc' TauTemperatures] in Ht'. rewrite vget_push_back_new in Ht'.
      injection Ht' as <-. by destruct Hne'.
Qed.

(** X19: addOrFindTauIndexForConditions keeps TauTemperatures free of
    repetitions and TauConcentrationIndices as long as TauTemperatures. *)
Theorem tau_index_keeps_distinct temperature calc idx calc' :
  tau_distinct calc ->
  addOrFindTauIndexForConditions temperature calc = Ok (idx, calc') ->
  tau_distinct calc' /\ 0 <= idx < vsize (TauTemperatures calc') /\
  vsize (TauTemperatures calc) <= vsize (TauTemperatures calc')
    <= vsize (TauTemperatures calc) + 1.
Proof.
  intros [Hlen Hdist] Hrun.
  destruct (addOrFindTauIndexForConditions_spec temperature calc)
    as (idx' & calc'' & Hrun' & Hcase).
  rewrite Hrun in Hrun'. injection Hrun' as <- <-.
  pose proof (vsize_nonneg (TauTemperatures calc)) as Hn.
  destruct Hcase as [(Hidx & -> & _)|(-> & Hno & ->)].
  - split; [by split|]. lia.
  - cbn [TauTemperatures]. rewrite vsize_push_back. split; [|lia]. split.
    + cbn [TauTemperatures TauConcentrationIndices]. rewrite !vsize_push_back. lia.
    + cbn [TauTemperatures]. intros i j a b Ha Hb Heq.
      pose proof (vget_range _ _ _ Ha) as Ri. pose proof (vget_range _ _ _ Hb) as Rj.
      rewrite vsize_push_back in Ri, Rj.
      assert (Hold : forall k x, k < vsize (TauTemperatures calc) -> 0 <= k ->
                vget (push_back (TauTemperatures calc) temperature) k = Some x ->
                vget (TauTemperatures calc) k = Some x /\ ~ (x == temperature)%Q).
      { intros k x Hk Hk0 Hx. rewrite vget_push_back_old in Hx by lia.
        split; [done|]. specialize (Hno k ltac:(lia)).
        apply tau_match_false in Hno as (t' & Ht' & Hne).
        rewrite Hx in Ht'. by injection Ht' as <-. }
      destruct (decide (i = vsize (TauTemperatures calc))) as [->|Hi],
               (decide (j = vsize (TauTemperatures calc))) as [->|Hj]; [done| | |].
      * rewrite vget_push_back_new in Ha. injection Ha as <-.
        destruct (Hold j b ltac:(lia) ltac:(lia) Hb) as [_ Hne].
        destruct Hne. by symmetry.
      * rewrite vget_push_back_new in Hb. injection Hb as <-.
        by destruct (Hold i a ltac:(lia) ltac:(lia) Ha) as [_ Hne].
      * destruct (Hold i a ltac:(lia) ltac:(lia) Ha) as [Ha' _].
        destruct (Hold j b ltac:(lia) ltac:(lia) Hb) as [Hb' _].
        by apply (Hdist i j a b).
Qed.

Lemma tau_index_keeps_distinct_witness :
  tau_distinct (state_of (addOrFindTauIndexForConditions 320 sample_calculation)).2 /\
  0 <= 2 < vsize (TauTemperatures
             (state_of (addOrFindTauIndexForConditions 320 sample_calculation)).2) /\
  vsize (TauTemperatures sample_calculation)
    <= vsize (TauTemperatures
         (state_of (addOrFindTauIndexForConditions 320 sample_calculation)).2)
    <= vsize (TauTemperatures sample_calculation) + 1.
Proof.
  apply (tau_index_keeps_distinct 320 sample_calculation 2).
  - split; [reflexivity|]. intros i j a b Ha Hb Heq.
    pose proof (vget_range _ _ _ Ha) as Ri. pose proof (vget_range _ _ _ Hb) as Rj.
    change (vsize (TauTemperatures sample_calculation)) with 2 in Ri, Rj.
    assert (i = 0 \/ i = 1) as [-> | ->] by lia;
      assert (j = 0 \/ j = 1) as [-> | ->] by lia; try done;
      vm_compute in Ha, Hb; injection Ha as <-; injection Hb as <-;
      vm_compute in Heq; discriminate.
  - vm_compute. reflexivity.
Defined.

(* The inner loop counts the agreeing entries; the count reaches the length
   of the query exactly when every entry agrees. *)
Lemma count_equal_run row concentration :
  vsize concentration <= vsize row ->
  exists k,
    for_range 0 (vsize concentration) (count_equal_step row concentration) 0 = Ok k /\
    0 <= k <= vsize concentration /\
    (k = vsize concentration <->
     forall j b, vget concentration j = Some b ->
       exists a, vget row j = Some a /\ (a == b)%Q).
Proof.
  intros Hcover.
  destruct (for_range_total
              (fun j k => 0 <= k <= j /\
                 (k = j <-> forall j' b, j' < j -> vget concentration j' = Some b ->
                    exists a, vget row j' = Some a /\ (a == b)%Q))
              0 (vsize concentration) (count_equal_step row concentration) 0)
    as (k & Hrun & Hk & Hiff).
  - apply vsize_nonneg.
  - split; [lia|]. split; [|done]. intros _ j' b Hj' Hb.
    apply vget_range in Hb. lia.
  - intros j k Hj [Hk Hiff]. unfold count_equal_step.
    destruct (proj1 (vget_is_Some row j) ltac:(lia)) as [a Ha].
    destruct (proj1 (vget_is_Some concentration j) ltac:(lia)) as [b Hb].
    rewrite Ha, Hb. eexists. split; [reflexivity|].
    destruct (Qeq_bool a b) eqn:E.
    + apply Qeq_bool_iff in E. split; [lia|]. split.
      * intros Hkj j' b' Hj' Hb'. destruct (decide (j' = j)) as [->|].
        { rewrite Hb in Hb'. injection Hb' as <-. by exists a. }
        { apply (proj1 Hiff); [lia|lia|done]. }
      * intros Hall. assert (k = j); [|lia]. apply Hiff.
        intros j' b' Hj' Hb'. apply Hall; [lia|done].
    + split; [lia|]. split; [lia|]. intros Hall. exfalso.
      destruct (Hall j b ltac:(lia) Hb) as (a' & Ha' & Heq).
      rewrite Ha in Ha'. injection Ha' as <-.
      apply Qeq_bool_iff in Heq. congruence.
  - exists k. split; [done|]. split; [done|]. rewrite Hiff. split.
    + intros Hall j b Hb. apply Hall; [|done]. apply vget_range in Hb. lia.
    + intros Hall j b _ Hb. by apply Hall.
Qed.

(* A stored row shorter than the query is read past its end. *)
Lemma count_equal_short row concentration :
  vsize row < vsize concentration ->
  exists k,
    for_range 0 (vsize concentration) (count_equal_step row concentration) 0
    = Halt OutOfBounds k.
Proof.
  intros Hshort.
  pose proof (for_range_inv (fun j _ => j <= vsize row) 0 (vsize concentration)
                (count_equal_step row concentration) 0
                ltac:(apply vsize_nonneg) ltac:(apply vsize_nonneg)) as Hinv.
  lapply Hinv.
  - destruct (for_range _ _ _ _) as [k|f k]; [lia|].
    intros (j & k0 & Hj & _ & Hstep). exists k.
    unfold count_equal_step in Hstep.
    destruct (vget row j), (vget concentration j); congruence.
  - intros j k k' Hj _ Hstep. unfold count_equal_step in Hstep.
    destruct (vget row j) as [a|] eqn:Ha; [|by destruct (vget concentration j)].
    apply vget_range in Ha. lia.
Qed.

(* With rows that cover the query the test of the outer loop is defined and
   holds exactly for a row and temperature that agree with the query. *)
Lemma concentration_match_spec calc concentration temperature i row t :
  vget (concentrations calc) i = Some row ->
  vget (temperatures calc) i = Some t ->
  vsize concentration <= vsize row ->
  exists b, concentration_match calc concentration temperature i = Some b /\
    (b = true <-> same_conditions row t concentration temperature).
Proof.
  intros Hrow Ht Hcover. unfold concentration_match. cbv zeta. rewrite Hrow.
  destruct (count_equal_run row concentration Hcover) as (k & -> & Hk & Hiff).
  rewrite Ht. eexists. split; [reflexivity|].
  unfold same_conditions. rewrite <- Hiff.
  destruct (Qeq_bool t temperature) eqn:E.
  - apply Qeq_bool_iff in E. rewrite Z.eqb_eq. split; [intros ?; split; [lia|done]|].
    intros [? _]. lia.
  - rewrite Z.eqb_eq. split; [lia|]. intros [_ H%Qeq_bool_iff]. congruence.
Qed.

Lemma rows_cover_lookup n calc i :
  rows_cover n calc -> 0 <= i < vsize (concentrations calc) ->
  exists row t, vget (concentrations calc) i = Some row /\
                vget (temperatures calc) i = Some t /\ n <= vsize row.
Proof.
  intros [Hlen Hrows] Hi.
  destruct (proj1 (vget_is_Some (concentrations calc) i) Hi) as [row Hrow].
  destruct (proj1 (vget_is_Some (temperatures calc) i) ltac:(lia)) as [t Ht].
  exists row, t. split; [done|]. split; [done|].
  apply vget_Some in Hrow as [_ Hrow]. rewrite Forall_lookup in Hrows.
  exact (Hrows _ _ Hrow).
Qed.

(** X20: the test nEqual == concentration.size() + nConditions.  For a
    stored row with at least as many entries as the query, the test holds
    exactly when the row agrees with the query on every entry the query has
    and the stored temperature equals the temperature passed; entries of the
    row beyond the length of the query are not looked at. *)
Theorem concentration_match_counts calc concentration temperature i row t :
  vget (concentrations calc) i = Some row ->
  vget (temperatures calc) i = Some t ->
  vsize concentration <= vsize row ->
  (concentration_match calc concentration temperature i = Some true <->
   same_conditions row t concentration temperature) /\
  (concentration_match calc concentration temperature i = Some false <->
   ~ same_conditions row t concentration temperature).
Proof.
  intros Hrow Ht Hcover.
  destruct (concentration_match_spec calc concentration temperature i row t
              Hrow Ht Hcover) as (b & -> & Hb).
  destruct b.
  - split; [split; [intros _; by apply Hb|done]|].
    split; [done|]. intros Hn. destruct Hn. by apply Hb.
  - split; [split; [done|]|].
    + intros H%Hb. done.
    + split; [|done]. intros _ H%Hb. done.
Qed.

Lemma concentration_match_counts_witness :
  (concentration_match sample_calculation [0.25%Q] 298.15 0 = Some true <->
   same_conditions [0.25%Q; 0.75%Q] 298.15 [0.25%Q] 298.15) /\
  (concentration_match sample_calculation [0.25%Q] 298.15 0 = Some false <->
   ~ same_conditions [0.25%Q; 0.75%Q] 298.15 [0.25%Q] 298.15).
Proof.
  apply (concentration_match_counts sample_calculation [0.25%Q] 298.15 0).
  - reflexivity.
  - reflexivity.
  - vm_compute. discriminate.
Defined.

(* What a call of addOrFindArrayIndexForConcentration does on rows that
   cover the query. *)
Lemma addOrFindArrayIndexForConcentration_spec concentration temperature calc :
  rows_cover (vsize concentration) calc ->
  exists idx calc',
    addOrFindArrayIndexForConcentration concentration temperature calc
    = Ok (idx, calc') /\
    ((0 <= idx < vsize (concentrations calc) /\ calc' = calc /\
      concentration_match calc concentration temperature idx = Some true /\
      forall j, 0 <= j < idx ->
        concentration_match calc concentration temperature j = Some false) \/
     (idx = vsize (concentrations calc) /\
      (forall j, 0 <= j < vsize (concentrations calc) ->
         concentration_match calc concentration temperature j = Some false) /\
      calc' = {| concentrations := push_back (concentrations calc) concentration;
                 temperatures := push_back (temperatures calc) temperature;
                 TauConcentrationIndices := TauConcentrationIndices calc;
                 TauTemperatures := TauTemperatures calc |})).
Proof.
  intros Hcover. unfold addOrFindArrayIndexForConcentration.
  pose proof (vsize_nonneg (concentrations calc)) as Hn.
  destruct (search_loop_spec (concentration_match calc concentration temperature)
              (Z.to_nat (vsize (concentrations calc))) 0 ltac:(lia))
    as (r & -> & Hr).
  { intros j Hj.
    destruct (rows_cover_lookup _ calc j Hcover ltac:(lia)) as (row & t & Hrow & Ht & Hc).
    destruct (concentration_match_spec calc concentration temperature j row t
                Hrow Ht Hc) as (b & Hb & _). by exists b. }
  destruct Hr as [[-> Hno]|(Hrange & Hat & Hbefore)].
  - change (-1 =? -1) with true. cbv iota zeta. eexists _, _. split; [reflexivity|].
    right. cbn [concentrations]. rewrite vsize_push_back.
    split; [lia|]. split; [|done]. intros j Hj. apply Hno. lia.
  - replace (r =? -1) with false by lia. exists r, calc. split; [done|].
    left. split; [lia|]. done.
Qed.

(* The test at an old index does not see an appended row. *)
Lemma concentration_match_push_back calc concentration temperature row t j :
  j < vsize (concentrations calc) ->
  vsize (temperatures calc) = vsize (concentrations calc) ->
  concentration_match
    {| concentrations := push_back (concentrations calc) row;
       temperatures := push_back (temperatures calc) t;
       TauConcentrationIndices := TauConcentrationIndices calc;
       TauTemperatures := TauTemperatures calc |} concentration temperature j
  = concentration_match calc concentration temperature j.
Proof.
  intros Hj Hlen. unfold concentration_match. cbn [concentrations temperatures].
  by rewrite !vget_push_back_old by lia.
Qed.

Lemma same_conditions_refl concentration temperature :
  same_conditions concentration temperature concentration temperature.
Proof. split; [|reflexivity]. intros j b Hb. by exists b. Qed.

Lemma rows_cover_push_back concentration temperature calc :
  rows_cover (vsize concentration) calc ->
  rows_cover (vsize concentration)
    {| concentrations := push_back (concentrations calc) concentration;
       temperatures := push_back (temperatures calc) temperature;
       TauConcentrationIndices := TauConcentrationIndices calc;
       TauTemperatures := TauTemperatures calc |}.
Proof.
  intros [Hlen Hrows]. split; cbn [concentrations temperatures].
  - rewrite !vsize_push_back. lia.
  - apply Forall_app. split; [done|]. by apply Forall_singleton.
Qed.

(** X21: addOrFindArrayIndexForConcentration on stored rows that each have
    a temperature and at least as many entries as the query: the call
    returns; it returns the first index whose row and temperature agree with
    the query and changes nothing, or, when there is none, appends the
    query and its temperature and returns the new index; and a second call
    with the same arguments returns the same index and changes nothing. *)
Theorem concentration_index_find_or_add concentration temperature calc :
  rows_cover (vsize concentration) calc ->
  exists idx calc',
    addOrFindArrayIndexForConcentration concentration temperature calc
    = Ok (idx, calc') /\
    rows_cover (vsize concentration) calc' /\
    (exists row t, vget (concentrations calc') idx = Some row /\
       vget (temperatures calc') idx = Some t /\
       same_conditions row t concentration temperature) /\
    (forall j row t, 0 <= j < idx ->
       vget (concentrations calc') j = Some row ->
       vget (temperatures calc') j = Some t ->
       ~ same_conditions row t concentration temperature) /\
    (calc' = calc \/
     (idx = vsize (concentrations calc) /\
      concentrations calc' = concentrations calc ++ [concentration] /\
      temperatures calc' = temperatures calc ++ [temperature] /\
      TauConcentrationIndices calc' = TauConcentrationIndices calc /\
      TauTemperatures calc' = TauTemperatures calc)) /\
    addOrFindArrayIndexForConcentration concentration temperature calc'
    = Ok (idx, calc').
Proof.
  intros Hcover.
  destruct (addOrFindArrayIndexForConcentration_spec concentration temperature calc
              Hcover) as (idx & calc' & Hrun & Hcase).
  exists idx, calc'. split; [done|].
  assert (Hmeaning : forall c0 j row t b, rows_cover (vsize concentration) c0 ->
            vget (concentrations c0) j = Some row ->
            vget (temperatures c0) j = Some t ->
            concentration_match c0 concentration temperature j = Some b ->
            (b = true <-> same_conditions row t concentration temperature)).
  { intros c0 j row t b Hc0 Hrow Ht Hb.
    pose proof (vget_range _ _ _ Hrow) as Hj.
    destruct (rows_cover_lookup _ c0 j Hc0 Hj) as (row' & t' & Hrow' & Ht' & Hc).
    rewrite Hrow in Hrow'. injection Hrow' as <-.
    destruct (concentration_match_spec c0 concentration temperature j row t
                Hrow Ht Hc) as (b' & Hb' & Hiff).
    rewrite Hb in Hb'. by injection Hb' as <-. }
  destruct Hcase as [(Hidx & -> & Hat & Hbefore)|(-> & Hno & ->)].
  - split; [done|].
    destruct (rows_cover_lookup _ calc idx Hcover Hidx) as (row & t & Hrow & Ht & Hc).
    split; [exists row, t; split; [done|]; split; [done|];
            by apply (Hmeaning calc idx row t true)|].
    split.
    { intros j row' t' Hj Hrow' Ht' Hsame.
      apply (Hmeaning calc j row' t' false Hcover Hrow' Ht' (Hbefore j Hj)) in Hsame.
      done. }
    split; [by left|]. done.
  - pose proof (rows_cover_push_back concentration temperature calc Hcover) as Hcover'.
    set (calc' := {| concentrations := push_back (concentrations calc) concentration;
                     temperatures := push_back (temperatures calc) temperature;
                     TauConcentrationIndices := TauConcentrationIndices calc;
                     TauTemperatures := TauTemperatures calc |}) in *.
    pose proof (vsize_nonneg (concentrations calc)) as Hn.
    pose proof Hcover as [Hlen _].
    assert (Hnew_row : vget (concentrations calc') (vsize (concentrations calc))
                       = Some concentration) by apply vget_push_back_new.
    assert (Hnew_t : vget (temperatures calc') (vsize (concentrations calc))
                     = Some temperature)
      by (rewrite <- Hlen; apply vget_push_back_new).
    assert (Hold : forall j, 0 <= j < vsize (concentrations calc) ->
              concentration_match calc' concentration temperature j = Some false).
    { intros j Hj. unfold calc'. rewrite concentration_match_push_back by (done || lia).
      by apply Hno. }
    split; [done|].
    split; [exists concentration, temperature; split; [done|]; split; [done|];
            apply same_conditions_refl|].
    split.
    { intros j row t Hj Hrow Ht Hsame.
      apply (Hmeaning calc' j row t false Hcover' Hrow Ht (Hold j Hj)) in Hsame.
      done. }
    split; [right; done|].
    destruct (addOrFindArrayIndexForConcentration_spec concentration temperature calc'
                Hcover') as (idx2 & calc2 & -> & Hcase2).
    destruct Hcase2 as [(Hidx & -> & Hat & Hbefore)|(_ & Hno2 & _)].
    + f_equal. f_equal.
      destruct (decide (idx2 = vsize (concentrations calc))) as [|Hne]; [done|].
      cbn [calc' concentrations] in Hidx. rewrite vsize_push_back in Hidx.
      rewrite Hold in Hat by lia. done.
    + specialize (Hno2 (vsize (concentrations calc))).
      cbn [calc' concentrations] in Hno2. rewrite vsize_push_back in Hno2.
      specialize (Hno2 ltac:(lia)).
      apply (Hmeaning calc' _ concentration temperature false Hcover' Hnew_row Hnew_t)
        in Hno2.
      pose proof (proj2 Hno2 (same_conditions_refl _ _)). done.
Qed.

Lemma concentration_index_find_or_add_witness :
  exists idx calc',
    addOrFindArrayIndexForConcentration [0.5%Q; 0.5%Q] 310 sample_calculation
    = Ok (idx, calc') /\
    rows_cover (vsize [0.5%Q; 0.5%Q]) calc' /\
    (exists row t, vget (concentrations calc') idx = Some row /\
       vget (temperatures calc') idx = Some t /\
       same_conditions row t [0.5%Q; 0.5%Q] 310) /\
    (forall j row t, 0 <= j < idx ->
       vget (concentrations calc') j = Some row ->
       vget (temperatures calc') j = Some t ->
       ~ same_conditions row t [0.5%Q; 0.5%Q] 310) /\
    (calc' = sample_calculation \/
     (idx = vsize (concentrations sample_calculation) /\
      concentrations calc' = concentrations sample_calculation ++ [[0.5%Q; 0.5%Q]] /\
      temperatures calc' = temperatures sample_calculation ++ [310%Q] /\
      TauConcentrationIndices calc' = TauConcentrationIndices sample_calculation /\
      TauTemperatures calc' = TauTemperatures sample_calculation)) /\
    addOrFindArrayIndexForConcentration [0.5%Q; 0.5%Q] 310 calc' = Ok (idx, calc').
Proof.
  apply (concentration_index_find_or_add [0.5%Q; 0.5%Q] 310 sample_calculation).
  split; [reflexivity|].
  repeat (apply Forall_cons; split; [vm_compute; discriminate|]). apply Forall_nil_2.
Defined.

(** X22: a stored row shorter than the query is read past its end.  When
    the first stored row that does not end the search has fewer entries than
    the query, addOrFindArrayIndexForConcentration reads
    concentrations[i][j] outside the row; nothing is appended. *)
Theorem concentration_index_short_row concentration temperature calc i row :
  vget (concentrations calc) i = Some row ->
  vsize row < vsize concentration ->
  (forall j, 0 <= j < i ->
     concentration_match calc concentration temperature j = Some false) ->
  addOrFindArrayIndexForConcentration concentration temperature calc
  = Halt OutOfBounds (-1, calc).
Proof.
  intros Hrow Hshort Hbefore. unfold addOrFindArrayIndexForConcentration.
  pose proof (vget_range _ _ _ Hrow) as Hi.
  rewrite (search_loop_None _ _ 0 i); [done|lia| |done].
  unfold concentration_match. cbv zeta. rewrite Hrow.
  by destruct (count_equal_short row concentration Hshort) as (k & ->).
Qed.

Lemma concentration_index_short_row_witness :
  addOrFindArrayIndexForConcentration [0.25%Q; 0.5%Q; 0.25%Q] 298.15 sample_calculation
  = Halt OutOfBounds (-1, sample_calculation).
Proof.
  apply (concentration_index_short_row [0.25%Q; 0.5%Q; 0.25%Q] 298.15
           sample_calculation 0 [0.25%Q; 0.75%Q]).
  - reflexivity.
  - reflexivity.
  - intros j Hj. lia.
Defined.

(** ** threadException *)

(* Once an exception is held, run calls nothing. *)
Lemma run_all_held {S} (fs : list (S -> result S)) te s e :
  Ptr te = Some e -> foldl (fun st f => run f st) (te, s) fs = (te, s).
Proof.
  intros Hheld. induction fs as [|f fs IH]; [done|].
  simpl. rewrite Hheld. exact IH.
Qed.

Lemma run_all_rethrow {S} (fs : list (S -> result S)) : forall te s,
  Ptr te = None ->
  rethrow (foldl (fun st f => run f st) (te, s) fs) = in_sequence fs s.
Proof.
  induction fs as [|f fs IH]; intros te s Hnone.
  - simpl. by rewrite Hnone.
  - simpl. rewrite Hnone. destruct (f s) as [s'|e s'].
    + by apply IH.
    + by rewrite (run_all_held fs _ s' e).
Qed.

(** X23: threadException called from one thread.  A series of run calls on
    a fresh object followed by rethrow behaves as the functions called one
    after the other: the exception rethrown is the first one thrown and no
    function is called after it.  Ptr is never reset: an object that holds
    an exception calls nothing more, and rethrow throws that exception
    again. *)
Theorem run_then_rethrow_is_sequence {S} (fs : list (S -> result S)) (s : S) :
  rethrow (foldl (fun st f => run f st) (threadException_new, s) fs)
  = in_sequence fs s /\
  forall te e, Ptr te = Some e ->
    foldl (fun st f => run f st) (te, s) fs = (te, s) /\
    rethrow (foldl (fun st f => run f st) (te, s) fs) = Halt e s.
Proof.
  split; [by apply run_all_rethrow|].
  intros te e Hheld. rewrite (run_all_held fs te s e Hheld).
  split; [done|]. simpl. by rewrite Hheld.
Qed.

(** ** The renormalisation outside the neutral block, and add after sort *)

(** X24: the renormalisation runs over all segments, not only over the
    neutral block.  With SigmaHB >= 0 and the reference-state switch on, for
    a segment i of the block and a later segment j outside it (an ion
    segment), a returned call leaves A_int(j, i) = A(j, i) - 0.5*(E_ii +
    A(j, j)), where A is the matrix at the call and E_ii the misfit energy
    of the pair (i, i): an entry the term-evaluation loops never assign is
    shifted by half the self-energy of the neutral segment. *)
Theorem renormalisation_reaches_outside_block segments param T A ps A' ps' i j :
  (0 <= SigmaHB param)%Q ->
  sw_useSegmentReferenceStateForInteractionMatrix param = 1 ->
  calculateInteractionMatrix segments param T (A, ps) = Ok (A', ps') ->
  in_block segments i i -> ~ in_block segments j j ->
  0 <= i < j -> j < size segments ->
  exists si sti,
    outer_locals segments param i = Some (si, sti) /\
    (coeff A' j i ==
     coeff A j i
     - 0.5 * (misfit_prefactor param * (si + si)
                * ((si + si) + fCorr param * (sti + sti))
              + coeff A j j))%Q.
Proof.
  intros Hs Hsw Hrun Hbi Hbj Hij Hj.
  unfold calculateInteractionMatrix in Hrun. simpl in Hrun.
  destruct (neutral_pass segments param T A) as [A0|f A0] eqn:Hpass;
    simpl in Hrun; [|done].
  rewrite Hsw in Hrun. simpl in Hrun.
  pose proof (renormalise_run param (size segments) A0 ps) as H.
  rewrite Hrun in H. destruct H as ((_ & _ & Hshift & _) & _).
  rewrite (Hshift i j Hij Hj).
  assert (Hbij : ~ in_block segments i j).
  { destruct Hbi as (lo & up & Hlo & Hup & Hi1 & Hi2).
    rewrite (in_block_bounds _ _ _ _ _ Hlo Hup) in Hbj.
    rewrite (in_block_bounds _ _ _ _ _ Hlo Hup). lia. }
  pose proof (neutral_pass_frame segments param T A j i Hbij) as Eji.
  pose proof (neutral_pass_frame segments param T A j j Hbj) as Ejj.
  rewrite Hpass in Eji, Ejj. simpl in Eji, Ejj.
  pose proof (neutral_pass_entry _ _ _ _ _ _ _ Hpass Hbi) as Eii.
  apply (entry_value_diagonal _ _ _ _ _ Hs) in Eii as (si & sti & Hli & Eii).
  exists si, sti. split; [done|]. rewrite Eji, Ejj, Eii. reflexivity.
Qed.

Lemma renormalisation_reaches_outside_block_witness :
  exists si sti,
    outer_locals neutral_and_ion_collection (sample_parameters 0 1 0 0.0084) 0
    = Some (si, sti) /\
    (coeff (state_of (calculateInteractionMatrix neutral_and_ion_collection
              (sample_parameters 0 1 0 0.0084) 298.15 (zero_matrix 2, []))).1 1 0 ==
     coeff (zero_matrix 2) 1 0
     - 0.5 * (misfit_prefactor (sample_parameters 0 1 0 0.0084) * (si + si)
                * ((si + si) + fCorr (sample_parameters 0 1 0 0.0084) * (sti + sti))
              + coeff (zero_matrix 2) 1 1))%Q.
Proof.
  apply (renormalisation_reaches_outside_block neutral_and_ion_collection
           (sample_parameters 0 1 0 0.0084) 298.15 (zero_matrix 2) [] _
           (state_of (calculateInteractionMatrix neutral_and_ion_collection
              (sample_parameters 0 1 0 0.0084) 298.15 (zero_matrix 2, []))).2).
  - discriminate.
  - reflexivity.
  - vm_compute. reflexivity.
  - exists 0, 1. vm_compute. repeat split; discriminate.
  - intros (lo & up & Hlo & Hup & H1 & H2).
    vm_compute in Hlo, Hup. injection Hlo as <-. injection Hup as <-. lia.
  - lia.
  - reflexivity.
Defined.

(** X25: add finds a key again after sort().  On a collection with the
    invariants of segmentTypeCollection(n), sorted, an add with a key that
    was present before the sort does not append a segment type: it adds the
    area, at ind_molecule, to the row that belonged to that key. *)
Theorem add_after_sort n c m g s sc h an a x :
  well_formed n c -> sortable c -> 0 < size c ->
  has_key c x g s sc h an -> 0 <= m < n -> ~ (a == 0)%Q ->
  exists c1 c2 k,
    sort c = Ok c1 /\ add m g s sc h an a c1 = Ok c2 /\
    size c2 = size c /\ has_key c2 k g s sc h an /\
    forall m', (stored_area c2 k m'
                == stored_area c x m' + (if m' =? m then a else 0))%Q.
Proof.
  intros Hwf Hs Hn Hx Hm Ha%Qeq_bool_false.
  destruct (sort_well_formed n c Hwf Hs Hn) as (c1 & Hsort & Hwf1 & Hsz & Hkeys).
  destruct (Hkeys _ _ _ _ _ _ Hx) as (k & Hk & Hrow).
  destruct (add_spec n c1 m g s sc h an a Hwf1 Ha Hm)
    as (c2 & idx & Hadd & Hwf2 & Hkey2 & Hcase & Hat & Hother).
  assert (Hidx : idx = k /\ size c2 = size c1).
  { destruct Hcase as [[Hi Hsz2]|(Hno & _)]; [|by destruct (Hno k)].
    split; [|done]. by apply (wf_unique _ _ Hwf1 g s sc h an). }
  destruct Hidx as [-> Hsz2].
  exists c1, c2, k. split; [done|]. split; [done|]. split; [lia|].
  split; [done|]. intros m'.
  assert (Harea : stored_area c1 k m' = stored_area c x m')
    by (unfold stored_area; by rewrite Hrow).
  destruct (Z.eqb_spec m' m) as [->|Hne].
  - rewrite Hat, Harea. reflexivity.
  - rewrite Hother by congruence. rewrite Harea. ring.
Qed.

Lemma add_after_sort_witness :
  exists c1 c2 k,
    sort two_group_collection = Ok c1 /\
    add 0 2 0.011 0.012 2 8 0.5 c1 = Ok c2 /\
    size c2 = size two_group_collection /\ has_key c2 k 2 0.011 0.012 2 8 /\
    forall m', (stored_area c2 k m'
                == stored_area two_group_collection 0 m'
                   + (if m' =? 0 then 0.5 else 0))%Q.
Proof.
  assert (Hb : built 1 two_group_collection).
  { apply built_add_to; [apply built_add_to; [apply built_new|]|]; reflexivity. }
  apply (add_after_sort 1 two_group_collection).
  - by apply built_well_formed.
  - apply (built_sortable 1); [done|].
    intros g Hg. vm_compute in Hg.
    apply elem_of_cons in Hg as [->|Hg]; [lia|].
    apply elem_of_cons in Hg as [->|Hg]; [lia|].
    by apply elem_of_nil in Hg.
  - reflexivity.
  - vm_compute. reflexivity.
  - lia.
  - discriminate.
Defined.
